(** * Optimistic execution scheduler (server/v2/cometbft/oe)

    A model of [optimistic_execution.go]: the [OptimisticExecution] struct,
    its six methods and the goroutine started by [Execute], written as
    programs over the atomic actions the Go code performs (mutex operations,
    field loads and stores, channel and context operations), together with an
    interleaving semantics in which a foreground caller and the goroutines
    take turns. *)

From Stdlib Require Import ZArith List Bool Lia String PeanoNat.
From Stdlib.Strings Require Import Byte.
Import ListNotations.

Set Implicit Arguments.

(** ** Go values *)

(** A slice is [None] when it is the nil slice and [Some l] otherwise. *)
Definition slice (A : Type) : Type := option (list A).

Definition elems {A : Type} (s : slice A) : list A :=
  match s with
  | None => []
  | Some l => l
  end.

Fixpoint list_eqb {A : Type} (eqb : A -> A -> bool) (l1 l2 : list A) : bool :=
  match l1, l2 with
  | [], [] => true
  | x :: l1', y :: l2' => eqb x y && list_eqb eqb l1' l2'
  | _, _ => false
  end.

(** [bytes.Equal]: the two slices have the same length and the same bytes;
    a nil slice is equal to an empty one. *)
Definition bytes_Equal (a b : slice byte) : bool :=
  list_eqb Byte.eqb (elems a) (elems b).

(** Identifiers of the objects allocated at run time. *)
Definition chan := nat.   (* a [chan struct{}] made by [make] *)
Definition ctx := nat.    (* a context made by [context.WithCancel] *)
Definition tid := nat.    (* 0 is the calling thread, [S i] the i-th goroutine *)

(** ** Types the package imports *)

Class Externals : Type := {
  Tx : Type;               (* transaction.Tx *)
  BlockResponse : Type;    (* server.BlockResponse *)
  WriterMap : Type;        (* store.WriterMap *)
  CommitInfo : Type;       (* abci.CommitInfo *)
  MisbehaviorT : Type;     (* abci.Misbehavior *)
  time_Time : Type;        (* time.Time *)
  error_value : Type;      (* the non-nil values of the interface [error] *)
  Logger : Type;           (* log.Logger *)
  logger_With : Logger -> string -> string -> Logger;   (* Logger.With *)
  ModuleKey : string       (* log.ModuleKey *)
}.

Inductive Level : Type := Debug | Error.

Section Model.
Context {E : Externals}.

(** [abci.ProcessProposalRequest], the fields [Execute] reads. *)
Record ProcessProposalRequest : Type := {
  pp_Txs : slice (slice byte);
  pp_ProposedLastCommit : CommitInfo;
  pp_Misbehavior : slice MisbehaviorT;
  pp_Hash : slice byte;
  pp_Height : Z;
  pp_Time : time_Time;
  pp_NextValidatorsHash : slice byte;
  pp_ProposerAddress : slice byte
}.

(** [abci.FinalizeBlockRequest], the fields [Execute] sets. *)
Record FinalizeBlockRequest : Type := {
  fb_Txs : slice (slice byte);
  fb_DecidedLastCommit : CommitInfo;
  fb_Misbehavior : slice MisbehaviorT;
  fb_Hash : slice byte;
  fb_Height : Z;
  fb_Time : time_Time;
  fb_NextValidatorsHash : slice byte;
  fb_ProposerAddress : slice byte
}.

Record FinalizeBlockResponse : Type := {
  Resp : option BlockResponse;
  StateChanges : option WriterMap;
  DecodedTxs : slice Tx
}.

(** The four results of a [FinalizeBlockFunc]. *)
Record FinalizeOut : Type := {
  out_resp : option BlockResponse;
  out_stateChanges : option WriterMap;
  out_decodedTxs : slice Tx;
  out_err : option error_value
}.

(** [FinalizeBlockFunc]: the function receives the context and the request
    pointer.  What it can learn from the context is whether it has been
    cancelled, which is the boolean argument. *)
Definition FinalizeBlockFunc : Type :=
  bool -> option FinalizeBlockRequest -> FinalizeOut.

Record OptimisticExecution : Type := {
  finalizeBlockFunc : option FinalizeBlockFunc;
  logger : Logger;
  mtx : option tid;                 (* [None]: unlocked; [Some t]: locked by [t] *)
  stopCh : option chan;
  request : option FinalizeBlockRequest;
  response : option FinalizeBlockResponse;
  err : option error_value;
  cancelFunc : option ctx;          (* the cancel function of that context *)
  initialized : bool;
  abortRate : Z
}.

(** The fields other than the mutex, with the type of their contents. *)
Inductive Field : Type -> Type :=
| f_finalizeBlockFunc : Field (option FinalizeBlockFunc)
| f_logger : Field Logger
| f_stopCh : Field (option chan)
| f_request : Field (option FinalizeBlockRequest)
| f_response : Field (option FinalizeBlockResponse)
| f_err : Field (option error_value)
| f_cancelFunc : Field (option ctx)
| f_initialized : Field bool
| f_abortRate : Field Z.

Definition get {T : Type} (f : Field T) (o : OptimisticExecution) : T :=
  match f in Field T return T with
  | f_finalizeBlockFunc => finalizeBlockFunc o
  | f_logger => logger o
  | f_stopCh => stopCh o
  | f_request => request o
  | f_response => response o
  | f_err => err o
  | f_cancelFunc => cancelFunc o
  | f_initialized => initialized o
  | f_abortRate => abortRate o
  end.

Definition set {T : Type} (f : Field T) (v : T) (o : OptimisticExecution)
  : OptimisticExecution :=
  match f in Field T return T -> OptimisticExecution with
  | f_finalizeBlockFunc => fun v =>
      Build_OptimisticExecution v (logger o) (mtx o) (stopCh o) (request o)
        (response o) (err o) (cancelFunc o) (initialized o) (abortRate o)
  | f_logger => fun v =>
      Build_OptimisticExecution (finalizeBlockFunc o) v (mtx o) (stopCh o)
        (request o) (response o) (err o) (cancelFunc o) (initialized o)
        (abortRate o)
  | f_stopCh => fun v =>
      Build_OptimisticExecution (finalizeBlockFunc o) (logger o) (mtx o) v
        (request o) (response o) (err o) (cancelFunc o) (initialized o)
        (abortRate o)
  | f_request => fun v =>
      Build_OptimisticExecution (finalizeBlockFunc o) (logger o) (mtx o)
        (stopCh o) v (response o) (err o) (cancelFunc o) (initialized o)
        (abortRate o)
  | f_response => fun v =>
      Build_OptimisticExecution (finalizeBlockFunc o) (logger o) (mtx o)
        (stopCh o) (request o) v (err o) (cancelFunc o) (initialized o)
        (abortRate o)
  | f_err => fun v =>
      Build_OptimisticExecution (finalizeBlockFunc o) (logger o) (mtx o)
        (stopCh o) (request o) (response o) v (cancelFunc o) (initialized o)
        (abortRate o)
  | f_cancelFunc => fun v =>
      Build_OptimisticExecution (finalizeBlockFunc o) (logger o) (mtx o)
        (stopCh o) (request o) (response o) (err o) v (initialized o)
        (abortRate o)
  | f_initialized => fun v =>
      Build_OptimisticExecution (finalizeBlockFunc o) (logger o) (mtx o)
        (stopCh o) (request o) (response o) (err o) (cancelFunc o) v
        (abortRate o)
  | f_abortRate => fun v =>
      Build_OptimisticExecution (finalizeBlockFunc o) (logger o) (mtx o)
        (stopCh o) (request o) (response o) (err o) (cancelFunc o)
        (initialized o) v
  end v.

Definition set_mtx (m : option tid) (o : OptimisticExecution)
  : OptimisticExecution :=
  Build_OptimisticExecution (finalizeBlockFunc o) (logger o) m (stopCh o)
    (request o) (response o) (err o) (cancelFunc o) (initialized o)
    (abortRate o).

Inductive FieldName : Type :=
| n_finalizeBlockFunc | n_logger | n_stopCh | n_request | n_response
| n_err | n_cancelFunc | n_initialized | n_abortRate.

Definition name {T : Type} (f : Field T) : FieldName :=
  match f with
  | f_finalizeBlockFunc => n_finalizeBlockFunc
  | f_logger => n_logger
  | f_stopCh => n_stopCh
  | f_request => n_request
  | f_response => n_response
  | f_err => n_err
  | f_cancelFunc => n_cancelFunc
  | f_initialized => n_initialized
  | f_abortRate => n_abortRate
  end.

(** ** The world: the struct, the channels, the contexts, the random source *)

Record World : Type := {
  oe : OptimisticExecution;   (* the struct a non-nil receiver points to *)
  chans : list bool;          (* per channel: has it been closed *)
  ctxs : list bool;           (* per context: has it been cancelled *)
  rng : list Z                (* the draws [math/rand] will hand out *)
}.

Definition with_oe (o : OptimisticExecution) (w : World) : World :=
  Build_World o (chans w) (ctxs w) (rng w).
Definition with_chans (cs : list bool) (w : World) : World :=
  Build_World (oe w) cs (ctxs w) (rng w).
Definition with_ctxs (cs : list bool) (w : World) : World :=
  Build_World (oe w) (chans w) cs (rng w).
Definition with_rng (r : list Z) (w : World) : World :=
  Build_World (oe w) (chans w) (ctxs w) r.

Fixpoint set_nth (n : nat) (b : bool) (l : list bool) : list bool :=
  match l, n with
  | [], _ => []
  | _ :: l', O => b :: l'
  | x :: l', S n' => x :: set_nth n' b l'
  end.

Definition flag (l : list bool) (n : nat) : bool :=
  match nth_error l n with
  | Some b => b
  | None => false
  end.

Definition closed (w : World) (c : chan) : bool := flag (chans w) c.
Definition cancelled (w : World) (c : ctx) : bool := flag (ctxs w) c.

Definition holds (t : tid) (w : World) : bool :=
  match mtx (oe w) with
  | Some t' => Nat.eqb t' t
  | None => false
  end.

(** ** Atomic actions *)

Inductive Act : Type -> Type :=
| Lock : Act unit                                   (* oe.mtx.Lock() *)
| Unlock : Act unit                                 (* oe.mtx.Unlock() *)
| Load {T : Type} (f : Field T) : Act T             (* read oe.f *)
| Store {T : Type} (f : Field T) (v : T) : Act unit (* oe.f = v *)
| MakeChan : Act chan                               (* make(chan struct{}) *)
| Close (c : option chan) : Act unit                (* close(c) *)
| Recv (c : option chan) : Act unit                 (* <-c *)
| WithCancel : Act ctx       (* context.WithCancel(context.Background()) *)
| Cancel (c : ctx) : Act unit                       (* cancel() *)
| CallFinalize (fn : FinalizeBlockFunc) (c : ctx)
    (rq : option FinalizeBlockRequest) : Act FinalizeOut
| RandIntn (n : Z) : Act Z                          (* rand.Intn(n) *)
| Log (lg : Logger) (lvl : Level) (msg : string) : Act unit.

Inductive Event : Type :=
| EvLock
| EvUnlock
| EvLoad (f : FieldName)
| EvStore (f : FieldName)
| EvMake (c : chan)
| EvClose (c : chan)
| EvRecv (c : chan)
| EvWithCancel (c : ctx)
| EvCancel (c : ctx)
| EvFinalize (c : ctx) (observed : bool)
| EvRand (r : Z)
| EvLog (lvl : Level) (msg : string)
| EvGo
| EvPanic.

Inductive ActResult (X : Type) : Type :=
| Next (e : Event) (w : World) (x : X)
| Wait      (* the action cannot proceed in this world *)
| Fatal.    (* run-time panic *)
Arguments Wait {X}.
Arguments Fatal {X}.

(** One action of thread [t].  [Lock] waits while the mutex is taken;
    unlocking an unlocked mutex is fatal; a receive waits until the channel
    is closed (nothing is ever sent on [stopCh]) and for ever on a nil
    channel; closing a nil or closed channel panics; the finalize function
    runs with the cancellation state of its context at that moment. *)
Definition exec {X : Type} (t : tid) (a : Act X) (w : World) : ActResult X :=
  match a in Act X return ActResult X with
  | Lock =>
      match mtx (oe w) with
      | None => Next EvLock (with_oe (set_mtx (Some t) (oe w)) w) tt
      | Some _ => Wait
      end
  | Unlock =>
      match mtx (oe w) with
      | Some _ => Next EvUnlock (with_oe (set_mtx None (oe w)) w) tt
      | None => Fatal
      end
  | Load f => Next (EvLoad (name f)) w (get f (oe w))
  | Store f v => Next (EvStore (name f)) (with_oe (set f v (oe w)) w) tt
  | MakeChan =>
      let c := List.length (chans w) in
      Next (EvMake c) (with_chans (chans w ++ [false]) w) c
  | Close None => Fatal
  | Close (Some c) =>
      match nth_error (chans w) c with
      | Some false => Next (EvClose c) (with_chans (set_nth c true (chans w)) w) tt
      | _ => Fatal
      end
  | Recv None => Wait
  | Recv (Some c) =>
      if closed w c then Next (EvRecv c) w tt else Wait
  | WithCancel =>
      let c := List.length (ctxs w) in
      Next (EvWithCancel c) (with_ctxs (ctxs w ++ [false]) w) c
  | Cancel c => Next (EvCancel c) (with_ctxs (set_nth c true (ctxs w)) w) tt
  | CallFinalize fn c rq =>
      Next (EvFinalize c (cancelled w c)) w (fn (cancelled w c) rq)
  | RandIntn n =>
      let r := Z.modulo (hd 0%Z (rng w)) n in
      Next (EvRand r) (with_rng (tl (rng w)) w) r
  | Log _ lvl msg => Next (EvLog lvl msg) w tt
  end.

(** ** Programs *)

Inductive Prog (A : Type) : Type :=
| Ret (a : A)
| Panic
| Do {X : Type} (a : Act X) (k : X -> Prog A)
| Go (body : Prog unit) (k : Prog A).     (* go func() { body }() *)
Arguments Panic {A}.

Fixpoint bind {A B : Type} (p : Prog A) (f : A -> Prog B) : Prog B :=
  match p with
  | Ret a => f a
  | Panic => Panic
  | Do a k => Do a (fun x => bind (k x) f)
  | Go body k => Go body (bind k f)
  end.

Definition act {X : Type} (a : Act X) : Prog X := Do a (fun x => Ret x).

End Model.

Arguments Wait {E X}.
Arguments Fatal {E X}.
Arguments Panic {E A}.

Notation "x <- p ;; q" := (bind p (fun x => q))
  (at level 61, p at next level, right associativity).
Notation "p ;; q" := (bind p (fun _ => q))
  (at level 61, right associativity).

Inductive ptr : Type := nil_oe | ref_oe.

(** ** Threads and their interleaving *)

Section Semantics.
Context {E : Externals}.

Inductive Outcome (A : Type) : Type :=
| Stepped (e : Event) (w : World) (p : Prog A) (spawned : list (Prog unit))
| Blocked
| Finished (a : A)
| Crashed.
Arguments Blocked {A}.
Arguments Crashed {A}.

(** One step of thread [t] running [p]. *)
Definition tstep {A : Type} (t : tid) (w : World) (p : Prog A) : Outcome A :=
  match p with
  | Ret a => Finished a
  | Panic => Crashed
  | Do a k =>
      match exec t a w with
      | Next e w' x => Stepped e w' (k x) []
      | Wait => Blocked
      | Fatal => Crashed
      end
  | Go body k => Stepped EvGo w k [body]
  end.

(** The caller's program, the goroutines started so far, and whether some
    thread has panicked (which stops the whole process). *)
Record Config (A : Type) : Type := {
  world : World;
  fg : Prog A;
  bgs : list (Prog unit);
  crashed : bool
}.

Fixpoint replace_nth {X : Type} (n : nat) (x : X) (l : list X) : list X :=
  match l, n with
  | [], _ => []
  | _ :: l', O => x :: l'
  | y :: l', S n' => y :: replace_nth n' x l'
  end.

(** Thread [t] takes the next step, if it can. *)
Definition cstep {A : Type} (t : tid) (c : Config A)
  : option (Event * Config A) :=
  if crashed c then None else
  match t with
  | O =>
      match tstep O (world c) (fg c) with
      | Stepped e w' p' sp => Some (e, Build_Config w' p' (bgs c ++ sp) false)
      | Crashed => Some (EvPanic, Build_Config (world c) (fg c) (bgs c) true)
      | _ => None
      end
  | S i =>
      match nth_error (bgs c) i with
      | None => None
      | Some p =>
          match tstep (S i) (world c) p with
          | Stepped e w' p' sp =>
              Some (e, Build_Config w' (fg c) (replace_nth i p' (bgs c) ++ sp) false)
          | Crashed => Some (EvPanic, Build_Config (world c) (fg c) (bgs c) true)
          | _ => None
          end
      end
  end.

(** [steps c tr c']: the system goes from [c] to [c'] under some schedule;
    [tr] lists who did what, in order. *)
Inductive steps {A : Type} : Config A -> list (tid * Event) -> Config A -> Prop :=
| steps_refl (c : Config A) : steps c [] c
| steps_cons (c c1 c2 : Config A) (t : tid) (e : Event) (tr : list (tid * Event)) :
    cstep t c = Some (e, c1) -> steps c1 tr c2 -> steps c ((t, e) :: tr) c2.

(** Running a given schedule; a turn given to a thread that cannot move is
    lost. *)
Fixpoint run_schedule {A : Type} (sched : list tid) (c : Config A) : Config A :=
  match sched with
  | [] => c
  | t :: sched' =>
      match cstep t c with
      | Some (_, c') => run_schedule sched' c'
      | None => run_schedule sched' c
      end
  end.

(** A thread running on its own until it returns, waits or panics.  Each
    event is paired with whether the thread held the mutex when it happened;
    goroutines it starts are collected, not run. *)
Inductive Solo (A : Type) : Type :=
| Returns (a : A) (w : World) (sp : list (Prog unit))
| Waits (w : World) (p : Prog A) (sp : list (Prog unit))
| Panics (w : World).
Arguments Panics {A}.

Fixpoint run {A : Type} (t : tid) (p : Prog A) (w : World)
  : list (Event * bool) * Solo A :=
  match p with
  | Ret a => ([], Returns a w [])
  | Panic => ([], Panics w)
  | Do a k =>
      match exec t a w with
      | Next e w' x =>
          let (tr, r) := run t (k x) w' in ((e, holds t w) :: tr, r)
      | Wait => ([], Waits w p [])
      | Fatal => ([], Panics w)
      end
  | Go body k =>
      let (tr, r) := run t k w in
      ((EvGo, holds t w) :: tr,
       match r with
       | Returns a w' sp => Returns a w' (body :: sp)
       | Waits w' p' sp => Waits w' p' (body :: sp)
       | Panics w' => Panics w'
       end)
  end.

End Semantics.

Arguments Blocked {E A}.
Arguments Crashed {E A}.
Arguments Panics {E A}.

(** ** The methods of [OptimisticExecution] *)

Section Methods.
Context {E : Externals}.

(** [NewOptimisticExecution] (lines 48-55); an option is a function that
    updates the struct. *)
Definition NewOptimisticExecution (logger0 : Logger)
    (fn : option FinalizeBlockFunc)
    (opts : list (OptimisticExecution -> OptimisticExecution))
  : OptimisticExecution :=
  let logger1 := logger_With logger0 ModuleKey "oe" in
  let oe0 :=
    {| finalizeBlockFunc := fn; logger := logger1; mtx := None;
       stopCh := None; request := None; response := None; err := None;
       cancelFunc := None; initialized := false; abortRate := 0%Z |} in
  fold_left (fun o opt => opt o) opts oe0.

(** [WithAbortRate] (lines 60-64). *)
Definition WithAbortRate (rate : Z) : OptimisticExecution -> OptimisticExecution :=
  fun o => set f_abortRate rate o.

(** [Reset] (lines 68-75).  The deferred unlock runs last. *)
Definition Reset (self : ptr) : Prog unit :=
  match self with
  | nil_oe => Panic
  | ref_oe =>
      act Lock ;;
      act (Store f_request None) ;;
      act (Store f_response None) ;;
      act (Store f_err None) ;;
      act (Store f_initialized false) ;;
      act Unlock
  end.

(** [Initialized] (lines 79-87). *)
Definition Initialized (self : ptr) : Prog bool :=
  match self with
  | nil_oe => Ret false
  | ref_oe =>
      act Lock ;;
      b <- act (Load f_initialized) ;;
      act Unlock ;;
      Ret b
  end.

(** Dereferencing [oe.request]; [unlocking] says whether a deferred unlock is
    pending, which a panic runs before it propagates. *)
Definition deref_request (unlocking : bool) : Prog FinalizeBlockRequest :=
  rq <- act (Load f_request) ;;
  match rq with
  | Some r => Ret r
  | None => if unlocking then act Unlock ;; Panic else Panic
  end.

(** Calling [oe.cancelFunc()]. *)
Definition call_cancelFunc (unlocking : bool) : Prog unit :=
  cf <- act (Load f_cancelFunc) ;;
  match cf with
  | Some c => act (Cancel c)
  | None => if unlocking then act Unlock ;; Panic else Panic
  end.

(** Calling [oe.logger.Debug] or [oe.logger.Error] with a message. *)
Definition logger_log (lvl : Level) (msg : string) : Prog unit :=
  lg <- act (Load f_logger) ;;
  act (Log lg lvl msg).

(** The goroutine of [Execute] (lines 111-127).  The wall-clock readings
    (lines 112 and 117) only feed the log line and are left out. *)
Definition goroutine (c : ctx) : Prog unit :=
  fn <- act (Load f_finalizeBlockFunc) ;;
  rq <- act (Load f_request) ;;
  match fn with
  | None => Panic
  | Some f =>
      out <- act (CallFinalize f c rq) ;;
      act Lock ;;
      lg <- act (Load f_logger) ;;
      _ <- deref_request false ;;          (* oe.request.Height *)
      _ <- deref_request false ;;          (* oe.request.Hash *)
      act (Log lg Debug "OE finished") ;;
      act (Store f_response
             (Some {| Resp := out_resp out;
                      StateChanges := out_stateChanges out;
                      DecodedTxs := out_decodedTxs out |})) ;;
      act (Store f_err (out_err out)) ;;
      ch <- act (Load f_stopCh) ;;
      act (Close ch) ;;
      act Unlock
  end.

(** [Execute] (lines 90-128). *)
Definition Execute (self : ptr) (req : option ProcessProposalRequest)
  : Prog unit :=
  match self with
  | nil_oe => Panic
  | ref_oe =>
      act Lock ;;
      ch <- act MakeChan ;;
      act (Store f_stopCh (Some ch)) ;;
      match req with
      | None => act Unlock ;; Panic
      | Some r =>
          act (Store f_request
                 (Some {| fb_Txs := pp_Txs r;
                          fb_DecidedLastCommit := pp_ProposedLastCommit r;
                          fb_Misbehavior := pp_Misbehavior r;
                          fb_Hash := pp_Hash r;
                          fb_Height := pp_Height r;
                          fb_Time := pp_Time r;
                          fb_NextValidatorsHash := pp_NextValidatorsHash r;
                          fb_ProposerAddress := pp_ProposerAddress r |})) ;;
          logger_log Debug "OE started" ;;
          c <- act WithCancel ;;
          act (Store f_cancelFunc (Some c)) ;;
          act (Store f_initialized true) ;;
          Go (goroutine c) (act Unlock)
      end
  end.

(** [AbortIfNeeded] (lines 132-153). *)
Definition AbortIfNeeded (self : ptr) (reqHash : slice byte) : Prog bool :=
  match self with
  | nil_oe => Ret false
  | ref_oe =>
      act Lock ;;
      r <- deref_request true ;;
      if negb (bytes_Equal (fb_Hash r) reqHash) then
        lg <- act (Load f_logger) ;;
        _ <- deref_request true ;;         (* oe.request.Hash *)
        _ <- deref_request true ;;         (* oe.request.Height *)
        _ <- deref_request true ;;         (* oe.request.Height *)
        act (Log lg Error "OE aborted due to hash mismatch") ;;
        call_cancelFunc true ;;
        act Unlock ;;
        Ret true
      else
        rate <- act (Load f_abortRate) ;;
        if (0 <? rate)%Z then
          n <- act (RandIntn 100) ;;
          rate' <- act (Load f_abortRate) ;;
          if (n <? rate')%Z then
            call_cancelFunc true ;;
            logger_log Error "OE aborted due to test abort rate" ;;
            act Unlock ;;
            Ret true
          else
            act Unlock ;;
            Ret false
        else
          act Unlock ;;
          Ret false
  end.

(** [Abort] (lines 156-163). *)
Definition Abort (self : ptr) : Prog unit :=
  match self with
  | nil_oe => Ret tt
  | ref_oe =>
      cf <- act (Load f_cancelFunc) ;;
      match cf with
      | None => Ret tt
      | Some _ =>
          call_cancelFunc false ;;
          ch <- act (Load f_stopCh) ;;
          act (Recv ch)
      end
  end.

(** What [WaitResult] returns: the response pointer and the error. *)
Definition Result : Type :=
  (option FinalizeBlockResponse * option error_value)%type.

(** [WaitResult] (lines 166-169). *)
Definition WaitResult (self : ptr) : Prog Result :=
  match self with
  | nil_oe => Panic
  | ref_oe =>
      ch <- act (Load f_stopCh) ;;
      act (Recv ch) ;;
      r <- act (Load f_response) ;;
      e <- act (Load f_err) ;;
      Ret (r, e)
  end.

End Methods.

(** ** One run: the goroutine against a caller that only observes *)

Section ListFacts.

Lemma nth_error_snoc (l : list bool) (b : bool) :
  nth_error (l ++ [b]) (List.length l) = Some b.
Proof.
  rewrite nth_error_app2 by apply Nat.le_refl.
  rewrite Nat.sub_diag. reflexivity.
Qed.

Lemma nth_error_set_nth_same (l : list bool) (n : nat) (b b' : bool) :
  nth_error l n = Some b -> nth_error (set_nth n b' l) n = Some b'.
Proof.
  revert n; induction l as [|x l IH]; intros [|n] H; simpl in *;
    try discriminate; [reflexivity | now apply IH].
Qed.

Lemma nth_error_set_nth_other (l : list bool) (n m : nat) (b' : bool) :
  n <> m -> nth_error (set_nth n b' l) m = nth_error l m.
Proof.
  revert n m; induction l as [|x l IH]; intros [|n] [|m] H; simpl;
    try reflexivity; [congruence | apply IH; congruence].
Qed.

Lemma nth_error_set_nth_true (l : list bool) (n m : nat) :
  nth_error l m = Some true -> nth_error (set_nth n true l) m = Some true.
Proof.
  intros H. destruct (Nat.eq_dec n m) as [->|Hne].
  - eapply nth_error_set_nth_same; eassumption.
  - rewrite nth_error_set_nth_other; assumption.
Qed.

Lemma flag_snoc (l : list bool) (b : bool) : flag (l ++ [b]) (List.length l) = b.
Proof. unfold flag. now rewrite nth_error_snoc. Qed.

Lemma set_nth_idem (l : list bool) (n : nat) (b : bool) :
  set_nth n b (set_nth n b l) = set_nth n b l.
Proof.
  revert n; induction l as [|x l IH]; intros [|n]; simpl;
    try reflexivity. now rewrite IH.
Qed.

End ListFacts.

Section Schedules.
Context {E : Externals}.

Lemma steps_trans (A : Type) (c1 c2 c3 : Config A) (tr1 tr2 : list (tid * Event)) :
  steps c1 tr1 c2 -> steps c2 tr2 c3 -> steps c1 (tr1 ++ tr2) c3.
Proof.
  induction 1 as [|c c1 c2 t e tr Hstep _ IH]; intros H23; simpl.
  - assumption.
  - econstructor; [eassumption | apply IH; assumption].
Qed.

Lemma steps_run_schedule (A : Type) (sched : list tid) (c : Config A) :
  exists tr, steps c tr (run_schedule sched c).
Proof.
  revert c. induction sched as [|t sched IH]; intros c; simpl.
  - exists []. constructor.
  - destruct (cstep t c) as [[e c']|] eqn:Hs.
    + destruct (IH c') as [tr Htr]. exists ((t, e) :: tr).
      econstructor; eassumption.
    + apply IH.
Qed.

End Schedules.

(** Case analysis on a number with a known bound. *)
Ltac split_nat j :=
  destruct j as [|j]; [ | first [ exfalso; lia | split_nat j ] ].

Section OneRun.
Context {E : Externals}.

(** What stays fixed during a run: the function, the request snapshot, the
    context, the stop channel, the logger and the abort rate. *)
Variables (f : FinalizeBlockFunc) (rq : FinalizeBlockRequest).
Variables (c : ctx) (ch : chan) (lg : Logger) (ar : Z).

Definition response_of (out : FinalizeOut) : FinalizeBlockResponse :=
  {| Resp := out_resp out;
     StateChanges := out_stateChanges out;
     DecodedTxs := out_decodedTxs out |}.

Definition fixed_fields : OptimisticExecution :=
  {| finalizeBlockFunc := Some f; logger := lg; mtx := None;
     stopCh := Some ch; request := Some rq; response := None; err := None;
     cancelFunc := Some c; initialized := true; abortRate := ar |}.

(** The value each action of the goroutine returns during the run. *)
Definition answer (out : FinalizeOut) {X : Type} (a : Act X) : X :=
  match a in Act X return X with
  | Lock => tt
  | Unlock => tt
  | Load fld => get fld fixed_fields
  | Store _ _ => tt
  | MakeChan => ch
  | Close _ => tt
  | Recv _ => tt
  | WithCancel => c
  | Cancel _ => tt
  | CallFinalize _ _ _ => out
  | RandIntn _ => 0%Z
  | Log _ _ _ => tt
  end.

Definition next_pos {A : Type} (out : FinalizeOut) (p : Prog A) : Prog A :=
  match p with
  | Do a k => k (answer out a)
  | Go _ k => k
  | _ => p
  end.

(** The goroutine after [n] of its steps. *)
Fixpoint advance {A : Type} (n : nat) (out : FinalizeOut) (p : Prog A) : Prog A :=
  match n with
  | O => p
  | S n' => advance n' out (next_pos out p)
  end.

(** The goroutine holds the mutex between its [Lock] (step 3) and its
    [Unlock] (step 12); it closes the stop channel at step 11. *)
Definition in_lock (j : nat) : bool := (4 <=? j) && (j <=? 12).
Definition closed_at (j : nat) : bool := 12 <=? j.

(** Who holds the mutex: the caller when [held], else the goroutine while
    it is in its locked section. *)
Definition mtx_of (held : bool) (j : nat) : option tid :=
  if held then Some 0
  else if in_lock j then Some 1
  else None.

Local Arguments in_lock : simpl never.
Local Arguments closed_at : simpl never.
Local Arguments mtx_of : simpl never.

(** The world when the goroutine has taken [j] steps and finalize returned
    [out]. *)
Record run_inv (held : bool) (j : nat) (out : FinalizeOut) (w : World) : Prop := {
  ri_fn : finalizeBlockFunc (oe w) = Some f;
  ri_logger : logger (oe w) = lg;
  ri_stopCh : stopCh (oe w) = Some ch;
  ri_request : request (oe w) = Some rq;
  ri_cancelFunc : cancelFunc (oe w) = Some c;
  ri_initialized : initialized (oe w) = true;
  ri_abortRate : abortRate (oe w) = ar;
  ri_mtx : mtx (oe w) = mtx_of held j;
  ri_held : held = true -> in_lock j = false;
  ri_chan : nth_error (chans w) ch = Some (closed_at j);
  ri_ctx : nth_error (ctxs w) c <> None;
  ri_response : 9 <= j -> response (oe w) = Some (response_of out);
  ri_err : 10 <= j -> err (oe w) = out_err out
}.

Variable A : Type.

(** What the caller is promised when it returns: [kc] says it has seen the
    stop channel closed, [cn] that it has called the cancel function. *)
Variable Q : FinalizeOut -> bool -> bool -> A -> Prop.

Definition load_ok (out : FinalizeOut) (kc : bool) {T : Type} (fld : Field T)
  : T -> Prop :=
  match fld in Field T return T -> Prop with
  | f_finalizeBlockFunc => fun v => v = Some f
  | f_logger => fun v => v = lg
  | f_stopCh => fun v => v = Some ch
  | f_request => fun v => v = Some rq
  | f_response => fun v => kc = true -> v = Some (response_of out)
  | f_err => fun v => kc = true -> v = out_err out
  | f_cancelFunc => fun v => v = Some c
  | f_initialized => fun v => v = true
  | f_abortRate => fun v => v = ar
  end.

(** The condition an action of the caller must meet, and what holds for the
    rest of its program; the caller writes no field, makes, closes and
    starts nothing, takes the mutex only when it does not hold it and
    receives from the stop channel of the run, without holding the mutex. *)
Definition act_ok {X : Type} (a : Act X) (out : FinalizeOut)
    (held kc cn : bool) (K : X -> bool -> bool -> bool -> Prop) : Prop :=
  match a in Act X return (X -> bool -> bool -> bool -> Prop) -> Prop with
  | Lock => fun K => held = false /\ K tt true kc cn
  | Unlock => fun K => held = true /\ K tt false kc cn
  | Load fld => fun K => forall v, load_ok out kc fld v -> K v held kc cn
  | Store _ _ => fun _ => False
  | MakeChan => fun _ => False
  | Close _ => fun _ => False
  | Recv None => fun _ => False
  | Recv (Some ch') => fun K => held = false /\ ch' = ch /\ K tt false true cn
  | WithCancel => fun _ => False
  | Cancel c' => fun K => K tt held kc (cn || Nat.eqb c' c)
  | CallFinalize _ _ _ => fun _ => False
  | RandIntn n => fun K => forall r, K r held kc cn
  | Log _ _ _ => fun K => K tt held kc cn
  end K.

Fixpoint fg_ok (out : FinalizeOut) (held kc cn : bool) (p : Prog A) : Prop :=
  match p with
  | Ret v => Q out kc cn v
  | Panic => False
  | Do a k =>
      act_ok a out held kc cn
        (fun x held' kc' cn' => fg_ok out held' kc' cn' (k x))
  | Go _ _ => False
  end.

(** The invariant of a run, when the goroutine has taken [j] steps and
    finalize has observed [obs] (once it has been called, from step 3 on). *)
Definition inv_at (j : nat) (obs held kc cn : bool) (c0 : Config A) : Prop :=
  crashed c0 = false /\
  j <= 13 /\
  bgs c0 = [advance j (f obs (Some rq)) (goroutine c)] /\
  run_inv held j (f obs (Some rq)) (world c0) /\
  (kc = true -> 12 <= j) /\
  (cn = true -> nth_error (ctxs (world c0)) c = Some true) /\
  (forall obs', (3 <= j -> obs' = obs) ->
     fg_ok (f obs' (Some rq)) held kc cn (fg c0)).

Definition inv (c0 : Config A) : Prop :=
  exists (j : nat) (obs held kc cn : bool), inv_at j obs held kc cn c0.

Lemma nth_error_set_nth_some (l : list bool) (n m : nat) (b : bool) :
  nth_error l m <> None -> nth_error (set_nth n b l) m <> None.
Proof.
  intros H. destruct (Nat.eq_dec n m) as [->|Hne].
  - destruct (nth_error l m) as [x|] eqn:Hx; [|congruence].
    rewrite (nth_error_set_nth_same _ _ b Hx). discriminate.
  - rewrite nth_error_set_nth_other; assumption.
Qed.

Lemma run_inv_lock (j : nat) (out : FinalizeOut) (held : bool) (w : World) :
  run_inv held j out w -> mtx (oe w) = None ->
  run_inv true j out (with_oe (set_mtx (Some 0) (oe w)) w).
Proof.
  intros [] Hm. rewrite Hm in *.
  constructor; cbn; try assumption; try reflexivity.
  intros _. unfold mtx_of in *. destruct held; [discriminate|].
  destruct (in_lock j); [discriminate | reflexivity].
Qed.

Lemma run_inv_unlock (j : nat) (out : FinalizeOut) (w : World) :
  run_inv true j out w ->
  run_inv false j out (with_oe (set_mtx None (oe w)) w).
Proof.
  intros []. constructor; cbn; try assumption; try discriminate.
  unfold mtx_of. now rewrite ri_held0.
Qed.

Lemma run_inv_ctxs (j : nat) (out : FinalizeOut) (held : bool) (w : World)
    (xs : list bool) :
  run_inv held j out w -> nth_error xs c <> None ->
  run_inv held j out (with_ctxs xs w).
Proof. intros [] H. constructor; cbn; assumption. Qed.

Lemma run_inv_rng (j : nat) (out : FinalizeOut) (held : bool) (w : World)
    (r : list Z) :
  run_inv held j out w -> run_inv held j out (with_rng r w).
Proof. intros []. constructor; cbn; assumption. Qed.

Lemma load_ok_now (j : nat) (out out' : FinalizeOut) (held kc : bool)
    (w : World) (T : Type) (fld : Field T) :
  run_inv held j out w -> (kc = true -> 12 <= j /\ out' = out) ->
  load_ok out' kc fld (get fld (oe w)).
Proof.
  intros [] Hkc. destruct fld; cbn; try assumption.
  - intros H. destruct (Hkc H) as [H12 ->]. apply ri_response0. lia.
  - intros H. destruct (Hkc H) as [H12 ->]. apply ri_err0. lia.
Qed.

Lemma inv_at_intro (w : World) (p : Prog A) (j : nat) (obs held kc cn : bool) :
  j <= 13 ->
  run_inv held j (f obs (Some rq)) w ->
  (kc = true -> 12 <= j) ->
  (cn = true -> nth_error (ctxs w) c = Some true) ->
  (forall obs', (3 <= j -> obs' = obs) ->
     fg_ok (f obs' (Some rq)) held kc cn p) ->
  inv_at j obs held kc cn
    (Build_Config w p [advance j (f obs (Some rq)) (goroutine c)] false).
Proof. intros. unfold inv_at. cbn [bgs world fg crashed]. tauto. Qed.

Lemma inv_step_caller (w : World) (p : Prog A) (bs : list (Prog unit))
    (e : Event) (c1 : Config A) :
  inv (Build_Config w p bs false) ->
  cstep 0 (Build_Config w p bs false) = Some (e, c1) ->
  inv c1.
Proof.
  intros (j & obs & held & kc & cn & _ & Hj & Hbg & Hri & Hkc & Hcn & Hfg) Hstep.
  cbn [bgs world fg crashed] in *. subst bs.
  unfold cstep in Hstep; cbn [crashed world fg bgs] in Hstep.
  destruct p as [v| |X a k|body k]; cbn [tstep] in Hstep; try discriminate.
  - destruct (Hfg obs (fun _ => eq_refl)).
  - destruct a; cbn [exec] in Hstep; cbn [fg_ok act_ok] in Hfg.
    + (* Lock *)
      destruct (mtx (oe w)) eqn:Hm; [discriminate|].
      injection Hstep as <- <-. cbn [app].
      exists j, obs, true, kc, cn.
      apply inv_at_intro; try assumption.
      * eapply run_inv_lock; eassumption.
      * intros obs' Ho. apply (Hfg obs' Ho).
    + (* Unlock *)
      destruct (Hfg obs (fun _ => eq_refl)) as [-> _].
      destruct (mtx (oe w)) eqn:Hm; [|rewrite (ri_mtx Hri) in Hm; discriminate].
      injection Hstep as <- <-. cbn [app].
      exists j, obs, false, kc, cn.
      apply inv_at_intro; try assumption.
      * apply run_inv_unlock; assumption.
      * intros obs' Ho. apply (Hfg obs' Ho).
    + (* Load *)
      injection Hstep as <- <-. cbn [app].
      exists j, obs, held, kc, cn.
      apply inv_at_intro; try assumption.
      intros obs' Ho. apply (Hfg obs' Ho).
      eapply load_ok_now; [eassumption|].
      intros Hk. specialize (Hkc Hk). split; [assumption|].
      rewrite Ho by lia. reflexivity.
    + (* Store *) destruct (Hfg obs (fun _ => eq_refl)).
    + (* MakeChan *) destruct (Hfg obs (fun _ => eq_refl)).
    + (* Close *)
      exfalso. specialize (Hfg obs (fun _ => eq_refl)). destruct c0; exact Hfg.
    + (* Recv *)
      destruct c0 as [ch'|]; [|discriminate].
      destruct (Hfg obs (fun _ => eq_refl)) as (-> & -> & _).
      destruct (closed w ch) eqn:Hcl; [|discriminate].
      injection Hstep as <- <-. cbn [app].
      unfold closed, flag in Hcl. rewrite (ri_chan Hri) in Hcl.
      unfold closed_at in Hcl. apply Nat.leb_le in Hcl.
      exists j, obs, false, true, cn.
      apply inv_at_intro; try assumption.
      * intros _. assumption.
      * intros obs' Ho. apply (Hfg obs' Ho).
    + (* WithCancel *) destruct (Hfg obs (fun _ => eq_refl)).
    + (* Cancel *)
      injection Hstep as <- <-. cbn [app].
      exists j, obs, held, kc, (cn || Nat.eqb c0 c).
      apply inv_at_intro; try assumption.
      * apply run_inv_ctxs; [assumption|].
        apply nth_error_set_nth_some. exact (ri_ctx Hri).
      * cbn [ctxs with_ctxs]. intros Hc. apply orb_true_iff in Hc.
        destruct Hc as [Hc|Hc].
        -- apply nth_error_set_nth_true. auto.
        -- apply Nat.eqb_eq in Hc. subst c0.
           destruct (nth_error (ctxs w) c) as [b|] eqn:Hb;
             [|destruct (ri_ctx Hri Hb)].
           eapply nth_error_set_nth_same; eassumption.
    + (* CallFinalize *) destruct (Hfg obs (fun _ => eq_refl)).
    + (* RandIntn *)
      injection Hstep as <- <-. cbn [app].
      exists j, obs, held, kc, cn.
      apply inv_at_intro; try assumption.
      * apply run_inv_rng; assumption.
      * intros obs' Ho. apply (Hfg obs' Ho).
    + (* Log *)
      injection Hstep as <- <-. cbn [app].
      exists j, obs, held, kc, cn.
      apply inv_at_intro; assumption.
  - destruct (Hfg obs (fun _ => eq_refl)).
Qed.

Lemma goroutine_step_at (w : World) (p : Prog A) (bs : list (Prog unit))
    (i : nat) (e : Event) (c1 : Config A) (j : nat) (obs held kc cn : bool) :
  inv_at j obs held kc cn (Build_Config w p bs false) ->
  cstep (S i) (Build_Config w p bs false) = Some (e, c1) ->
  exists obs', inv_at (S j) obs' held kc cn c1 /\ fg c1 = p.
Proof.
  intros (_ & Hj & Hbg & Hri & Hkc & Hcn & Hfg) Hstep.
  cbn [bgs world fg crashed] in *. subst bs.
  unfold cstep in Hstep; cbn [crashed world fg bgs] in Hstep.
  destruct i as [|i]; [|destruct i; discriminate].
  cbn [nth_error] in Hstep.
  destruct Hri.
  destruct w as [o cs xs rg]. destruct o. cbn [oe chans ctxs rng finalizeBlockFunc logger mtx stopCh request response err cancelFunc initialized abortRate] in *. subst.
  unfold mtx_of, in_lock, closed_at in *.
  split_nat j; cbn in Hstep, ri_chan0, ri_held0;
    try rewrite ri_chan0 in Hstep;
    (destruct held; cbn in Hstep;
     try discriminate; try (specialize (ri_held0 eq_refl); discriminate));
    injection Hstep as <- <-;
    (match goal with
    | Hj : 2 <= 13 |- _ => exists (flag xs c)
    | _ => exists obs
    end;
    split; [|reflexivity];
    apply inv_at_intro;
    [ lia
    | constructor; unfold mtx_of, in_lock, closed_at; cbn;
      try reflexivity; try assumption; try discriminate;
      try (intros; lia);
      try (intros _; first [apply ri_response0 | apply ri_err0]; lia);
      try (eapply nth_error_set_nth_same; eassumption)
    | intros Hk; specialize (Hkc Hk); lia
    | assumption
    | intros o Ho; apply Hfg; intros; first [lia | apply Ho; lia] ]).
Qed.

Lemma inv_step_goroutine (w : World) (p : Prog A) (bs : list (Prog unit))
    (i : nat) (e : Event) (c1 : Config A) :
  inv (Build_Config w p bs false) ->
  cstep (S i) (Build_Config w p bs false) = Some (e, c1) ->
  inv c1.
Proof.
  intros (j & obs & held & kc & cn & Hat) Hstep.
  destruct (goroutine_step_at _ Hat Hstep) as (obs' & Hat' & _).
  exists (S j), obs', held, kc, cn. exact Hat'.
Qed.

Lemma inv_step (c0 c1 : Config A) (t : tid) (e : Event) :
  inv c0 -> cstep t c0 = Some (e, c1) -> inv c1.
Proof.
  destruct c0 as [w p bs cr]. intros Hinv Hstep.
  assert (cr = false) as ->
    by (destruct Hinv as (j & obs & held & kc & cn & H & _); exact H).
  destruct t as [|i].
  - eapply inv_step_caller; eassumption.
  - eapply inv_step_goroutine; eassumption.
Qed.

Lemma inv_steps (c0 c1 : Config A) (tr : list (tid * Event)) :
  steps c0 tr c1 -> inv c0 -> inv c1.
Proof.
  induction 1 as [|c0 c1 c2 t e tr Hstep _ IH]; intros Hinv; [assumption|].
  apply IH. eapply inv_step; eassumption.
Qed.

(** What is known when the caller has returned [v]. *)
Lemma inv_returned (c1 : Config A) (v : A) :
  inv c1 -> fg c1 = Ret v ->
  exists (j : nat) (obs held kc cn : bool),
    Q (f obs (Some rq)) kc cn v /\
    j <= 13 /\
    (kc = true -> 12 <= j) /\
    (cn = true -> nth_error (ctxs (world c1)) c = Some true) /\
    bgs c1 = [advance j (f obs (Some rq)) (goroutine c)] /\
    run_inv held j (f obs (Some rq)) (world c1) /\
    crashed c1 = false.
Proof.
  intros (j & obs & held & kc & cn & Hcr & Hj & Hbg & Hri & Hkc & Hcn & Hfg) Hv.
  exists j, obs, held, kc, cn. rewrite Hv in Hfg.
  specialize (Hfg obs (fun _ => eq_refl)). cbn in Hfg. tauto.
Qed.

(** *** Every state of a run can still complete *)

Lemma goroutine_enabled (c0 : Config A) (j : nat) (obs kc cn : bool) :
  inv_at j obs false kc cn c0 -> j < 13 ->
  exists e c1, cstep 1 c0 = Some (e, c1).
Proof.
  destruct c0 as [w p bs cr].
  intros (Hcr & Hj & Hbg & Hri & _) Hlt.
  cbn [bgs world fg crashed] in *. subst bs cr.
  unfold cstep. cbn [crashed world fg bgs nth_error].
  destruct Hri.
  destruct w as [o cs xs rg]. destruct o. cbn [oe chans ctxs rng finalizeBlockFunc logger mtx stopCh request response err cancelFunc initialized abortRate] in *. subst.
  unfold mtx_of, in_lock, closed_at in *.
  split_nat j; cbn in ri_chan0 |- *; try rewrite ri_chan0;
    try (eexists; eexists; reflexivity); lia.
Qed.

Lemma goroutine_finishes (n : nat) :
  forall (j : nat) (obs kc cn : bool) (c0 : Config A),
    j + n = 13 ->
    inv_at j obs false kc cn c0 ->
    exists tr c1 obs',
      steps c0 tr c1 /\ inv_at 13 obs' false kc cn c1 /\ fg c1 = fg c0.
Proof.
  induction n as [|n IH]; intros j obs kc cn c0 Hn Hat.
  - rewrite Nat.add_0_r in Hn. subst j.
    exists [], c0, obs. split; [constructor | split; [assumption | reflexivity]].
  - destruct (goroutine_enabled Hat) as (e & c1 & Hstep); [lia|].
    destruct c0 as [w p bs cr].
    assert (cr = false) as -> by (destruct Hat as [H _]; exact H).
    destruct (goroutine_step_at _ Hat Hstep) as (obs' & Hat' & Hfg).
    destruct (IH (S j) obs' kc cn c1) as (tr & c2 & obs2 & Hs & Hat2 & Hfg2);
      [lia | assumption |].
    exists ((1, e) :: tr), c2, obs2. split; [|split].
    + econstructor; eassumption.
    + assumption.
    + rewrite Hfg2. exact Hfg.
Qed.

Lemma caller_enabled (c0 : Config A) (j : nat) (obs held kc cn : bool)
    (X : Type) (a : Act X) (k : X -> Prog A) :
  inv_at j obs held kc cn c0 ->
  fg c0 = Do a k ->
  (held = false -> j = 13) ->
  exists e c1 x, cstep 0 c0 = Some (e, c1) /\ fg c1 = k x.
Proof.
  destruct c0 as [w p bs cr].
  intros (Hcr & Hj & Hbg & Hri & Hkc & Hcn & Hfg) Hp H13.
  cbn [bgs world fg crashed] in *. subst p cr.
  specialize (Hfg obs (fun _ => eq_refl)). cbn [fg_ok act_ok] in Hfg.
  unfold cstep. cbn [crashed world fg bgs tstep].
  destruct a; cbn [exec]; try contradiction.
  - destruct Hfg as [-> _]. rewrite (ri_mtx Hri), (H13 eq_refl).
    eexists _, _, tt. split; reflexivity.
  - destruct Hfg as [-> _]. rewrite (ri_mtx Hri).
    eexists _, _, tt. split; reflexivity.
  - eexists _, _, _. split; reflexivity.
  - destruct c0 as [ch'|]; [|contradiction].
    destruct Hfg as (-> & -> & _).
    unfold closed, flag. rewrite (ri_chan Hri), (H13 eq_refl).
    eexists _, _, tt. split; reflexivity.
  - eexists _, _, tt. split; reflexivity.
  - eexists _, _, _. split; reflexivity.
  - eexists _, _, tt. split; reflexivity.
Qed.

(** From any state of the run the caller can still be brought to return:
    let the goroutine finish if the caller does not hold the mutex, then let
    the caller take its next step, and so on. *)
Lemma inv_live :
  forall (p : Prog A) (c0 : Config A),
    fg c0 = p -> inv c0 ->
    exists tr c1 v, steps c0 tr c1 /\ fg c1 = Ret v.
Proof.
  fix IH 1. intros p c0 Hp (j & obs & held & kc & cn & Hat).
  destruct p as [v| |X a k|body k].
  - exists [], c0, v. split; [constructor | assumption].
  - exfalso. destruct Hat as (_ & _ & _ & _ & _ & _ & Hfg).
    rewrite Hp in Hfg. exact (Hfg obs (fun _ => eq_refl)).
  - assert (Hready : exists tr c' j' obs',
               steps c0 tr c' /\ inv_at j' obs' held kc cn c' /\
               fg c' = Do a k /\ (held = false -> j' = 13)).
    { destruct held.
      - exists [], c0, j, obs.
        split; [constructor | split; [assumption | split; [assumption|]]].
        discriminate.
      - assert (Hj : j <= 13) by (destruct Hat as (_ & H & _); exact H).
        destruct (@goroutine_finishes (13 - j) j obs kc cn c0)
          as (tr & c' & obs' & Hs & Hat' & Hfg'); [lia | assumption |].
        exists tr, c', 13, obs'.
        split; [assumption | split; [assumption | split; [congruence|]]].
        reflexivity. }
    destruct Hready as (tr & c' & j' & obs' & Hs & Hat' & Hfg' & H13).
    destruct (caller_enabled Hat' Hfg' H13) as (e & c1 & x & Hstep & Hfg1).
    assert (Hinv1 : inv c1).
    { eapply inv_step; [|exact Hstep]. exists j', obs', held, kc, cn. exact Hat'. }
    destruct (IH (k x) c1 Hfg1 Hinv1) as (tr2 & c2 & v & Hs2 & Hv).
    exists (tr ++ (0, e) :: tr2), c2, v. split; [|assumption].
    eapply steps_trans; [exact Hs|]. econstructor; eassumption.
  - exfalso. destruct Hat as (_ & _ & _ & _ & _ & _ & Hfg).
    rewrite Hp in Hfg. exact (Hfg obs (fun _ => eq_refl)).
Qed.

End OneRun.

(** ** From [Execute] to the running goroutine *)

Section Started.
Context {E : Externals}.

(** The request [Execute] stores (lines 95-104). *)
Definition snapshot (r : ProcessProposalRequest) : FinalizeBlockRequest :=
  {| fb_Txs := pp_Txs r;
     fb_DecidedLastCommit := pp_ProposedLastCommit r;
     fb_Misbehavior := pp_Misbehavior r;
     fb_Hash := pp_Hash r;
     fb_Height := pp_Height r;
     fb_Time := pp_Time r;
     fb_NextValidatorsHash := pp_NextValidatorsHash r;
     fb_ProposerAddress := pp_ProposerAddress r |}.

(** No lock taken and the finalize function present. *)
Definition idle (w : World) (f : FinalizeBlockFunc) : Prop :=
  mtx (oe w) = None /\ finalizeBlockFunc (oe w) = Some f.

Variable A : Type.
Variables (w0 : World) (f : FinalizeBlockFunc) (req : ProcessProposalRequest).
Variable rest : Prog A.
Hypothesis Hidle : idle w0 f.

(** The caller runs [Execute] and then [rest]; no goroutine exists yet. *)
Definition started : Config A :=
  Build_Config w0 (Execute ref_oe (Some req) ;; rest) [] false.

(** The caller's first [n] steps. *)
Definition pre (n : nat) : Config A := run_schedule (repeat 0 n) started.

Lemma pre_succ (n : nat) (t : tid) (e : Event) (c1 : Config A) :
  n < 10 -> cstep t (pre n) = Some (e, c1) -> c1 = pre (S n).
Proof.
  intros Hn Hstep. destruct Hidle as [Hm Hf].
  unfold pre, started in *.
  destruct w0 as [o cs xs rg]. destruct o. cbn in Hm, Hf. subst.
  split_nat n; cbn in Hstep |- *;
    (destruct t as [|[|i]]; cbn in Hstep; try discriminate);
    injection Hstep as <- <-; reflexivity.
Qed.

Lemma pre_reach (k n : nat) (tr : list (tid * Event)) (c1 : Config A) :
  n + k = 10 -> steps (pre n) tr c1 ->
  (exists m, m < 10 /\ c1 = pre m) \/ (exists tr', steps (pre 10) tr' c1).
Proof.
  revert n tr. induction k as [|k IH]; intros n tr Hn Hsteps.
  - right. rewrite Nat.add_0_r in Hn. subst n. eauto.
  - inversion Hsteps as [|c c' c2 t e tr' Hstep Hrest]; subst.
    + left. exists n. split; [lia | reflexivity].
    + apply pre_succ in Hstep; [|lia]. subst c'.
      apply (IH (S n) tr'); [lia | assumption].
Qed.

Lemma pre_running (n : nat) (v : A) : n < 10 -> fg (pre n) <> Ret v.
Proof.
  intros Hn. destruct Hidle as [Hm Hf].
  unfold pre, started in *.
  destruct w0 as [o cs xs rg]. destruct o. cbn in Hm, Hf. subst.
  split_nat n; cbn; discriminate.
Qed.

Lemma pre_no_goroutine (n : nat) : n < 10 -> bgs (pre n) = [].
Proof.
  intros Hn. destruct Hidle as [Hm Hf].
  unfold pre, started in *.
  destruct w0 as [o cs xs rg]. destruct o. cbn in Hm, Hf. subst.
  split_nat n; reflexivity.
Qed.

Lemma pre_not_crashed (n : nat) : n < 10 -> crashed (pre n) = false.
Proof.
  intros Hn. destruct Hidle as [Hm Hf].
  unfold pre, started in *.
  destruct w0 as [o cs xs rg]. destruct o. cbn in Hm, Hf. subst.
  split_nat n; reflexivity.
Qed.

Variable Q : FinalizeOut -> bool -> bool -> A -> Prop.

Let rq : FinalizeBlockRequest := snapshot req.
Let c : ctx := List.length (ctxs w0).
Let ch : chan := List.length (chans w0).
Let lg : Logger := logger (oe w0).
Let ar : Z := abortRate (oe w0).

Hypothesis Hrest : forall obs,
  fg_ok f rq c ch lg ar Q (f obs (Some rq)) true false false
    (act Unlock ;; rest).

Lemma pre_inv : inv f rq c ch lg ar Q (pre 10).
Proof.
  destruct Hidle as [Hm Hf]. revert Hrest.
  unfold pre, started, rq, c, ch, lg, ar in *.
  destruct w0 as [o cs xs rg]. destruct o. cbn in Hm, Hf. subst. cbn.
  intros Hr.
  exists 0, false, true, false, false.
  apply inv_at_intro with (j := 0) (obs := false) (held := true)
                          (kc := false) (cn := false);
    try discriminate; try lia.
  - constructor; cbn; try reflexivity; try discriminate; try lia.
    + apply nth_error_snoc.
    + rewrite nth_error_snoc. discriminate.
  - intros obs' _. apply Hr.
Qed.

Lemma started_inv (tr : list (tid * Event)) (c1 : Config A) :
  steps started tr c1 ->
  (exists m, m < 10 /\ c1 = pre m) \/ inv f rq c ch lg ar Q c1.
Proof.
  intros Hsteps.
  destruct (@pre_reach 10 0 tr c1 eq_refl Hsteps) as [Hpre|[tr' Htr']].
  - left. assumption.
  - right. eapply inv_steps; [eassumption | apply pre_inv].
Qed.

Lemma pre_to_running (m : nat) :
  m < 10 -> exists tr, steps (pre m) tr (pre 10).
Proof.
  intros Hm.
  assert (Heq : run_schedule (repeat 0 (10 - m)) (pre m) = pre 10).
  { destruct Hidle as [Hmx Hf]. unfold pre, started in *.
    destruct w0 as [o cs xs rg]. destruct o. cbn in Hmx, Hf. subst.
    split_nat m; reflexivity. }
  rewrite <- Heq. apply steps_run_schedule.
Qed.

(** Whatever has happened since [Execute] was called, the caller can still
    be brought to return. *)
Lemma started_live (tr : list (tid * Event)) (c1 : Config A) :
  steps started tr c1 ->
  exists tr' c2 v, steps c1 tr' c2 /\ fg c2 = Ret v.
Proof.
  intros Hsteps.
  destruct (started_inv Hsteps) as [(m & Hm & ->)|Hinv].
  - destruct (pre_to_running Hm) as [tr1 H1].
    destruct (inv_live eq_refl pre_inv) as (tr2 & c2 & v & H2 & Hv).
    exists (tr1 ++ tr2), c2, v. split; [|assumption].
    eapply steps_trans; eassumption.
  - exact (inv_live eq_refl Hinv).
Qed.

End Started.

(** ** Sequential runs inside the interleaving semantics *)

Section Sequential.
Context {E : Externals}.

(** A call of the caller that returns when run on its own is a possible
    behaviour of the system: the goroutines just do not move meanwhile. *)
Lemma caller_runs (A B : Type) (p : Prog A) :
  forall (w w' : World) (a : A) (sp bs : list (Prog unit)) (K : A -> Prog B),
    snd (run 0 p w) = Returns a w' sp ->
    exists tr,
      steps (Build_Config w (bind p K) bs false) tr
            (Build_Config w' (K a) (bs ++ sp) false).
Proof.
  induction p as [A a0| A | A X a k IH | A body _ k IH];
    intros w w' r sp bs K Hrun; simpl in Hrun.
  - injection Hrun as <- <- <-. exists []. rewrite app_nil_r. constructor.
  - discriminate.
  - destruct (exec 0 a w) as [e w1 x| |] eqn:Hex; try discriminate.
    destruct (run 0 (k x) w1) as [tr1 r1] eqn:Hr. simpl in Hrun. subst r1.
    destruct (IH x w1 w' r sp bs K) as [tr Htr].
    { rewrite Hr. reflexivity. }
    exists ((0, e) :: tr). econstructor; [|exact Htr].
    unfold cstep. simpl. rewrite Hex. rewrite app_nil_r. reflexivity.
  - destruct (run 0 k w) as [tr1 r1] eqn:Hr. simpl in Hrun.
    destruct r1 as [a1 w1 sp1| |]; try discriminate.
    injection Hrun as <- <- <-.
    destruct (IH w w1 a1 sp1 (bs ++ [body]) K) as [tr Htr].
    { rewrite Hr. reflexivity. }
    exists ((0, EvGo) :: tr). econstructor.
    + unfold cstep. simpl. reflexivity.
    + rewrite <- app_assoc in Htr. exact Htr.
Qed.

(** The same for the only goroutine there is. *)
Lemma goroutine_runs (A : Type) :
  forall (q : Prog unit) (w w' : World) (p : Prog A),
    snd (run 1 q w) = Returns tt w' [] ->
    exists tr,
      steps (Build_Config w p [q] false) tr (Build_Config w' p [Ret tt] false).
Proof.
  fix IH 1. intros q w w' p Hrun.
  destruct q as [[]| | X a k | body k]; simpl in Hrun.
  - injection Hrun as <-. exists []. constructor.
  - discriminate.
  - destruct (exec 1 a w) as [e w1 x| |] eqn:Hex; try discriminate.
    destruct (run 1 (k x) w1) as [tr1 r1] eqn:Hr. simpl in Hrun. subst r1.
    destruct (IH (k x) w1 w' p) as [tr Htr].
    { rewrite Hr. reflexivity. }
    exists ((1, e) :: tr). econstructor; [|exact Htr].
    unfold cstep. simpl. rewrite Hex. reflexivity.
  - destruct (run 1 k w) as [tr1 r1] eqn:Hr. simpl in Hrun.
    destruct r1; discriminate.
Qed.

End Sequential.

(** ** The methods run on their own *)

Section Solo.
Context {E : Externals}.

Lemma bytes_Equal_spec (a b : slice byte) :
  bytes_Equal a b = true <-> elems a = elems b.
Proof.
  unfold bytes_Equal. generalize (elems a) (elems b). clear a b.
  induction l as [|x l IH]; intros [|y l']; simpl; split; intros H;
    try reflexivity; try discriminate.
  - apply andb_true_iff in H. destruct H as [Hx Hl].
    apply byte_dec_bl in Hx. apply IH in Hl. congruence.
  - injection H as -> <-. rewrite byte_dec_lb by reflexivity.
    simpl. apply IH. reflexivity.
Qed.

(** The contexts cancelled during a run, in order. *)
Fixpoint cancel_events (tr : list (Event * bool)) : list ctx :=
  match tr with
  | [] => []
  | (EvCancel c, _) :: tr' => c :: cancel_events tr'
  | _ :: tr' => cancel_events tr'
  end.

(** The world [Execute] leaves behind. *)
Definition after_Execute (w : World) (req : ProcessProposalRequest) : World :=
  {| oe := {| finalizeBlockFunc := finalizeBlockFunc (oe w);
              logger := logger (oe w);
              mtx := None;
              stopCh := Some (List.length (chans w));
              request := Some (snapshot req);
              response := response (oe w);
              err := err (oe w);
              cancelFunc := Some (List.length (ctxs w));
              initialized := true;
              abortRate := abortRate (oe w) |};
     chans := chans w ++ [false];
     ctxs := ctxs w ++ [false];
     rng := rng w |}.

Lemma Execute_solo (w : World) (req : ProcessProposalRequest) :
  mtx (oe w) = None ->
  snd (run 0 (Execute ref_oe (Some req)) w)
  = Returns tt (after_Execute w req) [goroutine (List.length (ctxs w))].
Proof.
  intros Hm. destruct w as [o cs xs rg]. destruct o. cbn in Hm. subst.
  reflexivity.
Qed.

(** The world the goroutine leaves behind when finalize returned [out]. *)
Definition after_goroutine (w : World) (out : FinalizeOut) (ch : chan) : World :=
  {| oe := {| finalizeBlockFunc := finalizeBlockFunc (oe w);
              logger := logger (oe w);
              mtx := None;
              stopCh := stopCh (oe w);
              request := request (oe w);
              response := Some (response_of out);
              err := out_err out;
              cancelFunc := cancelFunc (oe w);
              initialized := initialized (oe w);
              abortRate := abortRate (oe w) |};
     chans := set_nth ch true (chans w);
     ctxs := ctxs w;
     rng := rng w |}.

Lemma goroutine_solo (w : World) (f : FinalizeBlockFunc)
    (rq : FinalizeBlockRequest) (c : ctx) (ch : chan) :
  mtx (oe w) = None ->
  finalizeBlockFunc (oe w) = Some f ->
  request (oe w) = Some rq ->
  stopCh (oe w) = Some ch ->
  nth_error (chans w) ch = Some false ->
  snd (run 1 (goroutine c) w)
  = Returns tt (after_goroutine w (f (cancelled w c) (Some rq)) ch) [].
Proof.
  intros Hm Hf Hr Hs Hc. destruct w as [o cs xs rg]. destruct o.
  cbn in Hm, Hf, Hr, Hs, Hc. subst.
  cbn. rewrite Hc. reflexivity.
Qed.

Lemma WaitResult_solo (t : tid) (w : World) (ch : chan) :
  stopCh (oe w) = Some ch ->
  closed w ch = true ->
  snd (run t (WaitResult ref_oe) w) = Returns (response (oe w), err (oe w)) w [].
Proof.
  intros Hs Hc. cbn. rewrite Hs. cbn. rewrite Hc. reflexivity.
Qed.

Lemma Abort_solo (t : tid) (w : World) (c : ctx) (ch : chan) :
  cancelFunc (oe w) = Some c ->
  stopCh (oe w) = Some ch ->
  closed w ch = true ->
  snd (run t (Abort ref_oe) w)
  = Returns tt (with_ctxs (set_nth c true (ctxs w)) w) [].
Proof.
  intros Hf Hs Hc. cbn. rewrite Hf. cbn. rewrite Hf. cbn. rewrite Hs. cbn.
  unfold closed in *. cbn. rewrite Hc. reflexivity.
Qed.

(** The draw [AbortIfNeeded] would get from [rand.Intn(100)]. *)
Definition next_draw (w : World) : Z := Z.modulo (hd 0%Z (rng w)) 100.

(** The injected abort rate fires. *)
Definition rate_fires (w : World) : bool :=
  (0 <? abortRate (oe w))%Z && (next_draw w <? abortRate (oe w))%Z.

Lemma AbortIfNeeded_solo (w : World) (rq : FinalizeBlockRequest)
    (c : ctx) (h : slice byte) :
  mtx (oe w) = None ->
  request (oe w) = Some rq ->
  cancelFunc (oe w) = Some c ->
  let abort := negb (bytes_Equal (fb_Hash rq) h) || rate_fires w in
  exists tr w',
    run 0 (AbortIfNeeded ref_oe h) w = (tr, Returns abort w' []) /\
    cancel_events tr = (if abort then [c] else []) /\
    ctxs w' = (if abort then set_nth c true (ctxs w) else ctxs w) /\
    oe w' = oe w /\ chans w' = chans w.
Proof.
  intros Hm Hr Hc abort.
  unfold abort, rate_fires, next_draw.
  destruct w as [o cs xs rg]. destruct o. cbn in Hm, Hr, Hc. subst.
  cbn. destruct (bytes_Equal (fb_Hash rq) h); cbn.
  - destruct (0 <? abortRate0)%Z; cbn.
    + destruct (hd 0%Z rg mod 100 <? abortRate0)%Z; cbn;
        eexists; eexists; repeat split.
    + eexists; eexists; repeat split.
  - eexists; eexists; repeat split.
Qed.

(** The world once the run started by [Execute] has completed without having
    been cancelled. *)
Definition completed (w0 : World) (f : FinalizeBlockFunc)
    (req : ProcessProposalRequest) : World :=
  after_goroutine (after_Execute w0 req) (f false (Some (snapshot req)))
    (List.length (chans w0)).

(** That world is reached when [Execute] returns and the goroutine then runs
    to its end before the caller does anything else. *)
Lemma completed_reachable (A : Type) (w0 : World) (f : FinalizeBlockFunc)
    (req : ProcessProposalRequest) (rest : Prog A) :
  idle w0 f ->
  exists tr,
    steps (started w0 req rest) tr
          (Build_Config (completed w0 f req) rest [Ret tt] false).
Proof.
  intros [Hm Hf].
  destruct (@caller_runs _ unit A (Execute ref_oe (Some req)) w0 _ tt _ []
              (fun _ => rest) (Execute_solo w0 req Hm)) as [tr1 H1].
  assert (Hg : snd (run 1 (goroutine (List.length (ctxs w0))) (after_Execute w0 req))
               = Returns tt (completed w0 f req) []).
  { rewrite (@goroutine_solo (after_Execute w0 req) f (snapshot req)
               (List.length (ctxs w0)) (List.length (chans w0)));
      cbn; try reflexivity; try assumption; try apply nth_error_snoc.
    unfold completed, cancelled. cbn. rewrite flag_snoc. reflexivity. }
  destruct (@goroutine_runs _ A _ _ _ rest Hg) as [tr2 H2].
  exists (tr1 ++ tr2). eapply steps_trans; [exact H1 | exact H2].
Qed.

End Solo.

(** ** A run observed through [WaitResult] *)

Section Waiting.
Context {E : Externals}.

(** What [WaitResult] hands out when finalize returned [out]. *)
Definition result_of (out : FinalizeOut) : Result :=
  (Some (response_of out), out_err out).

(** [WaitResult] called twice in a row. *)
Definition wait_twice : Prog (Result * Result) :=
  r1 <- WaitResult ref_oe ;;
  r2 <- WaitResult ref_oe ;;
  Ret (r1, r2).

Variables (w0 : World) (f : FinalizeBlockFunc) (req : ProcessProposalRequest).
Hypothesis Hidle : idle w0 f.

Lemma wait_twice_ok (obs : bool) :
  fg_ok f (snapshot req) (List.length (ctxs w0)) (List.length (chans w0))
    (logger (oe w0)) (abortRate (oe w0))
    (fun out kc _ v => kc = true /\ v = (result_of out, result_of out))
    (f obs (Some (snapshot req))) true false false
    (act Unlock ;; wait_twice).
Proof.
  cbn. split; [reflexivity|]. intros v ->. do 2 (split; [reflexivity|]).
  intros r1 H1 e1 He1 v ->. do 2 (split; [reflexivity|]).
  intros r2 H2 e2 He2.
  rewrite (H1 eq_refl), (He1 eq_refl), (H2 eq_refl), (He2 eq_refl).
  split; reflexivity.
Qed.

(** C3. [WaitResult] returns only once the stop channel is closed, and what
    it returns is the response and error the goroutine captured from the
    finalize function; a second call right after returns the same pair.
    From every state the system can get into, both calls can still be
    brought to return. *)
Theorem WaitResult_returns_captured_result :
  (forall tr c1 r1 r2,
      steps (started w0 req wait_twice) tr c1 ->
      fg c1 = Ret (r1, r2) ->
      closed (world c1) (List.length (chans w0)) = true /\
      exists obs,
        r1 = result_of (f obs (Some (snapshot req))) /\ r2 = r1) /\
  (forall tr c1,
      steps (started w0 req wait_twice) tr c1 ->
      exists tr' c2 r, steps c1 tr' c2 /\ fg c2 = Ret r).
Proof.
  split.
  - intros tr c1 r1 r2 Hsteps Hret.
    destruct (started_inv Hidle wait_twice_ok Hsteps) as [(m & Hm & ->)|Hinv].
    + exfalso. exact (pre_running req wait_twice Hidle Hm Hret).
    + destruct (inv_returned Hinv Hret)
        as (j & obs & held & kc & cn & [Hk Hv] & Hj & Hkc & _ & _ & Hri & _).
      injection Hv as -> ->. split.
      * unfold closed, flag. rewrite (ri_chan Hri).
        apply Nat.leb_le. auto.
      * exists obs. split; reflexivity.
  - exact (started_live Hidle wait_twice_ok).
Qed.

Lemma wait_once_ok (obs : bool) :
  fg_ok f (snapshot req) (List.length (ctxs w0)) (List.length (chans w0))
    (logger (oe w0)) (abortRate (oe w0))
    (fun out kc _ v => v = result_of out)
    (f obs (Some (snapshot req))) true false false
    (act Unlock ;; WaitResult ref_oe).
Proof.
  cbn. split; [reflexivity|]. intros v ->. do 2 (split; [reflexivity|]).
  intros r1 H1 e1 He1. rewrite (H1 eq_refl), (He1 eq_refl). reflexivity.
Qed.

(** C10. Once the goroutine has finished, the stored response is a non-nil
    [FinalizeBlockResponse] holding the outputs of the finalize function,
    and the stored error is the error it returned, whatever that error is;
    [WaitResult] returns exactly this pair, so never a nil response; and
    from every state the system can get into it can still be brought to
    return. *)
Theorem response_never_nil :
  (forall tr c1,
      steps (started w0 req (WaitResult ref_oe)) tr c1 ->
      (bgs c1 = [Ret tt] ->
       exists obs,
         response (oe (world c1)) = Some (response_of (f obs (Some (snapshot req)))) /\
         err (oe (world c1)) = out_err (f obs (Some (snapshot req)))) /\
      (forall r e, fg c1 = Ret (r, e) ->
       r <> None /\
       exists obs,
         r = Some {| Resp := out_resp (f obs (Some (snapshot req)));
                     StateChanges := out_stateChanges (f obs (Some (snapshot req)));
                     DecodedTxs := out_decodedTxs (f obs (Some (snapshot req))) |} /\
         e = out_err (f obs (Some (snapshot req))))) /\
  (forall tr c1,
      steps (started w0 req (WaitResult ref_oe)) tr c1 ->
      exists tr' c2 r, steps c1 tr' c2 /\ fg c2 = Ret r).
Proof.
  split.
  - intros tr c1 Hsteps.
    destruct (started_inv Hidle wait_once_ok Hsteps) as [(m & Hm & ->)|Hinv];
      split.
    + intros Hb. rewrite (pre_no_goroutine req (WaitResult ref_oe) Hidle Hm) in Hb.
      discriminate.
    + intros r e Hret. exfalso.
      exact (pre_running req (WaitResult ref_oe) Hidle Hm Hret).
    + intros Hb.
      destruct Hinv as (j & obs & held & kc & cn & _ & Hj & Hbg & Hri & _).
      rewrite Hbg in Hb. exists obs.
      assert (j = 13) as ->.
      { clear Hri. split_nat j; try reflexivity; cbn in Hb; discriminate. }
      split; [apply (ri_response Hri) | apply (ri_err Hri)]; lia.
    + intros r e Hret.
      destruct (inv_returned Hinv Hret)
        as (j & obs & held & kc & cn & Hv & _).
      injection Hv as -> ->. split; [discriminate|].
      exists obs. split; reflexivity.
  - exact (started_live Hidle wait_once_ok).
Qed.

End Waiting.

(** ** A run that is aborted *)

Section Aborting.
Context {E : Externals}.

Variables (w0 : World) (f : FinalizeBlockFunc) (req : ProcessProposalRequest).
Hypothesis Hidle : idle w0 f.

Lemma abort_ok (obs : bool) :
  fg_ok f (snapshot req) (List.length (ctxs w0)) (List.length (chans w0))
    (logger (oe w0)) (abortRate (oe w0))
    (fun _ kc cn _ => kc = true /\ cn = true)
    (f obs (Some (snapshot req))) true false false
    (act Unlock ;; Abort ref_oe).
Proof.
  cbn. split; [reflexivity|]. intros v ->. cbn. intros v ->. cbn.
  intros v ->. do 2 (split; [reflexivity|]).
  rewrite Nat.eqb_refl. split; reflexivity.
Qed.

(** [Abort] called twice in a row during a run. *)
Lemma abort_twice_ok (obs : bool) :
  fg_ok f (snapshot req) (List.length (ctxs w0)) (List.length (chans w0))
    (logger (oe w0)) (abortRate (oe w0))
    (fun _ kc cn _ => kc = true /\ cn = true)
    (f obs (Some (snapshot req))) true false false
    (act Unlock ;; Abort ref_oe ;; Abort ref_oe).
Proof.
  cbn. split; [reflexivity|]. intros v ->. cbn. intros v ->. cbn.
  intros v ->. do 2 (split; [reflexivity|]).
  intros v ->. cbn. intros v ->. cbn.
  intros v ->. do 2 (split; [reflexivity|]).
  rewrite Nat.eqb_refl. split; reflexivity.
Qed.

Lemma abort_twice_safe (tr : list (tid * Event)) (c1 : Config unit) :
  steps (started w0 req (Abort ref_oe ;; Abort ref_oe)) tr c1 ->
  crashed c1 = false.
Proof.
  intros Hsteps.
  destruct (started_inv Hidle abort_twice_ok Hsteps) as [(m & Hm & ->)|Hinv].
  - exact (pre_not_crashed req (Abort ref_oe ;; Abort ref_oe) Hidle Hm).
  - destruct Hinv as (j & obs & held & kc & cn & Hcr & _). exact Hcr.
Qed.

Lemma abort_twice_live (tr : list (tid * Event)) (c1 : Config unit) :
  steps (started w0 req (Abort ref_oe ;; Abort ref_oe)) tr c1 ->
  exists tr' c2, steps c1 tr' c2 /\ fg c2 = Ret tt.
Proof.
  intros Hsteps.
  destruct (started_live Hidle abort_twice_ok Hsteps)
    as (tr' & c2 & [] & Hs & Hr).
  eauto.
Qed.

(** [AbortIfNeeded] called during a run. *)
Lemma abort_if_needed_ok (h : slice byte) (obs : bool) :
  fg_ok f (snapshot req) (List.length (ctxs w0)) (List.length (chans w0))
    (logger (oe w0)) (abortRate (oe w0))
    (fun _ _ cn b =>
       b = cn /\
       (bytes_Equal (pp_Hash req) h = false -> b = true) /\
       (bytes_Equal (pp_Hash req) h = true ->
        (abortRate (oe w0) <= 0)%Z -> b = false))
    (f obs (Some (snapshot req))) true false false
    (act Unlock ;; AbortIfNeeded ref_oe h).
Proof.
  cbn. split; [reflexivity|]. split; [reflexivity|]. intros v ->. cbn.
  destruct (bytes_Equal (pp_Hash req) h); cbn.
  - intros v ->. destruct (0 <? abortRate (oe w0))%Z eqn:Hr; cbn.
    + intros r v' ->. destruct (r <? abortRate (oe w0))%Z; cbn.
      * intros v ->. cbn. intros v ->. split; [reflexivity|].
        rewrite Nat.eqb_refl. repeat split; try discriminate.
        intros _ H. apply Z.ltb_lt in Hr. lia.
      * split; [reflexivity|]. repeat split. discriminate.
    + split; [reflexivity|]. repeat split. discriminate.
  - intros v ->. intros v ->. cbn. intros v ->. cbn. intros v ->. cbn.
    intros v ->. cbn.
    split; [reflexivity|]. rewrite Nat.eqb_refl. repeat split. discriminate.
Qed.

Lemma abort_if_needed_safe (h : slice byte) (tr : list (tid * Event))
    (c1 : Config bool) (b : bool) :
  steps (started w0 req (AbortIfNeeded ref_oe h)) tr c1 ->
  fg c1 = Ret b ->
  (b = true -> cancelled (world c1) (List.length (ctxs w0)) = true) /\
  (bytes_Equal (pp_Hash req) h = false -> b = true) /\
  (bytes_Equal (pp_Hash req) h = true ->
   (abortRate (oe w0) <= 0)%Z -> b = false).
Proof.
  intros Hsteps Hret.
  destruct (started_inv Hidle (abort_if_needed_ok h) Hsteps)
    as [(m & Hm & ->)|Hinv].
  - exfalso. exact (pre_running req (AbortIfNeeded ref_oe h) Hidle Hm Hret).
  - destruct (inv_returned Hinv Hret)
      as (j & obs & held & kc & cn & (Hb & Hne & Heq) & _ & _ & Hcn & _).
    split; [|split; assumption].
    intros Ht. unfold cancelled, flag. rewrite Hcn; [reflexivity | congruence].
Qed.

Lemma abort_if_needed_live (h : slice byte) (tr : list (tid * Event))
    (c1 : Config bool) :
  steps (started w0 req (AbortIfNeeded ref_oe h)) tr c1 ->
  exists tr' c2 b, steps c1 tr' c2 /\ fg c2 = Ret b.
Proof. apply (started_live Hidle (abort_if_needed_ok h)). Qed.

End Aborting.

(** ** Claims about single calls *)

Section Calls.
Context {E : Externals}.

(** C8. On a nil receiver [Initialized] returns false, [AbortIfNeeded]
    returns false for every hash and [Abort] returns; none of them touches
    the world, performs any action or panics. *)
Theorem nil_receiver_safe (t : tid) (w : World) (h : slice byte) :
  run t (Initialized nil_oe) w = ([], Returns false w []) /\
  run t (AbortIfNeeded nil_oe h) w = ([], Returns false w []) /\
  run t (Abort nil_oe) w = ([], Returns tt w []).
Proof. repeat split. Qed.

Lemma options_keep_fields (rates : list Z) (o0 : OptimisticExecution) :
  let o := fold_left (fun o opt => opt o) (map WithAbortRate rates) o0 in
  finalizeBlockFunc o = finalizeBlockFunc o0 /\ logger o = logger o0 /\
  mtx o = mtx o0 /\ stopCh o = stopCh o0 /\ request o = request o0 /\
  response o = response o0 /\ err o = err o0 /\
  cancelFunc o = cancelFunc o0 /\ initialized o = initialized o0.
Proof.
  revert o0. induction rates as [|r rates IH]; intros o0; simpl.
  - repeat split.
  - apply (IH (WithAbortRate r o0)).
Qed.

(** C4. A struct built by [NewOptimisticExecution] (with abort-rate options)
    has no request, response or error and is not initialized, so
    [Initialized] returns false; [Execute] sets the initialized flag and
    stores a request whose fields are those of the proposal, with
    [DecidedLastCommit] taken from [ProposedLastCommit]; [Reset] clears
    request, response, error and the flag. *)
Theorem lifecycle_fields (lg : Logger) (fn : option FinalizeBlockFunc)
    (rates : list Z) (cs xs : list bool) (rg : list Z)
    (w : World) (req : ProcessProposalRequest) :
  mtx (oe w) = None ->
  (let o := NewOptimisticExecution lg fn (map WithAbortRate rates) in
   request o = None /\ response o = None /\ err o = None /\
   initialized o = false /\
   snd (run 0 (Initialized ref_oe) (Build_World o cs xs rg))
   = Returns false (Build_World o cs xs rg) []) /\
  (exists w' rq,
     snd (run 0 (Execute ref_oe (Some req)) w)
     = Returns tt w' [goroutine (List.length (ctxs w))] /\
     initialized (oe w') = true /\
     request (oe w') = Some rq /\
     fb_Txs rq = pp_Txs req /\
     fb_Hash rq = pp_Hash req /\
     fb_Height rq = pp_Height req /\
     fb_Time rq = pp_Time req /\
     fb_Misbehavior rq = pp_Misbehavior req /\
     fb_NextValidatorsHash rq = pp_NextValidatorsHash req /\
     fb_ProposerAddress rq = pp_ProposerAddress req /\
     fb_DecidedLastCommit rq = pp_ProposedLastCommit req) /\
  (exists w',
     snd (run 0 (Reset ref_oe) w) = Returns tt w' [] /\
     request (oe w') = None /\ response (oe w') = None /\
     err (oe w') = None /\ initialized (oe w') = false).
Proof.
  intros Hm. split; [|split].
  - unfold NewOptimisticExecution.
    match goal with |- context [fold_left _ _ ?o0] =>
      pose proof (options_keep_fields rates o0) as Hk end.
    cbv zeta in *. destruct Hk as (_ & _ & Hmx & _ & Hrq & Hrs & He & _ & Hi).
    cbn in Hmx, Hrq, Hrs, He, Hi.
    repeat split; try assumption.
    cbn. rewrite Hmx. cbn. rewrite Hi.
    destruct (fold_left _ _ _); cbn in *; subst. reflexivity.
  - exists (after_Execute w req), (snapshot req).
    rewrite Execute_solo by assumption. repeat split.
  - destruct w as [o cs0 xs0 rg0]. destruct o. cbn in Hm. subst.
    eexists. split; [reflexivity|]. repeat split.
Qed.

(** The world [Reset] leaves behind: four fields are overwritten. *)
Definition after_Reset (w : World) : World :=
  with_oe (set f_initialized false
             (set f_err None
                (set f_response None
                   (set f_request None (oe w))))) w.

Lemma Reset_solo (w : World) :
  mtx (oe w) = None ->
  run 0 (Reset ref_oe) w
  = ([(EvLock, false); (EvStore n_request, true); (EvStore n_response, true);
      (EvStore n_err, true); (EvStore n_initialized, true); (EvUnlock, true)],
     Returns tt (after_Reset w) []).
Proof.
  intros Hm. destruct w as [o cs xs rg]. destruct o. cbn in Hm. subst.
  reflexivity.
Qed.

(** C9. [Reset] overwrites request, response, error and the initialized
    flag and nothing else: the cancel function, the stop channel, the
    finalize function, the logger and the abort rate are as before, and so
    are the channels and contexts.  An [Abort] called next therefore cancels
    the context of the previous run and receives from its stop channel:
    it returns if that channel is closed and waits on it otherwise. *)
Theorem Reset_frame (w : World) :
  mtx (oe w) = None ->
  snd (run 0 (Reset ref_oe) w) = Returns tt (after_Reset w) [] /\
  cancelFunc (oe (after_Reset w)) = cancelFunc (oe w) /\
  stopCh (oe (after_Reset w)) = stopCh (oe w) /\
  finalizeBlockFunc (oe (after_Reset w)) = finalizeBlockFunc (oe w) /\
  logger (oe (after_Reset w)) = logger (oe w) /\
  abortRate (oe (after_Reset w)) = abortRate (oe w) /\
  mtx (oe (after_Reset w)) = mtx (oe w) /\
  chans (after_Reset w) = chans w /\
  ctxs (after_Reset w) = ctxs w /\
  (forall c ch,
      cancelFunc (oe w) = Some c -> stopCh (oe w) = Some ch ->
      let w' := with_ctxs (set_nth c true (ctxs w)) (after_Reset w) in
      run 0 (Abort ref_oe) (after_Reset w)
      = if closed w ch
        then ([(EvLoad n_cancelFunc, false); (EvLoad n_cancelFunc, false);
               (EvCancel c, false); (EvLoad n_stopCh, false);
               (EvRecv ch, false)],
              Returns tt w' [])
        else ([(EvLoad n_cancelFunc, false); (EvLoad n_cancelFunc, false);
               (EvCancel c, false); (EvLoad n_stopCh, false)],
              Waits w' (act (Recv (Some ch))) [])).
Proof.
  intros Hm. rewrite Reset_solo by assumption.
  repeat split.
  intros c ch Hc Hs.
  destruct w as [o cs xs rg]. destruct o. cbn in Hm, Hc, Hs. subst.
  cbn. unfold closed. cbn. destruct (flag cs ch); reflexivity.
Qed.

(** C1. With the request of a run stored and its cancel function installed,
    [AbortIfNeeded h] returns true and calls the cancel function, once,
    exactly when the bytes of [h] differ from those of the stored hash or the
    abort rate fires; otherwise it returns false and cancels nothing.  In
    particular with equal hashes and abort rate zero it returns false.
    Called while the run started by [Execute] is under way, under every
    schedule it returns true on a mismatch, having cancelled the context of
    the run, and false on equal hashes when the abort rate is not positive;
    from every state the system can get into it can still be brought to
    return. *)
Theorem AbortIfNeeded_aborts_iff_mismatch (w : World) (rq : FinalizeBlockRequest)
    (c : ctx) (h : slice byte) :
  mtx (oe w) = None ->
  request (oe w) = Some rq ->
  cancelFunc (oe w) = Some c ->
  let abort := negb (bytes_Equal (fb_Hash rq) h) || rate_fires w in
  (bytes_Equal (fb_Hash rq) h = true <-> elems (fb_Hash rq) = elems h) /\
  (elems (fb_Hash rq) = elems h -> abortRate (oe w) = 0%Z -> abort = false) /\
  (exists tr w',
     run 0 (AbortIfNeeded ref_oe h) w = (tr, Returns abort w' []) /\
     cancel_events tr = (if abort then [c] else []) /\
     ctxs w' = (if abort then set_nth c true (ctxs w) else ctxs w) /\
     oe w' = oe w /\ chans w' = chans w) /\
  (forall w0 f req,
      idle w0 f ->
      (forall tr c1 b,
          steps (started w0 req (AbortIfNeeded ref_oe h)) tr c1 ->
          fg c1 = Ret b ->
          (b = true -> cancelled (world c1) (List.length (ctxs w0)) = true) /\
          (bytes_Equal (pp_Hash req) h = false -> b = true) /\
          (bytes_Equal (pp_Hash req) h = true ->
           (abortRate (oe w0) <= 0)%Z -> b = false)) /\
      (forall tr c1,
          steps (started w0 req (AbortIfNeeded ref_oe h)) tr c1 ->
          exists tr' c2 b, steps c1 tr' c2 /\ fg c2 = Ret b)).
Proof.
  intros Hm Hr Hc abort. split; [apply bytes_Equal_spec|]. split; [|split].
  - intros Heq H0. unfold abort, rate_fires.
    apply bytes_Equal_spec in Heq. rewrite Heq, H0. reflexivity.
  - apply AbortIfNeeded_solo; assumption.
  - intros w0 f req Hidle. split.
    + intros tr c1 b. exact (@abort_if_needed_safe _ w0 f req Hidle h tr c1 b).
    + intros tr c1. exact (@abort_if_needed_live _ w0 f req Hidle h tr c1).
Qed.

(** C6. [Abort] with no cancel function installed only reads that field and
    returns, leaving the world as it is.  Whenever a call of [Abort] has
    returned, a second call returns as well and leaves the world exactly as
    the first one left it.  [Abort] never panics; called twice in a row
    during a run started by [Execute], no schedule leads to a panic, and
    from every state the system can get into both calls can still be
    brought to return. *)
Theorem Abort_idempotent (t : tid) (w w1 : World) (sp : list (Prog unit))
    (w0 : World) (f : FinalizeBlockFunc) (req : ProcessProposalRequest) :
  (cancelFunc (oe w) = None ->
   run t (Abort ref_oe) w = ([(EvLoad n_cancelFunc, holds t w)], Returns tt w [])) /\
  (snd (run t (Abort ref_oe) w) = Returns tt w1 sp ->
   snd (run t (Abort ref_oe) w1) = Returns tt w1 []) /\
  (forall w', snd (run t (Abort ref_oe) w) <> Panics w') /\
  (idle w0 f ->
   (forall tr c1,
       steps (started w0 req (Abort ref_oe ;; Abort ref_oe)) tr c1 ->
       crashed c1 = false) /\
   (forall tr c1,
       steps (started w0 req (Abort ref_oe ;; Abort ref_oe)) tr c1 ->
       exists tr' c2, steps c1 tr' c2 /\ fg c2 = Ret tt)).
Proof.
  split; [|split; [|split]].
  - intros Hc. cbn. rewrite Hc. reflexivity.
  - destruct w as [o cs xs rg]. destruct o. cbn.
    destruct cancelFunc0 as [c|]; cbn.
    + destruct stopCh0 as [ch|]; cbn; [|discriminate].
      unfold closed. cbn. destruct (flag cs ch) eqn:Hf; cbn; [|discriminate].
      intros H. injection H as <- <-. cbn. unfold closed. cbn.
      rewrite Hf. cbn. rewrite set_nth_idem. reflexivity.
    + intros H. injection H as <- <-. reflexivity.
  - intros w'. destruct w as [o cs xs rg]. destruct o. cbn.
    destruct cancelFunc0 as [c|]; cbn; [|discriminate].
    destruct stopCh0 as [ch|]; cbn; [|discriminate].
    destruct (closed _ ch); discriminate.
  - intros Hidle. split.
    + intros tr c1. exact (@abort_twice_safe _ w0 f req Hidle tr c1).
    + intros tr c1. exact (@abort_twice_live _ w0 f req Hidle tr c1).
Qed.

(** C5 as amended. [Reset] does not look at whether a run is outstanding:
    with the stop channel of the run still open it takes the mutex, clears
    request, response, error and the initialized flag all the same and
    releases the mutex.  It leaves the stop channel, still open, and the
    cancel function in place, and with them the finalize function, the
    logger, the abort rate, the channels and the contexts. *)
Theorem Reset_unconditional (w : World) (ch : chan) :
  mtx (oe w) = None ->
  stopCh (oe w) = Some ch ->
  closed w ch = false ->
  exists w',
    snd (run 0 (Reset ref_oe) w) = Returns tt w' [] /\
    request (oe w') = None /\ response (oe w') = None /\
    err (oe w') = None /\ initialized (oe w') = false /\
    stopCh (oe w') = Some ch /\ closed w' ch = false /\
    cancelFunc (oe w') = cancelFunc (oe w) /\
    fst (run 0 (Reset ref_oe) w)
    = [(EvLock, false); (EvStore n_request, true); (EvStore n_response, true);
       (EvStore n_err, true); (EvStore n_initialized, true); (EvUnlock, true)] /\
    w' = after_Reset w /\
    finalizeBlockFunc (oe w') = finalizeBlockFunc (oe w) /\
    logger (oe w') = logger (oe w) /\
    abortRate (oe w') = abortRate (oe w) /\
    mtx (oe w') = None /\
    chans w' = chans w /\ ctxs w' = ctxs w.
Proof.
  intros Hm Hs Hc. exists (after_Reset w).
  rewrite Reset_solo by assumption. repeat split; assumption.
Qed.

(** The fields the claim about the lock speaks of. *)
Definition guarded (n : FieldName) : bool :=
  match n with
  | n_request | n_response | n_err | n_initialized => true
  | _ => false
  end.

(** An access to a guarded field happens with the mutex held. *)
Definition access_locked (x : Event * bool) : bool :=
  match fst x with
  | EvLoad n | EvStore n => implb (guarded n) (snd x)
  | _ => true
  end.

Definition all_locked (tr : list (Event * bool)) : bool :=
  forallb access_locked tr.

(** C7 as amended. [Initialized], [Execute], [Reset] and [AbortIfNeeded]
    touch request, response, error and initialized only with the mutex
    held.  The goroutine reads the request without the mutex when it calls
    the finalize function, runs that function without the mutex, and only
    then takes it to read the request for its log line, store response and
    error and close the stop channel.  [WaitResult] takes no lock: it reads
    response and error after its receive on the closed stop channel. *)
Theorem lock_discipline (w : World) (req : ProcessProposalRequest)
    (h : slice byte) (f : FinalizeBlockFunc) (rq : FinalizeBlockRequest)
    (c c' : ctx) (ch : chan) :
  mtx (oe w) = None ->
  finalizeBlockFunc (oe w) = Some f ->
  request (oe w) = Some rq ->
  cancelFunc (oe w) = Some c' ->
  stopCh (oe w) = Some ch ->
  nth_error (chans w) ch = Some false ->
  all_locked (fst (run 0 (Initialized ref_oe) w)) = true /\
  all_locked (fst (run 0 (Execute ref_oe (Some req)) w)) = true /\
  all_locked (fst (run 0 (Reset ref_oe) w)) = true /\
  all_locked (fst (run 0 (AbortIfNeeded ref_oe h) w)) = true /\
  fst (run 1 (goroutine c) w)
  = [(EvLoad n_finalizeBlockFunc, false); (EvLoad n_request, false);
     (EvFinalize c (cancelled w c), false); (EvLock, false);
     (EvLoad n_logger, true); (EvLoad n_request, true);
     (EvLoad n_request, true); (EvLog Debug "OE finished", true);
     (EvStore n_response, true); (EvStore n_err, true);
     (EvLoad n_stopCh, true); (EvClose ch, true); (EvUnlock, true)] /\
  fst (run 0 (WaitResult ref_oe)
         (after_goroutine w (f (cancelled w c) (Some rq)) ch))
  = [(EvLoad n_stopCh, false); (EvRecv ch, false);
     (EvLoad n_response, false); (EvLoad n_err, false)].
Proof.
  intros Hm Hf Hr Hc Hs Hch.
  assert (Hcl : flag (set_nth ch true (chans w)) ch = true).
  { unfold flag. now rewrite (nth_error_set_nth_same _ _ true Hch). }
  destruct w as [o cs xs rg]. destruct o. cbn in Hm, Hf, Hr, Hc, Hs, Hch, Hcl.
  subst. repeat split.
  - cbn. destruct (bytes_Equal (fb_Hash rq) h); cbn; [|reflexivity].
    destruct (0 <? abortRate0)%Z; cbn; [|reflexivity].
    destruct (hd 0%Z rg mod 100 <? abortRate0)%Z; reflexivity.
  - cbn. rewrite Hch. reflexivity.
  - cbn. unfold closed. cbn. rewrite Hcl. reflexivity.
Qed.

End Calls.

(** ** A concrete instance *)

Module Sample.

#[local] Instance externals : Externals :=
  {| Tx := nat; BlockResponse := nat; WriterMap := nat; CommitInfo := nat;
     MisbehaviorT := nat; time_Time := nat; error_value := nat;
     Logger := list (string * string);
     logger_With := fun l k v => l ++ [(k, v)];
     ModuleKey := "module" |}.

(** A finalize function that reports an error when it sees its context
    cancelled. *)
Definition finalize : FinalizeBlockFunc :=
  fun observed _ =>
    {| out_resp := Some 7; out_stateChanges := Some 8;
       out_decodedTxs := Some [1; 2];
       out_err := if observed then Some 99 else None |}.

Definition fresh : World :=
  {| oe := NewOptimisticExecution [] (Some finalize) [WithAbortRate 0%Z];
     chans := []; ctxs := []; rng := [] |}.

Definition proposal : ProcessProposalRequest :=
  {| pp_Txs := Some [Some [x01%byte]]; pp_ProposedLastCommit := 1;
     pp_Misbehavior := None; pp_Hash := Some [x0a%byte; x0b%byte];
     pp_Height := 5%Z; pp_Time := 3; pp_NextValidatorsHash := None;
     pp_ProposerAddress := Some [x02%byte] |}.

(** The world right after [Execute proposal]: the goroutine has not moved. *)
Definition running : World := after_Execute fresh proposal.

(** The world once that goroutine has finished. *)
Definition finished : World := completed fresh finalize proposal.

(** What [WaitResult] returns in [finished]. *)
Definition result : Result :=
  (Some {| Resp := Some 7; StateChanges := Some 8;
           DecodedTxs := Some [1; 2] |}, None).

(** The response with the error finalize reports on a cancelled context. *)
Definition cancelled_result : Result := (fst result, Some 99).

(** [AbortIfNeeded] followed by [WaitResult]. *)
Definition abort_then_wait (h : slice byte) : Prog (bool * Result) :=
  b <- AbortIfNeeded ref_oe h ;;
  r <- WaitResult ref_oe ;;
  Ret (b, r).

(** The goroutine runs to its end and [WaitResult] returns its result. *)
Example run_completes :
  fg (run_schedule (repeat 0 12 ++ repeat 1 13 ++ repeat 0 3)
        (started fresh proposal (WaitResult ref_oe)))
  = Ret result.
Proof. reflexivity. Qed.

(** A different hash arrives before the goroutine has called finalize: the
    run is cancelled and finalize sees it. *)
Example abort_before_finalize :
  fg (run_schedule (repeat 0 21 ++ repeat 1 13 ++ repeat 0 5)
        (started fresh proposal (abort_then_wait (Some [x00%byte]))))
  = Ret (true, cancelled_result).
Proof. reflexivity. Qed.

(** The same call arriving after finalize has returned: it still cancels
    and returns true, and the result is the one of an undisturbed run. *)
Example abort_after_finalize :
  fg (run_schedule
        (repeat 0 11 ++ repeat 1 3 ++ repeat 0 10 ++ repeat 1 10 ++ repeat 0 5)
        (started fresh proposal (abort_then_wait (Some [x00%byte]))))
  = Ret (true, result).
Proof. reflexivity. Qed.

(** The hash of the proposal itself: nothing is cancelled. *)
Example matching_hash_keeps_run :
  fg (run_schedule (repeat 0 11 ++ repeat 1 13 ++ repeat 0 10)
        (started fresh proposal
           (abort_then_wait (Some [x0a%byte; x0b%byte]))))
  = Ret (false, result).
Proof. reflexivity. Qed.

(** While the goroutine has not closed the stop channel, [WaitResult] does
    not move however many turns it gets. *)
Example wait_blocks :
  fg (run_schedule (repeat 0 40 ++ repeat 1 11 ++ repeat 0 40)
        (started fresh proposal (WaitResult ref_oe)))
  = act (Recv (Some 0)) ;; r <- act (Load f_response) ;;
    e <- act (Load f_err) ;; Ret (r, e).
Proof. reflexivity. Qed.

End Sample.

Lemma AbortIfNeeded_aborts_iff_mismatch_witness :
  (mtx (oe Sample.running) = None /\
   request (oe Sample.running) = Some (snapshot Sample.proposal) /\
   cancelFunc (oe Sample.running) = Some 0 /\
   idle Sample.fresh Sample.finalize) /\
  (exists tr w',
      run 0 (AbortIfNeeded ref_oe (Some [x0a%byte])) Sample.running
      = (tr, Returns true w' []) /\ cancel_events tr = [0]) /\
  (exists tr c1 b,
      steps (started Sample.fresh Sample.proposal
               (AbortIfNeeded ref_oe (Some [x0a%byte]))) tr c1 /\
      fg c1 = Ret b).
Proof.
  split; [repeat split; reflexivity|].
  destruct (@AbortIfNeeded_aborts_iff_mismatch Sample.externals Sample.running
              (snapshot Sample.proposal) 0 (Some [x0a%byte])
              eq_refl eq_refl eq_refl)
    as (_ & _ & (tr & w' & Hrun & Hev & _) & Hconc).
  split.
  - exists tr, w'. split; [exact Hrun | exact Hev].
  - exact (proj2 (Hconc Sample.fresh Sample.finalize Sample.proposal
                    (conj eq_refl eq_refl)) [] _ (steps_refl _)).
Defined.

Lemma WaitResult_returns_captured_result_witness :
  idle Sample.fresh Sample.finalize /\
  exists tr c1 r,
    steps (started Sample.fresh Sample.proposal wait_twice) tr c1 /\
    fg c1 = Ret r.
Proof.
  split; [split; reflexivity|].
  exact (proj2 (@WaitResult_returns_captured_result Sample.externals
                  Sample.fresh Sample.finalize Sample.proposal
                  (conj eq_refl eq_refl)) [] _ (steps_refl _)).
Defined.

Lemma response_never_nil_witness :
  idle Sample.fresh Sample.finalize /\
  exists tr c1 r,
    steps (started Sample.fresh Sample.proposal (WaitResult ref_oe)) tr c1 /\
    fg c1 = Ret r.
Proof.
  split; [split; reflexivity|].
  exact (proj2 (@response_never_nil Sample.externals
                  Sample.fresh Sample.finalize Sample.proposal
                  (conj eq_refl eq_refl)) [] _ (steps_refl _)).
Defined.

Lemma lifecycle_fields_witness :
  mtx (oe Sample.running) = None /\
  exists w',
    snd (run 0 (Reset ref_oe) Sample.running) = Returns tt w' [] /\
    request (oe w') = None.
Proof.
  split; [reflexivity|].
  destruct (@lifecycle_fields Sample.externals [] (Some Sample.finalize) [0%Z]
              [] [] [] Sample.running Sample.proposal eq_refl)
    as (_ & _ & w' & Hrun & Hrq & _).
  exists w'. split; [exact Hrun | exact Hrq].
Defined.

Lemma Reset_frame_witness :
  mtx (oe Sample.running) = None /\
  cancelFunc (oe (after_Reset Sample.running)) = Some 0 /\
  stopCh (oe (after_Reset Sample.running)) = Some 0 /\
  run 0 (Abort ref_oe) (after_Reset Sample.running)
  = ([(EvLoad n_cancelFunc, false); (EvLoad n_cancelFunc, false);
      (EvCancel 0, false); (EvLoad n_stopCh, false)],
     Waits (with_ctxs [true] (after_Reset Sample.running))
       (act (Recv (Some 0))) []).
Proof.
  split; [reflexivity|].
  destruct (@Reset_frame Sample.externals Sample.running eq_refl)
    as (_ & Hc & Hs & _ & _ & _ & _ & _ & _ & Hab).
  split; [exact Hc | split; [exact Hs|]].
  exact (Hab 0 0 eq_refl eq_refl).
Defined.

Lemma Abort_idempotent_witness :
  (cancelFunc (oe Sample.fresh) = None /\
   snd (run 0 (Abort ref_oe) Sample.finished)
   = Returns tt (with_ctxs [true] Sample.finished) [] /\
   idle Sample.fresh Sample.finalize) /\
  snd (run 0 (Abort ref_oe) Sample.fresh) = Returns tt Sample.fresh [] /\
  snd (run 0 (Abort ref_oe) (with_ctxs [true] Sample.finished))
  = Returns tt (with_ctxs [true] Sample.finished) [] /\
  (exists tr c1,
      steps (started Sample.fresh Sample.proposal
               (Abort ref_oe ;; Abort ref_oe)) tr c1 /\
      fg c1 = Ret tt).
Proof.
  split; [repeat split; reflexivity|].
  split; [|split].
  - destruct (@Abort_idempotent Sample.externals 0 Sample.fresh Sample.fresh []
                Sample.fresh Sample.finalize Sample.proposal)
      as (H & _). rewrite (H eq_refl). reflexivity.
  - destruct (@Abort_idempotent Sample.externals 0 Sample.finished
                (with_ctxs [true] Sample.finished) []
                Sample.fresh Sample.finalize Sample.proposal)
      as (_ & H & _). exact (H eq_refl).
  - destruct (@Abort_idempotent Sample.externals 0 Sample.fresh Sample.fresh []
                Sample.fresh Sample.finalize Sample.proposal)
      as (_ & _ & _ & H).
    exact (proj2 (H (conj eq_refl eq_refl)) [] _ (steps_refl _)).
Defined.

Lemma Reset_unconditional_witness :
  (mtx (oe Sample.running) = None /\
   stopCh (oe Sample.running) = Some 0 /\
   closed Sample.running 0 = false) /\
  exists w',
    snd (run 0 (Reset ref_oe) Sample.running) = Returns tt w' [] /\
    request (oe w') = None /\ closed w' 0 = false /\
    cancelFunc (oe w') = Some 0.
Proof.
  split; [repeat split; reflexivity|].
  destruct (@Reset_unconditional Sample.externals Sample.running 0
              eq_refl eq_refl eq_refl)
    as (w' & Hrun & Hrq & _ & _ & _ & _ & Hcl & Hcf & _).
  exists w'. split; [exact Hrun | split; [exact Hrq | split; [exact Hcl|]]].
  rewrite Hcf. reflexivity.
Defined.

Lemma lock_discipline_witness :
  (mtx (oe Sample.running) = None /\
   finalizeBlockFunc (oe Sample.running) = Some Sample.finalize /\
   request (oe Sample.running) = Some (snapshot Sample.proposal) /\
   cancelFunc (oe Sample.running) = Some 0 /\
   stopCh (oe Sample.running) = Some 0 /\
   nth_error (chans Sample.running) 0 = Some false) /\
  all_locked (fst (run 0 (Reset ref_oe) Sample.running)) = true /\
  all_locked (fst (run 0 (AbortIfNeeded ref_oe None) Sample.running)) = true.
Proof.
  split; [repeat split; reflexivity|].
  destruct (@lock_discipline Sample.externals Sample.running Sample.proposal
              None Sample.finalize (snapshot Sample.proposal) 0 0 0
              eq_refl eq_refl eq_refl eq_refl eq_refl eq_refl)
    as (_ & _ & H & H' & _).
  split; [exact H | exact H'].
Defined.

(** C5, counterexample.  [Execute] has started a run and its goroutine has
    not finished (the stop channel is open); [Reset] returns all the same,
    and the request and the initialized flag are gone. *)
Lemma Reset_clears_outstanding_run :
  let c := run_schedule (repeat 0 17)
             (started Sample.fresh Sample.proposal (Reset ref_oe)) in
  fg c = Ret tt /\
  bgs c = [goroutine 0] /\
  stopCh (oe (world c)) = Some 0 /\
  closed (world c) 0 = false /\
  request (oe Sample.running) = Some (snapshot Sample.proposal) /\
  initialized (oe Sample.running) = true /\
  request (oe (world c)) = None /\
  initialized (oe (world c)) = false.
Proof. vm_compute. repeat split. Qed.

(** What the missing guard lets happen: after that [Reset] the goroutine of
    the run calls finalize with a nil request and, having taken the mutex,
    dereferences the nil request for its log line and panics. *)
Example Reset_during_run_panics :
  let c := run_schedule (repeat 0 17 ++ repeat 1 7)
             (started Sample.fresh Sample.proposal (Reset ref_oe)) in
  crashed c = true /\ mtx (oe (world c)) = Some 1.
Proof. vm_compute. split; reflexivity. Qed.

(** C7, counterexample.  [WaitResult] reads the response and the error
    without holding the mutex. *)
Lemma WaitResult_reads_without_lock :
  run 0 (WaitResult ref_oe) Sample.finished
  = ([(EvLoad n_stopCh, false); (EvRecv 0, false);
      (EvLoad n_response, false); (EvLoad n_err, false)],
     Returns Sample.result Sample.finished []) /\
  all_locked (fst (run 0 (WaitResult ref_oe) Sample.finished)) = false.
Proof. split; reflexivity. Qed.

(** ** Calls outside a run *)

Section Edges.
Context {E : Externals}.

Lemma last_cons_default (l : list Z) (x d : Z) : last (x :: l) d = last l x.
Proof.
  revert x d. induction l as [|y l IH]; intros x d; [reflexivity|].
  change (last (x :: y :: l) d) with (last (y :: l) d).
  now rewrite !IH.
Qed.

Lemma options_last_rate (rates : list Z) (o0 : OptimisticExecution) :
  abortRate (fold_left (fun o opt => opt o) (map WithAbortRate rates) o0)
  = last rates (abortRate o0).
Proof.
  revert o0. induction rates as [|r rates IH]; intros o0.
  - reflexivity.
  - rewrite last_cons_default. cbn [map fold_left]. rewrite IH. reflexivity.
Qed.

(** X1. [NewOptimisticExecution] stores the finalize function, derives the
    logger with the module key set to "oe", and leaves mutex, stop channel
    and cancel function unset; of several [WithAbortRate] options the last
    one decides the abort rate, and without any the rate is 0. *)
Theorem NewOptimisticExecution_options (lg : Logger)
    (fn : option FinalizeBlockFunc) (rates : list Z) :
  let o := NewOptimisticExecution lg fn (map WithAbortRate rates) in
  abortRate o = last rates 0%Z /\
  finalizeBlockFunc o = fn /\
  logger o = logger_With lg ModuleKey "oe" /\
  mtx o = None /\ stopCh o = None /\ cancelFunc o = None.
Proof.
  unfold NewOptimisticExecution. cbv zeta.
  match goal with |- context [fold_left _ _ ?o0] =>
    pose proof (options_keep_fields rates o0) as Hk;
    pose proof (options_last_rate rates o0) as Hl end.
  cbv zeta in Hk. destruct Hk as (Hf & Hlg & Hm & Hs & _ & _ & _ & Hc & _).
  repeat split; assumption.
Qed.

(** The world [Execute] leaves behind when its request is nil. *)
Definition after_Execute_nil (w : World) : World :=
  with_chans (chans w ++ [false])
    (with_oe (set f_stopCh (Some (List.length (chans w))) (oe w)) w).

(** X2. [Execute] with a nil request panics, but only after it has taken
    the mutex, made a new stop channel and installed it; the deferred
    unlock releases the mutex, no goroutine is started, and the other fields
    are as before.  The channel it leaves installed is open, so a
    [WaitResult] called next waits on it. *)
Theorem Execute_nil_request (w : World) :
  mtx (oe w) = None ->
  run 0 (Execute ref_oe None) w
  = ([(EvLock, false); (EvMake (List.length (chans w)), true);
      (EvStore n_stopCh, true); (EvUnlock, true)],
     Panics (after_Execute_nil w)) /\
  closed (after_Execute_nil w) (List.length (chans w)) = false /\
  snd (run 0 (WaitResult ref_oe) (after_Execute_nil w))
  = Waits (after_Execute_nil w)
      (act (Recv (Some (List.length (chans w)))) ;;
       r <- act (Load f_response) ;; e <- act (Load f_err) ;; Ret (r, e)) [].
Proof.
  intros Hm. destruct w as [o cs xs rg].
  destruct o as [fn0 lg0 mx0 sc0 rq0 rs0 er0 cf0 in0 ar0]. cbn in Hm. subst.
  split; [reflexivity|]. split.
  - unfold closed. cbn. apply flag_snoc.
  - cbn. unfold closed. cbn. rewrite flag_snoc. reflexivity.
Qed.

(** X3. [AbortIfNeeded] on a struct that holds no request, because nothing
    was executed yet or because it was reset, panics on the nil request: it
    takes the mutex, reads the request, and the deferred unlock releases the
    mutex before the panic goes on; nothing is cancelled.  So [Reset]
    followed by [AbortIfNeeded] always panics. *)
Theorem AbortIfNeeded_without_request (w : World) (h : slice byte) :
  mtx (oe w) = None ->
  (request (oe w) = None ->
   run 0 (AbortIfNeeded ref_oe h) w
   = ([(EvLock, false); (EvLoad n_request, true); (EvUnlock, true)],
      Panics w)) /\
  snd (run 0 (Reset ref_oe ;; AbortIfNeeded ref_oe h) w)
  = Panics (after_Reset w).
Proof.
  intros Hm. destruct w as [o cs xs rg].
  destruct o as [fn0 lg0 mx0 sc0 rq0 rs0 er0 cf0 in0 ar0]. cbn in Hm. subst.
  split.
  - cbn. intros ->. reflexivity.
  - reflexivity.
Qed.

(** X4. [Reset] leaves the stop channel of the last run installed: when
    that channel is closed, a [WaitResult] called after [Reset] does not
    wait and returns a nil response with a nil error. *)
Theorem WaitResult_after_Reset (w : World) (ch : chan) :
  mtx (oe w) = None ->
  stopCh (oe w) = Some ch ->
  closed w ch = true ->
  snd (run 0 (Reset ref_oe ;; WaitResult ref_oe) w)
  = Returns (None, None) (after_Reset w) [].
Proof.
  intros Hm Hs Hc. destruct w as [o cs xs rg].
  destruct o as [fn0 lg0 mx0 sc0 rq0 rs0 er0 cf0 in0 ar0].
  cbn in Hm, Hs. unfold closed in Hc. cbn in Hc. subst.
  cbn. unfold closed. cbn. rewrite Hc. reflexivity.
Qed.

Lemma next_draw_range (w : World) : (0 <= next_draw w < 100)%Z.
Proof. unfold next_draw. apply Z.mod_pos_bound. lia. Qed.

(** X5. [AbortIfNeeded] asks the random source only when the hashes are
    equal and the abort rate is positive, and then takes exactly one draw.
    The rate acts as a percentage: with a rate of 100 or more the call
    aborts whatever the hash and the draw, and with a rate of 0 or less it
    aborts exactly when the hashes differ. *)
Theorem AbortIfNeeded_random_draw (w : World) (rq : FinalizeBlockRequest)
    (c : ctx) (h : slice byte) :
  mtx (oe w) = None ->
  request (oe w) = Some rq ->
  cancelFunc (oe w) = Some c ->
  let abort := negb (bytes_Equal (fb_Hash rq) h) || rate_fires w in
  (exists tr w',
     run 0 (AbortIfNeeded ref_oe h) w = (tr, Returns abort w' []) /\
     rng w' = if bytes_Equal (fb_Hash rq) h && (0 <? abortRate (oe w))%Z
              then tl (rng w) else rng w) /\
  ((100 <= abortRate (oe w))%Z -> abort = true) /\
  ((abortRate (oe w) <= 0)%Z -> abort = negb (bytes_Equal (fb_Hash rq) h)).
Proof.
  intros Hm Hr Hc abort. pose proof (next_draw_range w) as Hd.
  split; [|split].
  - unfold abort, rate_fires, next_draw.
    clear Hd. destruct w as [o cs xs rg].
    destruct o as [fn lg m s r rs er cf ini ar]. cbn in Hm, Hr, Hc. subst.
    cbn. destruct (bytes_Equal (fb_Hash rq) h); cbn.
    + destruct (0 <? ar)%Z; cbn.
      * destruct (hd 0%Z rg mod 100 <? ar)%Z; cbn;
          eexists; eexists; split; reflexivity.
      * eexists; eexists; split; reflexivity.
    + eexists; eexists; split; reflexivity.
  - intros Hrate. unfold abort, rate_fires.
    replace (0 <? abortRate (oe w))%Z with true by (symmetry; apply Z.ltb_lt; lia).
    replace (next_draw w <? abortRate (oe w))%Z with true
      by (symmetry; apply Z.ltb_lt; lia).
    apply orb_true_r.
  - intros Hrate. unfold abort, rate_fires.
    replace (0 <? abortRate (oe w))%Z with false by (symmetry; apply Z.ltb_ge; lia).
    apply orb_false_r.
Qed.

(** X6. On a struct on which [Execute] was never called the stop channel is
    nil, and a receive from a nil channel never completes: [WaitResult]
    reads the field and then waits for ever, whatever the schedule. *)
Theorem WaitResult_before_Execute (w : World) (tr : list (tid * Event))
    (c1 : Config Result) :
  stopCh (oe w) = None ->
  steps (Build_Config w (WaitResult ref_oe) [] false) tr c1 ->
  (forall r, fg c1 <> Ret r) /\ crashed c1 = false /\ world c1 = w /\
  List.length tr <= 1.
Proof.
  intros Hs Hsteps.
  inversion Hsteps as [|c0 c' c2 t e tr' Hstep Hrest]; subst.
  - repeat split; [discriminate | cbn; lia].
  - destruct t as [|i]; [|destruct i; discriminate].
    cbn in Hstep. injection Hstep as <- <-. rewrite Hs in Hrest.
    inversion Hrest as [|c0 c' c3 t e tr2 Hstep2 Hrest2]; subst.
    + repeat split; [discriminate | cbn; lia].
    + destruct t as [|i]; [|destruct i; discriminate]. discriminate.
Qed.

End Edges.

(** ** A run and the state of its context *)

Section Cancellation.
Context {E : Externals}.

Variables (f : FinalizeBlockFunc) (rq : FinalizeBlockRequest).
Variables (c : ctx) (ch : chan) (lg : Logger) (ar : Z).
Variable A : Type.
Variable Q : FinalizeOut -> bool -> bool -> A -> Prop.

(** The invariant of a run together with the state of its context: the
    context is cancelled exactly when the caller has called the cancel
    function, and finalize has seen a cancelled context only if the caller
    had called it by then. *)
Definition traced_at (j : nat) (obs held kc cn : bool) (c0 : Config A) : Prop :=
  inv_at f rq c ch lg ar Q j obs held kc cn c0 /\
  nth_error (ctxs (world c0)) c = Some cn /\
  (3 <= j -> obs = true -> cn = true).

Definition traced (c0 : Config A) : Prop :=
  exists (j : nat) (obs held kc cn : bool), traced_at j obs held kc cn c0.

Lemma caller_step_at (w : World) (p : Prog A) (bs : list (Prog unit))
    (e : Event) (c1 : Config A) (j : nat) (obs held kc cn : bool) :
  inv_at f rq c ch lg ar Q j obs held kc cn (Build_Config w p bs false) ->
  nth_error (ctxs w) c = Some cn ->
  cstep 0 (Build_Config w p bs false) = Some (e, c1) ->
  exists held' kc' cn',
    inv_at f rq c ch lg ar Q j obs held' kc' cn' c1 /\
    nth_error (ctxs (world c1)) c = Some cn' /\
    (cn = true -> cn' = true).
Proof.
  intros (_ & Hj & Hbg & Hri & Hkc & Hcn & Hfg) Hx Hstep.
  cbn [bgs world fg crashed] in *. subst bs.
  unfold cstep in Hstep; cbn [crashed world fg bgs] in Hstep.
  destruct p as [v| |X a k|body k]; cbn [tstep] in Hstep; try discriminate.
  - destruct (Hfg obs (fun _ => eq_refl)).
  - destruct a; cbn [exec] in Hstep; cbn [fg_ok act_ok] in Hfg.
    + (* Lock *)
      destruct (mtx (oe w)) eqn:Hm; [discriminate|].
      injection Hstep as <- <-. cbn [app].
      exists true, kc, cn. split; [|split; [exact Hx | auto]].
      apply inv_at_intro; try assumption.
      * eapply run_inv_lock; eassumption.
      * intros obs' Ho. apply (Hfg obs' Ho).
    + (* Unlock *)
      destruct (Hfg obs (fun _ => eq_refl)) as [-> _].
      destruct (mtx (oe w)) eqn:Hm; [|rewrite (ri_mtx Hri) in Hm; discriminate].
      injection Hstep as <- <-. cbn [app].
      exists false, kc, cn. split; [|split; [exact Hx | auto]].
      apply inv_at_intro; try assumption.
      * apply run_inv_unlock; assumption.
      * intros obs' Ho. apply (Hfg obs' Ho).
    + (* Load *)
      injection Hstep as <- <-. cbn [app].
      exists held, kc, cn. split; [|split; [exact Hx | auto]].
      apply inv_at_intro; try assumption.
      intros obs' Ho. apply (Hfg obs' Ho).
      eapply load_ok_now; [eassumption|].
      intros Hk. specialize (Hkc Hk). split; [assumption|].
      rewrite Ho by lia. reflexivity.
    + (* Store *) destruct (Hfg obs (fun _ => eq_refl)).
    + (* MakeChan *) destruct (Hfg obs (fun _ => eq_refl)).
    + (* Close *)
      exfalso. specialize (Hfg obs (fun _ => eq_refl)). destruct c0; exact Hfg.
    + (* Recv *)
      destruct c0 as [ch'|]; [|discriminate].
      destruct (Hfg obs (fun _ => eq_refl)) as (-> & -> & _).
      destruct (closed w ch) eqn:Hcl; [|discriminate].
      injection Hstep as <- <-. cbn [app].
      unfold closed, flag in Hcl. rewrite (ri_chan Hri) in Hcl.
      apply Nat.leb_le in Hcl.
      exists false, true, cn. split; [|split; [exact Hx | auto]].
      apply inv_at_intro; try assumption.
      * intros _. assumption.
      * intros obs' Ho. apply (Hfg obs' Ho).
    + (* WithCancel *) destruct (Hfg obs (fun _ => eq_refl)).
    + (* Cancel *)
      injection Hstep as <- <-. cbn [app].
      assert (Hx' : nth_error (set_nth c0 true (ctxs w)) c
                    = Some (cn || Nat.eqb c0 c)).
      { destruct (Nat.eqb_spec c0 c) as [->|Hne].
        - rewrite orb_true_r. eapply nth_error_set_nth_same; eassumption.
        - rewrite orb_false_r, nth_error_set_nth_other; assumption. }
      exists held, kc, (cn || Nat.eqb c0 c).
      split; [|split; [exact Hx' | intros ->; reflexivity]].
      apply inv_at_intro; try assumption.
      * apply run_inv_ctxs; [assumption|].
        apply nth_error_set_nth_some. exact (ri_ctx Hri).
      * cbn [ctxs with_ctxs]. intros Hc. rewrite Hx', Hc. reflexivity.
    + (* CallFinalize *) destruct (Hfg obs (fun _ => eq_refl)).
    + (* RandIntn *)
      injection Hstep as <- <-. cbn [app].
      exists held, kc, cn. split; [|split; [exact Hx | auto]].
      apply inv_at_intro; try assumption.
      * apply run_inv_rng; assumption.
      * intros obs' Ho. apply (Hfg obs' Ho).
    + (* Log *)
      injection Hstep as <- <-. cbn [app].
      exists held, kc, cn. split; [|split; [exact Hx | auto]].
      apply inv_at_intro; assumption.
  - destruct (Hfg obs (fun _ => eq_refl)).
Qed.

(** A step of the goroutine leaves the contexts alone; what finalize
    observes is the state of the context at its third step. *)
Lemma goroutine_step_ctx (w : World) (p : Prog A) (bs : list (Prog unit))
    (i : nat) (e : Event) (c1 : Config A) (j : nat) (obs held kc cn : bool) :
  inv_at f rq c ch lg ar Q j obs held kc cn (Build_Config w p bs false) ->
  cstep (S i) (Build_Config w p bs false) = Some (e, c1) ->
  exists obs',
    inv_at f rq c ch lg ar Q (S j) obs' held kc cn c1 /\
    ctxs (world c1) = ctxs w /\
    (j = 2 -> obs' = flag (ctxs w) c) /\
    (3 <= j -> obs' = obs).
Proof.
  intros (_ & Hj & Hbg & Hri & Hkc & Hcn & Hfg) Hstep.
  cbn [bgs world fg crashed] in *. subst bs.
  unfold cstep in Hstep; cbn [crashed world fg bgs] in Hstep.
  destruct i as [|i]; [|destruct i; discriminate].
  cbn [nth_error] in Hstep.
  destruct Hri as [Hfn Hlg Hsc Hrq Hcf Hin Har Hmx Hheld Hchan Hctx Hresp Herr].
  destruct w as [o cs xs rg].
  destruct o as [fn0 lg0 mx0 sc0 rq0 rs0 er0 cf0 in0 ar0].
  cbn [oe chans ctxs rng finalizeBlockFunc logger mtx stopCh request response err cancelFunc initialized abortRate] in *. subst.
  unfold mtx_of, in_lock, closed_at in *.
  split_nat j; cbn in Hstep, Hchan, Hheld;
    try rewrite Hchan in Hstep;
    (destruct held; cbn in Hstep;
     try discriminate; try (specialize (Hheld eq_refl); discriminate));
    injection Hstep as <- <-;
    (match goal with
    | Hj : 2 <= 13 |- _ => exists (flag xs c)
    | _ => exists obs
    end;
    split; [|cbn; repeat split; intros; first [reflexivity | lia]];
    apply (@inv_at_intro E f rq c ch lg ar A Q);
    [ lia
    | constructor; unfold mtx_of, in_lock, closed_at; cbn;
      try reflexivity; try assumption; try discriminate;
      try (intros; lia);
      try (intros _; first [apply Hresp | apply Herr]; lia);
      try (eapply nth_error_set_nth_same; eassumption)
    | intros Hk; specialize (Hkc Hk); lia
    | assumption
    | intros o Ho; apply Hfg; intros; first [lia | apply Ho; lia] ]).
Qed.

Lemma traced_step (c0 c1 : Config A) (t : tid) (e : Event) :
  traced c0 -> cstep t c0 = Some (e, c1) -> traced c1.
Proof.
  destruct c0 as [w p bs cr].
  intros (j & obs & held & kc & cn & Hat & Hx & Ho) Hstep.
  assert (cr = false) as -> by (destruct Hat as [H _]; exact H).
  cbn [world] in Hx. destruct t as [|i].
  - destruct (caller_step_at Hat Hx Hstep) as (held' & kc' & cn' & Hat' & Hx' & Hm).
    exists j, obs, held', kc', cn'. split; [exact Hat' | split; [exact Hx'|]].
    intros H3 Hobs. apply Hm. auto.
  - destruct (goroutine_step_ctx _ Hat Hstep) as (obs' & Hat' & Hc & H2 & H3).
    exists (S j), obs', held, kc, cn. split; [exact Hat' | split].
    + rewrite Hc. exact Hx.
    + intros Hj Hobs. destruct (Nat.eq_dec j 2) as [->|Hne].
      * rewrite (H2 eq_refl) in Hobs. unfold flag in Hobs.
        rewrite Hx in Hobs. exact Hobs.
      * assert (H3j : 3 <= j) by lia. rewrite (H3 H3j) in Hobs. auto.
Qed.

Lemma traced_steps (c0 c1 : Config A) (tr : list (tid * Event)) :
  steps c0 tr c1 -> traced c0 -> traced c1.
Proof.
  induction 1 as [|c0 c1 c2 t e tr Hstep _ IH]; intros Hinv; [assumption|].
  apply IH. eapply traced_step; eassumption.
Qed.

(** What is known when the caller has returned [v]. *)
Lemma traced_returned (c1 : Config A) (v : A) :
  traced c1 -> fg c1 = Ret v ->
  exists (j : nat) (obs held kc cn : bool),
    Q (f obs (Some rq)) kc cn v /\
    j <= 13 /\
    (kc = true -> 12 <= j) /\
    cancelled (world c1) c = cn /\
    (3 <= j -> obs = true -> cn = true) /\
    bgs c1 = [advance f rq c ch lg ar j (f obs (Some rq)) (goroutine c)] /\
    run_inv f rq c ch lg ar held j (f obs (Some rq)) (world c1) /\
    crashed c1 = false.
Proof.
  intros (j & obs & held & kc & cn & Hat & Hx & Ho) Hv.
  destruct Hat as (Hcr & Hj & Hbg & Hri & Hkc & Hcn & Hfg).
  exists j, obs, held, kc, cn. rewrite Hv in Hfg.
  specialize (Hfg obs (fun _ => eq_refl)). cbn in Hfg.
  unfold cancelled, flag. rewrite Hx. tauto.
Qed.

End Cancellation.

Section StartedTraced.
Context {E : Externals}.

Variable A : Type.
Variables (w0 : World) (f : FinalizeBlockFunc) (req : ProcessProposalRequest).
Variable rest : Prog A.
Hypothesis Hidle : idle w0 f.
Variable Q : FinalizeOut -> bool -> bool -> A -> Prop.

Hypothesis Hrest : forall obs,
  fg_ok f (snapshot req) (List.length (ctxs w0)) (List.length (chans w0))
    (logger (oe w0)) (abortRate (oe w0)) Q
    (f obs (Some (snapshot req))) true false false (act Unlock ;; rest).

Lemma pre_traced :
  traced f (snapshot req) (List.length (ctxs w0)) (List.length (chans w0))
    (logger (oe w0)) (abortRate (oe w0)) Q (pre w0 req rest 10).
Proof.
  destruct Hidle as [Hm Hf]. revert Hrest.
  unfold pre, started.
  destruct w0 as [o cs xs rg].
  destruct o as [fn0 lg0 mx0 sc0 rq0 rs0 er0 cf0 in0 ar0].
  cbn in Hm, Hf. subst. cbn.
  intros Hr.
  exists 0, false, true, false, false. split; [|split].
  - apply (@inv_at_intro E f (snapshot req) (List.length xs) (List.length cs)
             lg0 ar0 A Q) with (j := 0) (obs := false) (held := true)
                               (kc := false) (cn := false);
      try discriminate; try lia.
    + constructor; cbn; try reflexivity; try discriminate; try lia.
      * apply nth_error_snoc.
      * rewrite nth_error_snoc. discriminate.
    + intros obs' _. apply Hr.
  - cbn. apply nth_error_snoc.
  - intros H3. lia.
Qed.

Lemma started_traced (tr : list (tid * Event)) (c1 : Config A) :
  steps (started w0 req rest) tr c1 ->
  (exists m, m < 10 /\ c1 = pre w0 req rest m) \/
  traced f (snapshot req) (List.length (ctxs w0)) (List.length (chans w0))
    (logger (oe w0)) (abortRate (oe w0)) Q c1.
Proof.
  intros Hsteps.
  destruct (@pre_reach E A w0 f req rest Hidle 10 0 tr c1 eq_refl Hsteps)
    as [Hpre|[tr' Htr']].
  - left. assumption.
  - right. eapply traced_steps; [eassumption | apply pre_traced].
Qed.

(** No schedule makes such a caller or the goroutine panic. *)
Lemma started_safe (tr : list (tid * Event)) (c1 : Config A) :
  steps (started w0 req rest) tr c1 -> crashed c1 = false.
Proof.
  intros Hsteps.
  destruct (started_inv Hidle Hrest Hsteps) as [(m & Hm & ->)|Hinv].
  - exact (pre_not_crashed req rest Hidle Hm).
  - destruct Hinv as (j & obs & held & kc & cn & Hcr & _). exact Hcr.
Qed.

End StartedTraced.

(** ** A run that is observed, and a run that is aborted if needed *)

Section Observing.
Context {E : Externals}.

Variables (w0 : World) (f : FinalizeBlockFunc) (req : ProcessProposalRequest).
Hypothesis Hidle : idle w0 f.

Lemma initialized_ok (obs : bool) :
  fg_ok f (snapshot req) (List.length (ctxs w0)) (List.length (chans w0))
    (logger (oe w0)) (abortRate (oe w0))
    (fun _ _ _ b => b = true)
    (f obs (Some (snapshot req))) true false false
    (act Unlock ;; Initialized ref_oe).
Proof.
  cbn. split; [reflexivity|]. split; [reflexivity|].
  intros v ->. split; reflexivity.
Qed.

(** X7. Once [Execute] has returned, [Initialized] returns true whether the
    goroutine is still running or has finished: under every schedule the
    call does not panic and returns true, and from every state the system
    can get into it can still be brought to return. *)
Theorem Initialized_during_run :
  (forall tr c1 b,
      steps (started w0 req (Initialized ref_oe)) tr c1 ->
      fg c1 = Ret b -> b = true) /\
  (forall tr c1,
      steps (started w0 req (Initialized ref_oe)) tr c1 ->
      crashed c1 = false) /\
  (forall tr c1,
      steps (started w0 req (Initialized ref_oe)) tr c1 ->
      exists tr' c2, steps c1 tr' c2 /\ fg c2 = Ret true).
Proof.
  assert (Hret : forall tr c1 b,
      steps (started w0 req (Initialized ref_oe)) tr c1 ->
      fg c1 = Ret b -> b = true).
  { intros tr c1 b Hsteps Hret.
    destruct (started_inv Hidle initialized_ok Hsteps) as [(m & Hm & ->)|Hinv].
    - exfalso. exact (pre_running req (Initialized ref_oe) Hidle Hm Hret).
    - destruct (inv_returned Hinv Hret) as (j & obs & held & kc & cn & Hb & _).
      exact Hb. }
  split; [exact Hret | split].
  - intros tr c1. exact (started_safe Hidle initialized_ok (tr := tr) (c1 := c1)).
  - intros tr c1 Hsteps.
    destruct (started_live Hidle initialized_ok Hsteps) as (tr' & c2 & b & Hs & Hr).
    exists tr', c2. split; [exact Hs|].
    rewrite Hr. f_equal. eapply Hret; [|exact Hr].
    eapply steps_trans; eassumption.
Qed.

Lemma wait_quiet_ok (obs : bool) :
  fg_ok f (snapshot req) (List.length (ctxs w0)) (List.length (chans w0))
    (logger (oe w0)) (abortRate (oe w0))
    (fun out kc cn v => kc = true /\ cn = false /\ v = result_of out)
    (f obs (Some (snapshot req))) true false false
    (act Unlock ;; WaitResult ref_oe).
Proof.
  cbn. split; [reflexivity|]. intros v ->. do 2 (split; [reflexivity|]).
  intros r1 H1 e1 He1. rewrite (H1 eq_refl), (He1 eq_refl).
  repeat split.
Qed.

Lemma undisturbed_result (tr : list (tid * Event)) (c1 : Config Result)
    (r : Result) :
  steps (started w0 req (WaitResult ref_oe)) tr c1 ->
  fg c1 = Ret r ->
  r = result_of (f false (Some (snapshot req))) /\
  cancelled (world c1) (List.length (ctxs w0)) = false.
Proof.
  intros Hsteps Hret.
  destruct (started_traced Hidle wait_quiet_ok Hsteps) as [(m & Hm & ->)|Hinv].
  - exfalso. exact (pre_running req (WaitResult ref_oe) Hidle Hm Hret).
  - destruct (traced_returned Hinv Hret)
      as (j & obs & held & kc & cn & (Hk & Hc & Hv) & Hj & Hkc & Hx & Ho & _).
    specialize (Hkc Hk). subst cn. split; [|exact Hx].
    destruct obs; [|exact Hv].
    assert (H3 : 3 <= j) by lia. discriminate (Ho H3 eq_refl).
Qed.

(** X8. When nothing aborts the run, the finalize function runs on a
    context that is not cancelled: under every schedule of [Execute]
    followed by [WaitResult], what [WaitResult] returns is the response and
    error the finalize function computes for the snapshot of the proposal
    on a live context, and the context is still not cancelled then.  No
    schedule leads to a panic, and from every state the system can get
    into [WaitResult] can still be brought to return just that result. *)
Theorem WaitResult_without_abort :
  (forall tr c1 r,
      steps (started w0 req (WaitResult ref_oe)) tr c1 ->
      fg c1 = Ret r ->
      r = result_of (f false (Some (snapshot req))) /\
      cancelled (world c1) (List.length (ctxs w0)) = false) /\
  (forall tr c1,
      steps (started w0 req (WaitResult ref_oe)) tr c1 ->
      crashed c1 = false) /\
  (forall tr c1,
      steps (started w0 req (WaitResult ref_oe)) tr c1 ->
      exists tr' c2,
        steps c1 tr' c2 /\
        fg c2 = Ret (result_of (f false (Some (snapshot req)))) /\
        cancelled (world c2) (List.length (ctxs w0)) = false).
Proof.
  split; [|split].
  - exact undisturbed_result.
  - intros tr c1. exact (started_safe Hidle wait_quiet_ok (tr := tr) (c1 := c1)).
  - intros tr c1 Hsteps.
    destruct (started_live Hidle wait_quiet_ok Hsteps)
      as (tr' & c2 & r & Hs & Hr).
    destruct (undisturbed_result (steps_trans Hsteps Hs) Hr) as [-> Hx].
    exists tr', c2. split; [exact Hs | split; [exact Hr | exact Hx]].
Qed.

(** [AbortIfNeeded] followed by [WaitResult]. *)
Definition abort_if_needed_then_wait (h : slice byte) : Prog (bool * Result) :=
  b <- AbortIfNeeded ref_oe h ;;
  r <- WaitResult ref_oe ;;
  Ret (b, r).

Lemma abort_if_needed_then_wait_ok (h : slice byte) (obs : bool) :
  fg_ok f (snapshot req) (List.length (ctxs w0)) (List.length (chans w0))
    (logger (oe w0)) (abortRate (oe w0))
    (fun out kc cn v =>
       kc = true /\ fst v = cn /\ snd v = result_of out /\
       (bytes_Equal (pp_Hash req) h = false -> fst v = true) /\
       (bytes_Equal (pp_Hash req) h = true ->
        (abortRate (oe w0) <= 0)%Z -> fst v = false))
    (f obs (Some (snapshot req))) true false false
    (act Unlock ;; abort_if_needed_then_wait h).
Proof.
  cbn. split; [reflexivity|]. split; [reflexivity|]. intros v ->. cbn.
  destruct (bytes_Equal (pp_Hash req) h); cbn.
  - intros v ->. destruct (0 <? abortRate (oe w0))%Z eqn:Hr; cbn.
    + intros r v' ->. destruct (r <? abortRate (oe w0))%Z; cbn.
      * intros v ->. cbn. intros v ->. split; [reflexivity|].
        intros v ->. do 2 (split; [reflexivity|]).
        intros r1 H1 e1 He1. rewrite (H1 eq_refl), (He1 eq_refl). cbn.
        rewrite Nat.eqb_refl. repeat split; try discriminate.
        intros _ H. apply Z.ltb_lt in Hr. lia.
      * split; [reflexivity|].
        intros v ->. do 2 (split; [reflexivity|]).
        intros r1 H1 e1 He1. rewrite (H1 eq_refl), (He1 eq_refl). cbn.
        repeat split. discriminate.
    + split; [reflexivity|].
      intros v ->. do 2 (split; [reflexivity|]).
      intros r1 H1 e1 He1. rewrite (H1 eq_refl), (He1 eq_refl). cbn.
      repeat split. discriminate.
  - intros v ->. intros v ->. cbn. intros v ->. cbn. intros v ->. cbn.
    intros v ->. cbn.
    split; [reflexivity|].
    intros v ->. do 2 (split; [reflexivity|]).
    intros r1 H1 e1 He1. rewrite (H1 eq_refl), (He1 eq_refl). cbn.
    rewrite Nat.eqb_refl. repeat split. discriminate.
Qed.

(** X9. [AbortIfNeeded] followed by [WaitResult] during a run: the boolean
    says exactly whether the context of the run has been cancelled, and the
    finalize function has seen a cancelled context only if it is true.  So
    when [AbortIfNeeded] returns false, [WaitResult] returns the result of
    an undisturbed run.  The boolean is true on a hash mismatch and false
    on equal hashes with a non-positive abort rate.  No schedule leads to a
    panic, and from every state the system can get into both calls can
    still be brought to return. *)
Theorem AbortIfNeeded_then_WaitResult (h : slice byte) :
  (forall tr c1 b r,
      steps (started w0 req (abort_if_needed_then_wait h)) tr c1 ->
      fg c1 = Ret (b, r) ->
      cancelled (world c1) (List.length (ctxs w0)) = b /\
      (exists obs,
          r = result_of (f obs (Some (snapshot req))) /\
          (obs = true -> b = true)) /\
      (b = false -> r = result_of (f false (Some (snapshot req)))) /\
      (bytes_Equal (pp_Hash req) h = false -> b = true) /\
      (bytes_Equal (pp_Hash req) h = true ->
       (abortRate (oe w0) <= 0)%Z -> b = false)) /\
  (forall tr c1,
      steps (started w0 req (abort_if_needed_then_wait h)) tr c1 ->
      crashed c1 = false) /\
  (forall tr c1,
      steps (started w0 req (abort_if_needed_then_wait h)) tr c1 ->
      exists tr' c2 v, steps c1 tr' c2 /\ fg c2 = Ret v).
Proof.
  split; [|split].
  - intros tr c1 b r Hsteps Hret.
    destruct (started_traced Hidle (abort_if_needed_then_wait_ok h) Hsteps)
      as [(m & Hm & ->)|Hinv].
    + exfalso.
      exact (pre_running req (abort_if_needed_then_wait h) Hidle Hm Hret).
    + destruct (traced_returned Hinv Hret)
        as (j & obs & held & kc & cn & (Hk & Hb & Hr & Hne & Heq)
            & Hj & Hkc & Hx & Ho & _).
      cbn in Hb, Hr, Hne, Heq. specialize (Hkc Hk). subst cn r.
      assert (Hobs : obs = true -> b = true) by (intros H; apply Ho; [lia | exact H]).
      split; [exact Hx | split; [|split; [|split; assumption]]].
      * exists obs. split; [reflexivity | exact Hobs].
      * intros ->. destruct obs; [discriminate (Hobs eq_refl) | reflexivity].
  - intros tr c1.
    exact (started_safe Hidle (abort_if_needed_then_wait_ok h) (tr := tr) (c1 := c1)).
  - intros tr c1.
    exact (started_live Hidle (abort_if_needed_then_wait_ok h) (tr := tr) (c1 := c1)).
Qed.

End Observing.

(** ** One call after another *)

Section Sequencing.
Context {E : Externals}.

Variables A B : Type.
Variable K : A -> Prog B.

(** The system in which the caller goes on with [K] once its program has
    returned. *)
Definition followed (c : Config A) : Config B :=
  Build_Config (world c) (bind (fg c) K) (bgs c) (crashed c).

Lemma cstep_followed (t : tid) (c c1 : Config A) (e : Event) :
  cstep t c = Some (e, c1) -> cstep t (followed c) = Some (e, followed c1).
Proof.
  destruct c as [w p bs cr]. unfold cstep, followed. cbn.
  destruct cr; [discriminate|]. destruct t as [|i].
  - destruct p as [a| |X a k|body k]; cbn; try discriminate.
    + intros H. injection H as <- <-. reflexivity.
    + destruct (exec 0 a w) as [e' w' x| |]; intros H; try discriminate;
        injection H as <- <-; reflexivity.
    + intros H. injection H as <- <-. reflexivity.
  - destruct (nth_error bs i) as [q|]; [|discriminate].
    destruct (tstep (S i) w q); intros H; try discriminate;
      injection H as <- <-; reflexivity.
Qed.

Lemma steps_followed (c c1 : Config A) (tr : list (tid * Event)) :
  steps c tr c1 -> steps (followed c) tr (followed c1).
Proof.
  induction 1 as [|c c1 c2 t e tr Hstep _ IH]; [constructor|].
  econstructor; [apply cstep_followed; eassumption | exact IH].
Qed.

Lemma cstep_unfollowed (t : tid) (c : Config A) (d : Config B) (e : Event) :
  cstep t (followed c) = Some (e, d) ->
  (exists a, fg c = Ret a) \/
  (exists c1, cstep t c = Some (e, c1) /\ d = followed c1).
Proof.
  destruct c as [w p bs cr]. unfold cstep, followed. cbn.
  destruct cr; [discriminate|]. destruct t as [|i].
  - destruct p as [a| |X a k|body k]; cbn.
    + intros _. left. eauto.
    + intros H. injection H as <- <-. right. eexists. split; reflexivity.
    + destruct (exec 0 a w) as [e' w' x| |]; intros H; try discriminate;
        injection H as <- <-; right; eexists; split; reflexivity.
    + intros H. injection H as <- <-. right. eexists. split; reflexivity.
  - destruct (nth_error bs i) as [q|]; [|discriminate].
    destruct (tstep (S i) w q); intros H; try discriminate;
      injection H as <- <-; right; eexists; split; reflexivity.
Qed.

(** A run of [p] followed by [K] is a run of [p] and, if [p] has returned
    some [a] in it, a run of [K a] from there. *)
Lemma steps_bind (c : Config A) (d : Config B) (tr : list (tid * Event)) :
  steps (followed c) tr d ->
  (exists c1, steps c tr c1 /\ d = followed c1) \/
  (exists tr1 tr2 c1 a,
      tr = tr1 ++ tr2 /\ steps c tr1 c1 /\ fg c1 = Ret a /\
      steps (followed c1) tr2 d).
Proof.
  intros H. remember (followed c) as cB eqn:HcB. revert c HcB.
  induction H as [cB|cB cB1 d t e tr Hstep Hrest IH]; intros c ->.
  - left. exists c. split; [constructor | reflexivity].
  - destruct (cstep_unfollowed _ _ Hstep) as [[a Ha]|(c1 & Hc & ->)].
    + right. exists [], ((t, e) :: tr), c, a.
      split; [reflexivity | split; [constructor | split; [exact Ha|]]].
      econstructor; eassumption.
    + destruct (IH c1 eq_refl) as [(c2 & Hs & ->)|(tr1 & tr2 & c2 & a & -> & Hs & Ha & Hs2)].
      * left. exists c2. split; [econstructor; eassumption | reflexivity].
      * right. exists ((t, e) :: tr1), tr2, c2, a.
        split; [reflexivity | split; [econstructor; eassumption|]].
        split; assumption.
Qed.

End Sequencing.

(** ** Who holds the mutex *)

Section Balance.
Context {E : Externals}.

Definition lock_after {X : Type} (a : Act X) (held : bool) : bool :=
  match a with
  | Lock => true
  | Unlock => false
  | _ => held
  end.

(** Every path through the program ends with the mutex released by the
    thread running it, [held] telling whether it holds it now. *)
Fixpoint releases {A : Type} (held : bool) (p : Prog A) : Prop :=
  match p with
  | Ret _ => held = false
  | Panic => True
  | Do a k => forall x, releases (lock_after a held) (k x)
  | Go _ k => releases held k
  end.

Definition balanced {A : Type} (c : Config A) : Prop :=
  exists held, releases held (fg c) /\ (mtx (oe (world c)) = Some 0 -> held = true).

Lemma exec_mtx (t : tid) (X : Type) (a : Act X) (w w' : World) (e : Event) (x : X) :
  exec t a w = Next e w' x ->
  mtx (oe w') = match a with
                | Lock => Some t
                | Unlock => None
                | _ => mtx (oe w)
                end.
Proof.
  destruct a; cbn; try (intros H; injection H as <- <- <-; reflexivity).
  - destruct (mtx (oe w)); intros H; [discriminate|].
    injection H as <- <-. reflexivity.
  - destruct (mtx (oe w)); intros H; [|discriminate].
    injection H as <- <-. reflexivity.
  - intros H. injection H as <- <- <-. destruct f; reflexivity.
  - destruct c as [c|]; [|discriminate].
    destruct (nth_error (chans w) c) as [[|]|]; intros H; try discriminate.
    injection H as <- <-. reflexivity.
  - destruct c as [c|]; [|discriminate].
    destruct (closed w c); intros H; [|discriminate].
    injection H as <- <-. reflexivity.
Qed.

Lemma balanced_step (A : Type) (c c1 : Config A) (t : tid) (e : Event) :
  balanced c -> cstep t c = Some (e, c1) -> balanced c1.
Proof.
  destruct c as [w p bs cr]. intros (held & Hrel & Hm).
  unfold cstep. cbn in *. destruct cr; [discriminate|]. destruct t as [|i].
  - destruct p as [a| |X a k|body k]; cbn; try discriminate.
    + intros H. injection H as <- <-. exists held. split; assumption.
    + destruct (exec 0 a w) as [e' w' x| |] eqn:Hex; intros H; try discriminate;
        injection H as <- <-.
      * exists (lock_after a held). split; [apply Hrel|]. cbn.
        rewrite (exec_mtx _ _ _ Hex).
        destruct a; cbn; try exact Hm; try reflexivity; discriminate.
      * exists held. split; assumption.
    + intros H. injection H as <- <-. exists held. split; assumption.
  - destruct (nth_error bs i) as [q|]; [|discriminate].
    destruct q as [a| |X a k|body k]; cbn; try discriminate.
    + intros H. injection H as <- <-. exists held. split; assumption.
    + destruct (exec (S i) a w) as [e' w' x| |] eqn:Hex; intros H; try discriminate;
        injection H as <- <-.
      * exists held. split; [assumption|]. cbn.
        rewrite (exec_mtx _ _ _ Hex).
        destruct a; cbn; try exact Hm; discriminate.
      * exists held. split; assumption.
    + intros H. injection H as <- <-. exists held. split; assumption.
Qed.

Lemma balanced_steps (A : Type) (c c1 : Config A) (tr : list (tid * Event)) :
  steps c tr c1 -> balanced c -> balanced c1.
Proof.
  induction 1 as [|c c1 c2 t e tr Hstep _ IH]; intros Hb; [assumption|].
  apply IH. eapply balanced_step; eassumption.
Qed.

(** A caller whose program releases the mutex on every path does not hold
    it when it has returned. *)
Lemma balanced_returned (A : Type) (c : Config A) (v : A) :
  balanced c -> fg c = Ret v -> mtx (oe (world c)) <> Some 0.
Proof.
  intros (held & Hrel & Hm) Hv Hmx. rewrite Hv in Hrel. cbn in Hrel.
  rewrite (Hm Hmx) in Hrel. discriminate.
Qed.

Lemma started_balanced (A : Type) (w0 : World) (f : FinalizeBlockFunc)
    (req : ProcessProposalRequest) (p : Prog A) :
  idle w0 f -> releases false p -> balanced (started w0 req p).
Proof.
  intros [Hm _] Hp. exists false. split.
  - cbn. intros. exact Hp.
  - cbn. rewrite Hm. discriminate.
Qed.

End Balance.

(** ** [Reset] at the end of a run *)

Section Resetting.
Context {E : Externals}.

(** [Reset] called once the caller's program has returned [v]. *)
Definition then_Reset {A : Type} (v : A) : Prog A := Reset ref_oe ;; Ret v.

Variable A : Type.
Variables (w : World) (v : A).
Hypothesis Hfree : mtx (oe w) = None.

(** The caller's first [n] steps in [Reset], the goroutine having finished. *)
Definition resetting (n : nat) : Config A :=
  run_schedule (repeat 0 n) (Build_Config w (then_Reset v) [Ret tt] false).

Definition reset_done : Config A :=
  Build_Config (after_Reset w) (Ret v) [Ret tt] false.

Lemma resetting_succ (n : nat) (t : tid) (e : Event) (c1 : Config A) :
  n < 6 -> cstep t (resetting n) = Some (e, c1) -> c1 = resetting (S n).
Proof.
  intros Hn Hstep. unfold resetting in *.
  destruct w as [o cs xs rg].
  destruct o as [fn0 lg0 mx0 sc0 rq0 rs0 er0 cf0 in0 ar0].
  cbn in Hfree. subst.
  split_nat n; cbn in Hstep |- *;
    (destruct t as [|[|[|i]]]; cbn in Hstep; try discriminate);
    injection Hstep as <- <-; reflexivity.
Qed.

Lemma resetting_done : resetting 6 = reset_done.
Proof.
  unfold resetting, reset_done.
  destruct w as [o cs xs rg].
  destruct o as [fn0 lg0 mx0 sc0 rq0 rs0 er0 cf0 in0 ar0].
  cbn in Hfree. subst. reflexivity.
Qed.

Lemma reset_done_final (tr : list (tid * Event)) (c1 : Config A) :
  steps reset_done tr c1 -> c1 = reset_done.
Proof.
  intros Hsteps.
  inversion Hsteps as [|c0 c' c2 t e tr' Hstep Hrest]; subst; [reflexivity|].
  destruct t as [|[|[|i]]]; discriminate.
Qed.

Lemma resetting_reach (k n : nat) (tr : list (tid * Event)) (c1 : Config A) :
  n + k = 6 -> steps (resetting n) tr c1 ->
  exists m, m <= 6 /\ c1 = resetting m.
Proof.
  revert n tr. induction k as [|k IH]; intros n tr Hn Hsteps.
  - rewrite Nat.add_0_r in Hn. subst n. exists 6. split; [lia|].
    rewrite resetting_done in *. eapply reset_done_final; eassumption.
  - inversion Hsteps as [|c0 c' c2 t e tr' Hstep Hrest]; subst.
    + exists n. split; [lia | reflexivity].
    + apply resetting_succ in Hstep; [|lia]. subst c'.
      apply (IH (S n) tr'); [lia | assumption].
Qed.

Lemma resetting_facts (m : nat) :
  m <= 6 ->
  crashed (resetting m) = false /\
  (forall v', fg (resetting m) = Ret v' -> resetting m = reset_done) /\
  exists tr, steps (resetting m) tr reset_done.
Proof.
  intros Hm. split; [|split].
  - unfold resetting.
    destruct w as [o cs xs rg].
    destruct o as [fn0 lg0 mx0 sc0 rq0 rs0 er0 cf0 in0 ar0].
    cbn in Hfree. subst. split_nat m; reflexivity.
  - intros v'. rewrite <- resetting_done. unfold resetting.
    destruct w as [o cs xs rg].
    destruct o as [fn0 lg0 mx0 sc0 rq0 rs0 er0 cf0 in0 ar0].
    cbn in Hfree. subst. split_nat m; cbn; try discriminate. reflexivity.
  - assert (Heq : run_schedule (repeat 0 (6 - m)) (resetting m) = reset_done).
    { rewrite <- resetting_done. unfold resetting.
      destruct w as [o cs xs rg].
      destruct o as [fn0 lg0 mx0 sc0 rq0 rs0 er0 cf0 in0 ar0].
      cbn in Hfree. subst. split_nat m; reflexivity. }
    rewrite <- Heq. apply steps_run_schedule.
Qed.

End Resetting.

Section ResetTail.
Context {E : Externals}.

Variables (f : FinalizeBlockFunc) (rq : FinalizeBlockRequest).
Variables (c : ctx) (ch : chan) (lg : Logger) (ar : Z).
Variable A : Type.

(** The run is over for the caller, which does not hold the mutex and goes
    on with a program that starts by taking it; the goroutine has closed
    the stop channel.  Then either the goroutine still has its [Unlock] to
    do, the caller waiting for it, or the goroutine has finished and the
    caller is on its own. *)
Lemma handover (j : nat) (out : FinalizeOut) (w : World) (q : Prog A)
    (tr : list (tid * Event)) (c1 : Config A) :
  12 <= j <= 13 ->
  run_inv f rq c ch lg ar false j out w ->
  (exists k, q = Do Lock k) ->
  steps (Build_Config w q [advance f rq c ch lg ar j out (goroutine c)] false)
    tr c1 ->
  let c0 := Build_Config (with_oe (set_mtx None (oe w)) w) q [Ret tt] false in
  (crashed c1 = false /\ fg c1 = q /\ steps c1 [(1, EvUnlock)] c0) \/
  (exists tr', steps c0 tr' c1).
Proof.
  intros Hj Hri [k ->] Hsteps c0.
  pose proof (ri_mtx Hri) as Hmx.
  assert (j = 12 \/ j = 13) as [-> | ->] by lia.
  - (* the goroutine still holds the mutex *)
    cbn in Hmx.
    assert (Hu : cstep 1 (Build_Config w (Do Lock k) [act Unlock] false)
                 = Some (EvUnlock, c0)).
    { unfold cstep. cbn. rewrite Hmx. reflexivity. }
    change (advance f rq c ch lg ar 12 out (goroutine c))
      with (act (E := E) Unlock) in Hsteps.
    inversion Hsteps as [|cx c' c2 t e tr' Hstep Hrest]; subst.
    + left. split; [reflexivity | split; [reflexivity|]].
      econstructor; [exact Hu | constructor].
    + right. destruct t as [|[|i]].
      * unfold cstep in Hstep. cbn in Hstep. rewrite Hmx in Hstep. discriminate.
      * rewrite Hu in Hstep. injection Hstep as <- <-. eauto.
      * destruct i; discriminate.
  - (* the goroutine has finished *)
    right. cbn in Hmx.
    assert (Hw : w = with_oe (set_mtx None (oe w)) w).
    { destruct w as [o cs xs rg].
      destruct o as [fn0 lg0 mx0 sc0 rq0 rs0 er0 cf0 in0 ar0].
      cbn in Hmx. subst. reflexivity. }
    change (advance f rq c ch lg ar 13 out (goroutine c))
      with (Ret (E := E) tt) in Hsteps.
    unfold c0. rewrite <- Hw. eauto.
Qed.

Lemma handover_reach (j : nat) (out : FinalizeOut) (w : World) (q : Prog A) :
  12 <= j <= 13 ->
  run_inv f rq c ch lg ar false j out w ->
  (exists k, q = Do Lock k) ->
  exists tr,
    steps (Build_Config w q [advance f rq c ch lg ar j out (goroutine c)] false)
      tr (Build_Config (with_oe (set_mtx None (oe w)) w) q [Ret tt] false).
Proof.
  intros Hj Hri [k ->].
  pose proof (ri_mtx Hri) as Hmx.
  assert (j = 12 \/ j = 13) as [-> | ->] by lia; cbn in Hmx.
  - exists [(1, EvUnlock)]. econstructor; [|constructor].
    unfold cstep. cbn. rewrite Hmx. reflexivity.
  - exists [].
    assert (Hw : with_oe (set_mtx None (oe w)) w = w).
    { destruct w as [o cs xs rg].
      destruct o as [fn0 lg0 mx0 sc0 rq0 rs0 er0 cf0 in0 ar0].
      cbn in Hmx. subst. reflexivity. }
    rewrite Hw. constructor.
Qed.

(** The caller is about to call [Reset] without holding the mutex, and the
    goroutine has closed the stop channel: whatever the schedule, nothing
    panics, the caller can always be brought to the end of [Reset], and
    there the goroutine has finished. *)
Lemma reset_tail (j : nat) (out : FinalizeOut) (w : World) (v : A)
    (tr : list (tid * Event)) (c1 : Config A) :
  12 <= j <= 13 ->
  run_inv f rq c ch lg ar false j out w ->
  steps (Build_Config w (then_Reset v)
           [advance f rq c ch lg ar j out (goroutine c)] false) tr c1 ->
  let done := reset_done (with_oe (set_mtx None (oe w)) w) v in
  crashed c1 = false /\
  (forall v', fg c1 = Ret v' -> c1 = done) /\
  (exists tr', steps c1 tr' done).
Proof.
  intros Hj Hri Hsteps done.
  pose (w' := with_oe (set_mtx None (oe w)) w).
  assert (Hfree : mtx (oe w') = None) by reflexivity.
  assert (Hfrom0 : forall tr0 c0,
             steps (resetting w' v 0) tr0 c0 ->
             crashed c0 = false /\
             (forall v', fg c0 = Ret v' -> c0 = done) /\
             (exists tr', steps c0 tr' done)).
  { intros tr0 c0 H0.
    destruct (@resetting_reach E A w' v Hfree 6 0 tr0 c0 eq_refl H0) as (m & Hm & ->).
    exact (@resetting_facts E A w' v Hfree m Hm). }
  destruct (handover Hj Hri (ex_intro _ _ eq_refl) Hsteps)
    as [(Hcr & Hfg & Hu)|[tr' Htr']].
  - split; [exact Hcr | split].
    + intros v' Hv. rewrite Hfg in Hv. discriminate.
    + destruct (Hfrom0 [] _ (steps_refl _)) as (_ & _ & tr' & Htr').
      exists ([(1, EvUnlock)] ++ tr'). eapply steps_trans; [exact Hu | exact Htr'].
  - exact (Hfrom0 _ _ Htr').
Qed.

End ResetTail.

(** ** A whole cycle: [Execute], a program that waits for the run, [Reset] *)

Section Lifecycle.
Context {E : Externals}.

Variable A : Type.
Variables (w0 : World) (f : FinalizeBlockFunc) (req : ProcessProposalRequest).
Variable p : Prog A.
Hypothesis Hidle : idle w0 f.
Variable Q : FinalizeOut -> bool -> bool -> A -> Prop.

Hypothesis Hp : forall obs,
  fg_ok f (snapshot req) (List.length (ctxs w0)) (List.length (chans w0))
    (logger (oe w0)) (abortRate (oe w0)) Q
    (f obs (Some (snapshot req))) true false false (act Unlock ;; p).
Hypothesis Hwaits : forall out kc cn v, Q out kc cn v -> kc = true.
Hypothesis Hrel : releases false p.

(** The struct at the end of the cycle, [w] being the world in which the
    goroutine has closed the stop channel. *)
Definition cycle_end (w : World) (v : A) : Config A :=
  reset_done (with_oe (set_mtx None (oe w)) w) v.

(** What is known of [w]: the goroutine has stored what finalize returned
    having observed [obs], and the caller has cancelled the context or not,
    as [cn] says. *)
Definition run_over (obs cn : bool) (v : A) (w : World) : Prop :=
  Q (f obs (Some (snapshot req))) true cn v /\
  (obs = true -> cn = true) /\
  cancelled w (List.length (ctxs w0)) = cn /\
  exists j,
    12 <= j <= 13 /\
    run_inv f (snapshot req) (List.length (ctxs w0)) (List.length (chans w0))
      (logger (oe w0)) (abortRate (oe w0)) false j
      (f obs (Some (snapshot req))) w.

Lemma returned_run_over (tr : list (tid * Event)) (cm : Config A) (a : A) :
  steps (started w0 req p) tr cm -> fg cm = Ret a ->
  exists obs cn w j,
    run_over obs cn a w /\
    12 <= j <= 13 /\
    run_inv f (snapshot req) (List.length (ctxs w0)) (List.length (chans w0))
      (logger (oe w0)) (abortRate (oe w0)) false j
      (f obs (Some (snapshot req))) w /\
    cm
    = Build_Config w (Ret a)
        [advance f (snapshot req) (List.length (ctxs w0))
           (List.length (chans w0)) (logger (oe w0)) (abortRate (oe w0))
           j (f obs (Some (snapshot req)))
           (goroutine (List.length (ctxs w0)))] false.
Proof.
  intros Hsteps Hret.
  pose proof (balanced_returned
                (balanced_steps Hsteps (@started_balanced E A w0 f req p Hidle Hrel)) Hret)
    as Hmx.
  destruct (started_traced Hidle Hp Hsteps) as [(m & Hm & ->)|Htr].
  - exfalso. exact (pre_running req p Hidle Hm Hret).
  - destruct (traced_returned Htr Hret)
      as (j & obs & held & kc & cn & HQ & Hj & Hkc & Hx & Ho & Hbg & Hri & Hcr).
    pose proof (Hwaits HQ) as ->. specialize (Hkc eq_refl).
    assert (held = false) as ->.
    { destruct held; [|reflexivity]. exfalso. apply Hmx.
      rewrite (ri_mtx Hri). reflexivity. }
    exists obs, cn, (world cm), j.
    assert (Hj' : 12 <= j <= 13) by lia.
    split; [|split; [exact Hj' | split; [exact Hri|]]].
    + split; [exact HQ | split; [|split; [exact Hx|]]].
      * intros H. apply Ho; [lia | exact H].
      * exists j. split; assumption.
    + destruct cm as [w q bs cr]. cbn in Hret, Hbg, Hcr. subst.
      reflexivity.
Qed.

Lemma cycle (tr : list (tid * Event)) (c1 : Config A) :
  steps (started w0 req (v <- p ;; then_Reset v)) tr c1 ->
  crashed c1 = false /\
  (forall v, fg c1 = Ret v ->
     exists obs cn w, run_over obs cn v w /\ c1 = cycle_end w v) /\
  (exists tr' c2 v, steps c1 tr' c2 /\ fg c2 = Ret v).
Proof.
  intros Hsteps.
  change (started w0 req (v <- p ;; then_Reset v))
    with (followed then_Reset (started w0 req p)) in Hsteps.
  assert (Htail : forall tr1 cm a tr2 c2,
             steps (started w0 req p) tr1 cm -> fg cm = Ret a ->
             steps (followed then_Reset cm) tr2 c2 ->
             crashed c2 = false /\
             (forall v, fg c2 = Ret v ->
                exists obs cn w, run_over obs cn v w /\ c2 = cycle_end w v) /\
             (exists tr' c3 v, steps c2 tr' c3 /\ fg c3 = Ret v)).
  { intros tr1 cm a tr2 c2 Hs Hret Hs2.
    destruct (returned_run_over Hs Hret) as (obs & cn & w & j & Hov & Hj & Hri & Heq).
    subst cm. unfold followed in Hs2. cbn [world fg bgs crashed bind] in Hs2.
    destruct (reset_tail Hj Hri Hs2) as (Hcr & Hfin & tr' & Htr').
    split; [exact Hcr | split].
    - intros v Hv. exists obs, cn, w.
      pose proof (Hfin v Hv) as Hc2. subst c2.
      cbn in Hv. injection Hv as <-. split; [exact Hov | reflexivity].
    - exists tr'. eexists. exists a. split; [exact Htr' | reflexivity]. }
  destruct (steps_bind Hsteps)
    as [(cm & Hs & ->)|(tr1 & tr2 & cm & a & -> & Hs & Hret & Hs2)].
  - split; [exact (started_safe Hidle Hp Hs) | split].
    + intros v Hv. destruct cm as [w q bs cr]. cbn in Hv.
      destruct q as [a| | |]; discriminate.
    + destruct (started_live Hidle Hp Hs) as (tr' & c2 & a & Hs' & Hret).
      destruct (Htail _ _ a [] _ (steps_trans Hs Hs') Hret (steps_refl _))
        as (_ & _ & tr'' & c3 & v & Hs'' & Hv).
      exists (tr' ++ tr''), c3, v. split; [|exact Hv].
      eapply steps_trans; [apply steps_followed; exact Hs' | exact Hs''].
  - exact (Htail _ _ a _ _ Hs Hret Hs2).
Qed.

(** The struct at the end of the cycle: the four fields [Reset] clears are
    clear, the mutex is free and the finalize function in place, and the
    stop channel of the run, now closed, and its cancel function are still
    installed. *)
Lemma cycle_end_state (obs cn : bool) (v : A) (w : World) :
  run_over obs cn v w ->
  let w1 := world (cycle_end w v) in
  request (oe w1) = None /\ response (oe w1) = None /\ err (oe w1) = None /\
  initialized (oe w1) = false /\
  idle w1 f /\
  stopCh (oe w1) = Some (List.length (chans w0)) /\
  closed w1 (List.length (chans w0)) = true /\
  cancelFunc (oe w1) = Some (List.length (ctxs w0)) /\
  cancelled w1 (List.length (ctxs w0)) = cn /\
  bgs (cycle_end w v) = [Ret tt].
Proof.
  intros (_ & _ & Hx & j & Hj & Hri) w1. unfold w1, cycle_end, reset_done.
  cbn. repeat split.
  - exact (ri_fn Hri).
  - exact (ri_stopCh Hri).
  - unfold closed. cbn. unfold flag. rewrite (ri_chan Hri).
    assert (j = 12 \/ j = 13) as [-> | ->] by lia; reflexivity.
  - exact (ri_cancelFunc Hri).
  - exact Hx.
Qed.

End Lifecycle.

Section Cycles.
Context {E : Externals}.

Variables (w0 : World) (f : FinalizeBlockFunc) (req : ProcessProposalRequest).
Hypothesis Hidle : idle w0 f.

(** Going through a program path by path. *)
Ltac by_paths :=
  repeat (cbn; intros;
          match goal with
          | |- True => exact I
          | |- _ = _ => reflexivity
          | |- context [match ?x with _ => _ end] => destruct x
          end).

Lemma abort_if_needed_then_wait_releases (h : slice byte) :
  releases false (abort_if_needed_then_wait h).
Proof. by_paths. Qed.

(** X10. The cycle of a proposal that is decided: [Execute], then
    [AbortIfNeeded] and [WaitResult], then [Reset].  Under every schedule
    nothing panics and the caller can always be brought to the end.  At
    the end the goroutine has finished, request, response, error and the
    initialized flag are clear, the mutex is free and the finalize function
    in place, so that the struct is ready for the next [Execute]; the pair
    handed back is what [AbortIfNeeded] and [WaitResult] returned, the
    result being that of an undisturbed run when the boolean is false. *)
Theorem Reset_after_WaitResult (h : slice byte) (tr : list (tid * Event))
    (c1 : Config (bool * Result)) :
  steps (started w0 req (x <- abort_if_needed_then_wait h ;; then_Reset x))
    tr c1 ->
  crashed c1 = false /\
  (exists tr' c2 x, steps c1 tr' c2 /\ fg c2 = Ret x) /\
  (forall b r, fg c1 = Ret (b, r) ->
     bgs c1 = [Ret tt] /\
     request (oe (world c1)) = None /\ response (oe (world c1)) = None /\
     err (oe (world c1)) = None /\ initialized (oe (world c1)) = false /\
     idle (world c1) f /\
     cancelled (world c1) (List.length (ctxs w0)) = b /\
     (exists obs,
         r = result_of (f obs (Some (snapshot req))) /\
         (obs = true -> b = true)) /\
     (bytes_Equal (pp_Hash req) h = false -> b = true) /\
     (bytes_Equal (pp_Hash req) h = true ->
      (abortRate (oe w0) <= 0)%Z -> b = false)).
Proof.
  intros Hsteps.
  destruct (cycle Hidle (abort_if_needed_then_wait_ok w0 f req h)
              (fun out kc cn v H => proj1 H)
              (abort_if_needed_then_wait_releases h) Hsteps)
    as (Hcr & Hfin & Hlive).
  split; [exact Hcr | split; [exact Hlive|]].
  intros b r Hret.
  destruct (Hfin _ Hret) as (obs & cn & w & Hov & ->).
  destruct (cycle_end_state Hov)
    as (Hrq & Hrs & He & Hi & Hid & _ & _ & _ & Hx & Hbg).
  destruct Hov as ((_ & Hb & Hr & Hne & Heq) & Ho & _).
  cbn in Hb, Hr, Hne, Heq. subst cn r.
  repeat (split; [assumption|]).
  split; [|split; assumption].
  exists obs. split; [reflexivity | exact Ho].
Qed.

Lemma Abort_releases : releases false (Abort ref_oe).
Proof. by_paths. Qed.

(** X11. The cycle of a proposal that is given up: [Execute], then
    [Abort], then [Reset].  Under every schedule nothing panics and the
    caller can always be brought to the end.  At the end the context of the
    run is cancelled, the goroutine has finished, request, response, error
    and the initialized flag are clear, and the mutex is free with the
    finalize function in place. *)
Theorem Reset_after_Abort (tr : list (tid * Event)) (c1 : Config unit) :
  steps (started w0 req (x <- Abort ref_oe ;; then_Reset x)) tr c1 ->
  crashed c1 = false /\
  (exists tr' c2, steps c1 tr' c2 /\ fg c2 = Ret tt) /\
  (fg c1 = Ret tt ->
   bgs c1 = [Ret tt] /\
   cancelled (world c1) (List.length (ctxs w0)) = true /\
   request (oe (world c1)) = None /\ response (oe (world c1)) = None /\
   err (oe (world c1)) = None /\ initialized (oe (world c1)) = false /\
   idle (world c1) f).
Proof.
  intros Hsteps.
  destruct (cycle Hidle (abort_ok w0 f req) (fun out kc cn v H => proj1 H)
              Abort_releases Hsteps)
    as (Hcr & Hfin & tr' & c2 & [] & Hs & Hv).
  split; [exact Hcr | split; [eauto|]].
  intros Hret.
  destruct (Hfin _ Hret) as (obs & cn & w & Hov & ->).
  destruct (cycle_end_state Hov)
    as (Hrq & Hrs & He & Hi & Hid & _ & _ & _ & Hx & Hbg).
  destruct Hov as ((_ & ->) & _).
  repeat (split; [assumption|]). assumption.
Qed.

End Cycles.

(** ** Calls made while a run is outstanding *)

Section Misuse.
Context {E : Externals}.

Lemma replace_nth_same (X : Type) (l : list X) (i : nat) (x : X) :
  nth_error l i = Some x -> replace_nth i x l = l.
Proof.
  revert i; induction l as [|y l IH]; intros [|i] H; simpl in *;
    try discriminate.
  - injection H as ->. reflexivity.
  - f_equal. apply IH. assumption.
Qed.

Lemma nth_error_replace_nth (X : Type) (l : list X) (i : nat) (x y : X) :
  nth_error l i = Some x -> nth_error (replace_nth i y l) i = Some y.
Proof.
  revert i; induction l as [|z l IH]; intros [|i] H; simpl in *;
    try discriminate; [reflexivity | now apply IH].
Qed.

Lemma replace_nth_twice (X : Type) (l : list X) (i : nat) (x y : X) :
  replace_nth i y (replace_nth i x l) = replace_nth i y l.
Proof.
  revert i; induction l as [|z l IH]; intros [|i]; simpl;
    try reflexivity. now rewrite IH.
Qed.

(** The last call of the caller, run on its own. *)
Lemma caller_runs_last (A : Type) (p : Prog A) :
  forall (w w' : World) (a : A) (sp bs : list (Prog unit)),
    snd (run 0 p w) = Returns a w' sp ->
    exists tr,
      steps (Build_Config w p bs false) tr
            (Build_Config w' (Ret a) (bs ++ sp) false).
Proof.
  induction p as [A a0| A | A X a k IH | A body _ k IH];
    intros w w' r sp bs Hrun; simpl in Hrun.
  - injection Hrun as <- <- <-. exists []. rewrite app_nil_r. constructor.
  - discriminate.
  - destruct (exec 0 a w) as [e w1 x| |] eqn:Hex; try discriminate.
    destruct (run 0 (k x) w1) as [tr1 r1] eqn:Hr. simpl in Hrun. subst r1.
    destruct (IH x w1 w' r sp bs) as [tr Htr].
    { rewrite Hr. reflexivity. }
    exists ((0, e) :: tr). econstructor; [|exact Htr].
    unfold cstep. simpl. rewrite Hex. rewrite app_nil_r. reflexivity.
  - destruct (run 0 k w) as [tr1 r1] eqn:Hr. simpl in Hrun.
    destruct r1 as [a1 w1 sp1| |]; try discriminate.
    injection Hrun as <- <- <-.
    destruct (IH w w1 a1 sp1 (bs ++ [body])) as [tr Htr].
    { rewrite Hr. reflexivity. }
    exists ((0, EvGo) :: tr). econstructor.
    + unfold cstep. simpl. reflexivity.
    + rewrite <- app_assoc in Htr. exact Htr.
Qed.

(** The [i]-th goroutine run on its own to its end, the others not moving. *)
Lemma goroutine_runs_at (A : Type) :
  forall (q : Prog unit) (i : nat) (bs : list (Prog unit)) (w w' : World)
         (p : Prog A),
    nth_error bs i = Some q ->
    snd (run (S i) q w) = Returns tt w' [] ->
    exists tr,
      steps (Build_Config w p bs false) tr
            (Build_Config w' p (replace_nth i (Ret tt) bs) false).
Proof.
  fix IH 1. intros q i bs w w' p Hq Hrun.
  destruct q as [[]| | X a k | body k]; simpl in Hrun.
  - injection Hrun as <-. exists []. rewrite (replace_nth_same _ _ Hq).
    constructor.
  - discriminate.
  - destruct (exec (S i) a w) as [e w1 x| |] eqn:Hex; try discriminate.
    destruct (run (S i) (k x) w1) as [tr1 r1] eqn:Hr. simpl in Hrun. subst r1.
    destruct (IH (k x) i (replace_nth i (k x) bs) w1 w' p) as [tr Htr].
    { eapply nth_error_replace_nth; eassumption. }
    { rewrite Hr. reflexivity. }
    rewrite replace_nth_twice in Htr.
    exists ((S i, e) :: tr). econstructor; [|exact Htr].
    unfold cstep. simpl. rewrite Hq. simpl. rewrite Hex, app_nil_r. reflexivity.
  - destruct (run (S i) k w) as [tr1 r1] eqn:Hr. simpl in Hrun.
    destruct r1; discriminate.
Qed.

(** The [i]-th goroutine run on its own until it panics. *)
Lemma goroutine_panics_at (A : Type) :
  forall (q : Prog unit) (i : nat) (bs : list (Prog unit)) (w w' : World)
         (p : Prog A),
    nth_error bs i = Some q ->
    snd (run (S i) q w) = Panics w' ->
    exists tr c1,
      steps (Build_Config w p bs false) tr c1 /\
      crashed c1 = true /\ world c1 = w' /\ fg c1 = p.
Proof.
  fix IH 1. intros q i bs w w' p Hq Hrun.
  destruct q as [[]| | X a k | body k]; simpl in Hrun.
  - discriminate.
  - injection Hrun as <-.
    exists [(S i, EvPanic)], (Build_Config w p bs true).
    split; [|repeat split].
    econstructor; [|constructor].
    unfold cstep. simpl. rewrite Hq. reflexivity.
  - destruct (exec (S i) a w) as [e w1 x| |] eqn:Hex; try discriminate.
    + destruct (run (S i) (k x) w1) as [tr1 r1] eqn:Hr. simpl in Hrun. subst r1.
      destruct (IH (k x) i (replace_nth i (k x) bs) w1 w' p)
        as (tr & c1 & Htr & Hc).
      { eapply nth_error_replace_nth; eassumption. }
      { rewrite Hr. reflexivity. }
      exists ((S i, e) :: tr), c1. split; [|exact Hc].
      econstructor; [|exact Htr].
      unfold cstep. simpl. rewrite Hq. simpl. rewrite Hex, app_nil_r. reflexivity.
    + simpl in Hrun. injection Hrun as <-.
      exists [(S i, EvPanic)], (Build_Config w p bs true).
      split; [|repeat split].
      econstructor; [|constructor].
      unfold cstep. simpl. rewrite Hq. simpl. rewrite Hex. reflexivity.
  - destruct (run (S i) k w) as [tr1 r1] eqn:Hr. simpl in Hrun.
    destruct r1 as [| |w1]; try discriminate. injection Hrun as ->.
    destruct (IH k i (replace_nth i k bs ++ [body]) w w' p)
      as (tr & c1 & Htr & Hc).
    { rewrite nth_error_app1.
      - eapply nth_error_replace_nth; eassumption.
      - apply nth_error_Some.
        rewrite (nth_error_replace_nth _ _ k Hq). discriminate. }
    { rewrite Hr. reflexivity. }
    exists ((S i, EvGo) :: tr), c1. split; [|exact Hc].
    econstructor; [|exact Htr].
    unfold cstep. simpl. rewrite Hq. reflexivity.
Qed.

Variables (w0 : World) (f : FinalizeBlockFunc).
Hypothesis Hidle : idle w0 f.

(** X12. [Reset] called while the run is outstanding can make the
    goroutine panic: there is a schedule of [Execute] followed by [Reset]
    in which the goroutine, having been handed a nil request, takes the
    mutex and panics on the nil request in its log line, with the mutex
    still held and the stop channel still open. *)
Theorem Reset_during_run_can_panic (req : ProcessProposalRequest) :
  exists tr c1,
    steps (started w0 req (Reset ref_oe)) tr c1 /\
    crashed c1 = true /\
    fg c1 = Ret tt /\
    request (oe (world c1)) = None /\
    mtx (oe (world c1)) = Some 1 /\
    closed (world c1) (List.length (chans w0)) = false.
Proof.
  destruct Hidle as [Hm Hf].
  destruct (@caller_runs E unit unit (Execute ref_oe (Some req)) w0 _ tt _ []
              (fun _ => Reset ref_oe) (Execute_solo w0 req Hm)) as [tr1 H1].
  destruct (@caller_runs_last unit (Reset ref_oe) (after_Execute w0 req)
              (after_Reset (after_Execute w0 req)) tt []
              ([] ++ [goroutine (List.length (ctxs w0))])) as [tr2 H2].
  { rewrite Reset_solo by reflexivity. reflexivity. }
  destruct (@goroutine_panics_at unit (goroutine (List.length (ctxs w0))) 0
              [goroutine (List.length (ctxs w0))]
              (after_Reset (after_Execute w0 req))
              (with_oe (set_mtx (Some 1) (oe (after_Reset (after_Execute w0 req))))
                 (after_Reset (after_Execute w0 req)))
              (Ret tt) eq_refl)
    as (tr3 & c1 & H3 & Hcr & Hw & Hfg).
  { cbn. rewrite Hf. cbn. rewrite Hf. reflexivity. }
  exists (tr1 ++ tr2 ++ tr3), c1. split; [|split; [exact Hcr | split; [exact Hfg|]]].
  - eapply steps_trans; [exact H1|]. eapply steps_trans; [exact H2|].
    rewrite app_nil_r. exact H3.
  - rewrite Hw. cbn. repeat split. unfold closed. cbn. apply flag_snoc.
Qed.

(** The world after two calls of [Execute] in a row. *)
Definition after_Execute_twice (req1 req2 : ProcessProposalRequest) : World :=
  after_Execute (after_Execute w0 req1) req2.

(** X13. [Execute] called again while the previous run is outstanding can
    panic: the second call installs a new stop channel, and there is a
    schedule in which the goroutine of the first run closes that channel
    and the goroutine of the second run then panics closing it again,
    holding the mutex; the stop channel of the first run is never
    closed. *)
Theorem Execute_twice_can_panic (req1 req2 : ProcessProposalRequest) :
  exists tr c1,
    steps (started w0 req1 (Execute ref_oe (Some req2))) tr c1 /\
    crashed c1 = true /\
    fg c1 = Ret tt /\
    stopCh (oe (world c1)) = Some (S (List.length (chans w0))) /\
    closed (world c1) (S (List.length (chans w0))) = true /\
    closed (world c1) (List.length (chans w0)) = false /\
    mtx (oe (world c1)) = Some 2.
Proof.
  destruct Hidle as [Hm Hf].
  pose (c1 := List.length (ctxs w0)).
  pose (c2 := List.length (ctxs (after_Execute w0 req1))).
  pose (ch2 := List.length (chans (after_Execute w0 req1))).
  pose (w2 := after_Execute_twice req1 req2).
  destruct (@caller_runs E unit unit (Execute ref_oe (Some req1)) w0 _ tt _ []
              (fun _ => Execute ref_oe (Some req2)) (Execute_solo w0 req1 Hm))
    as [tr1 H1].
  destruct (@caller_runs_last unit (Execute ref_oe (Some req2))
              (after_Execute w0 req1) w2 tt [goroutine c2]
              ([] ++ [goroutine c1])) as [tr2 H2].
  { apply Execute_solo. reflexivity. }
  assert (Hch2 : nth_error (chans w2) ch2 = Some false).
  { unfold w2, after_Execute_twice, ch2. cbn. apply nth_error_snoc. }
  pose (w3 := after_goroutine w2 (f (cancelled w2 c1) (Some (snapshot req2))) ch2).
  destruct (@goroutine_runs_at unit (goroutine c1) 0
              (([] ++ [goroutine c1]) ++ [goroutine c2]) w2 w3 (Ret tt) eq_refl)
    as [tr3 H3].
  { apply goroutine_solo; try reflexivity; [exact Hf | exact Hch2]. }
  assert (Hcl : nth_error (chans w3) ch2 = Some true).
  { unfold w3. cbn [chans after_goroutine].
    eapply nth_error_set_nth_same. exact Hch2. }
  pose (w4 := with_oe (set_mtx (Some 2)
                         (set f_err (out_err (f (cancelled w3 c2) (Some (snapshot req2))))
                            (set f_response
                               (Some (response_of (f (cancelled w3 c2) (Some (snapshot req2)))))
                               (oe w3)))) w3).
  destruct (@goroutine_panics_at unit (goroutine c2) 1
              (replace_nth 0 (Ret tt) (([] ++ [goroutine c1]) ++ [goroutine c2]))
              w3 w4 (Ret tt) eq_refl)
    as (tr4 & cf & H4 & Hcr & Hw & Hfg).
  { cbn. rewrite Hf. cbn. cbn in Hcl. rewrite Hcl. reflexivity. }
  exists (tr1 ++ tr2 ++ tr3 ++ tr4), cf.
  split; [|split; [exact Hcr | split; [exact Hfg|]]].
  - eapply steps_trans; [exact H1|]. eapply steps_trans; [exact H2|].
    eapply steps_trans; [exact H3 | exact H4].
  - rewrite Hw.
    assert (Hlen : ch2 = S (List.length (chans w0))).
    { unfold ch2. cbn. rewrite length_app. cbn. lia. }
    rewrite <- Hlen. split; [reflexivity | split; [|split; [|reflexivity]]].
    + unfold closed, flag. cbn [chans w4 with_oe]. rewrite Hcl. reflexivity.
    + unfold closed, flag. cbn [chans w4 with_oe w3 after_goroutine].
      rewrite nth_error_set_nth_other by (rewrite Hlen; lia).
      unfold w2, after_Execute_twice. cbn.
      rewrite nth_error_app1 by (rewrite length_app; cbn; lia).
      rewrite nth_error_snoc. reflexivity.
Qed.

End Misuse.

(** ** A run after a run *)

Section Shift.
Context {E : Externals}.

(** Two worlds that differ at most in which thread holds the mutex. *)
Definition same_but_owner (w w' : World) : Prop :=
  set_mtx None (oe w) = set_mtx None (oe w') /\
  chans w = chans w' /\ ctxs w = ctxs w' /\ rng w = rng w' /\
  (mtx (oe w) = None <-> mtx (oe w') = None).

Lemma same_but_owner_refl (w : World) : same_but_owner w w.
Proof. repeat split; auto. Qed.

Definition same_result {X : Type} (r r' : ActResult X) : Prop :=
  match r, r' with
  | Next e w x, Next e' w' x' => e = e' /\ x = x' /\ same_but_owner w w'
  | Wait, Wait => True
  | Fatal, Fatal => True
  | _, _ => False
  end.

(** An action does the same whichever thread performs it, up to the owner
    of the mutex. *)
Lemma exec_shift (t t' : tid) (X : Type) (a : Act X) (w w' : World) :
  same_but_owner w w' -> same_result (exec t a w) (exec t' a w').
Proof.
  intros (Ho & Hc & Hx & Hr & Hm).
  destruct w as [o cs xs rg], w' as [o' cs' xs' rg']. cbn in Ho, Hc, Hx, Hr, Hm.
  subst cs' xs' rg'.
  destruct o as [fn0 lg0 mx0 sc0 rq0 rs0 er0 cf0 in0 ar0].
  destruct o' as [fn1 lg1 mx1 sc1 rq1 rs1 er1 cf1 in1 ar1].
  cbn in Ho, Hm. injection Ho as -> -> -> -> -> -> -> -> ->.
  assert (Hcase : (mx0 = None /\ mx1 = None) \/
                  (exists m0 m1, mx0 = Some m0 /\ mx1 = Some m1)).
  { destruct mx0 as [m0|], mx1 as [m1|]; eauto.
    - destruct Hm as [_ Hm]. discriminate (Hm eq_refl).
    - destruct Hm as [Hm _]. discriminate (Hm eq_refl). }
  clear Hm.
  destruct a; cbn.
  - destruct Hcase as [[-> ->]|(m0 & m1 & -> & ->)]; cbn; [|exact I].
    repeat split; intros; discriminate.
  - destruct Hcase as [[-> ->]|(m0 & m1 & -> & ->)]; cbn; [exact I|].
    repeat split; auto.
  - split; [reflexivity | split; [destruct f; reflexivity|]].
    repeat split; destruct Hcase as [[-> ->]|(m0 & m1 & -> & ->)];
      intros; auto; discriminate.
  - split; [reflexivity | split; [reflexivity|]].
    destruct f; cbn; repeat split;
      destruct Hcase as [[-> ->]|(m0 & m1 & -> & ->)];
      intros; auto; discriminate.
  - repeat split; destruct Hcase as [[-> ->]|(m0 & m1 & -> & ->)];
      intros; auto; discriminate.
  - destruct c as [c|]; [|exact I].
    destruct (nth_error cs c) as [[|]|]; cbn; try exact I.
    repeat split; destruct Hcase as [[-> ->]|(m0 & m1 & -> & ->)];
      intros; auto; discriminate.
  - destruct c as [c|]; [|exact I].
    unfold closed. cbn. destruct (flag cs c); cbn; [|exact I].
    repeat split; destruct Hcase as [[-> ->]|(m0 & m1 & -> & ->)];
      intros; auto; discriminate.
  - repeat split; destruct Hcase as [[-> ->]|(m0 & m1 & -> & ->)];
      intros; auto; discriminate.
  - repeat split; destruct Hcase as [[-> ->]|(m0 & m1 & -> & ->)];
      intros; auto; discriminate.
  - repeat split; destruct Hcase as [[-> ->]|(m0 & m1 & -> & ->)];
      intros; auto; discriminate.
  - repeat split; destruct Hcase as [[-> ->]|(m0 & m1 & -> & ->)];
      intros; auto; discriminate.
  - repeat split; destruct Hcase as [[-> ->]|(m0 & m1 & -> & ->)];
      intros; auto; discriminate.
Qed.

Variable A : Type.

(** The same system but for a goroutine that has finished, which comes
    first in the list of the one and is absent from the other. *)
Definition shifted (c c' : Config A) : Prop :=
  fg c = fg c' /\ bgs c = Ret tt :: bgs c' /\ crashed c = crashed c' /\
  same_but_owner (world c) (world c').

Definition shift (t : tid) : tid :=
  match t with
  | O => O
  | S i => S (S i)
  end.

Lemma cstep_shifted (c c' c1 : Config A) (t : tid) (e : Event) :
  shifted c c' -> cstep t c = Some (e, c1) ->
  exists c1', cstep (pred t) c' = Some (e, c1') /\ shifted c1 c1' /\ t <> 1.
Proof.
  destruct c as [w p bs cr], c' as [w' p' bs' cr'].
  intros (Hp & Hb & Hc & Hw). cbn in Hp, Hb, Hc, Hw. subst p' bs cr'.
  unfold cstep. cbn. destruct cr; [discriminate|].
  destruct t as [|[|i]]; cbn.
  - destruct p as [a| |X a k|body k]; cbn; try discriminate.
    + intros H. injection H as <- <-. eexists. split; [reflexivity|].
      split; [|discriminate]. repeat split; try reflexivity; apply Hw.
    + pose proof (exec_shift 0 0 a Hw) as Hs.
      destruct (exec 0 a w) as [e1 w1 x1| |], (exec 0 a w') as [e2 w2 x2| |];
        cbn in Hs; try contradiction; intros H; try discriminate;
        injection H as <- <-.
      * destruct Hs as (<- & <- & Hw1). eexists. split; [reflexivity|].
        split; [|discriminate]. repeat split; try reflexivity; apply Hw1.
      * eexists. split; [reflexivity|].
        split; [|discriminate]. repeat split; try reflexivity; apply Hw.
    + intros H. injection H as <- <-. eexists. split; [reflexivity|].
      split; [|discriminate]. repeat split; try reflexivity; apply Hw.
  - discriminate.
  - destruct (nth_error bs' i) as [q|]; [|discriminate].
    destruct q as [a| |X a k|body k]; cbn; try discriminate.
    + intros H. injection H as <- <-. eexists. split; [reflexivity|].
      split; [|discriminate]. repeat split; try reflexivity; apply Hw.
    + pose proof (exec_shift (S (S i)) (S i) a Hw) as Hs.
      destruct (exec (S (S i)) a w) as [e1 w1 x1| |],
               (exec (S i) a w') as [e2 w2 x2| |];
        cbn in Hs; try contradiction; intros H; try discriminate;
        injection H as <- <-.
      * destruct Hs as (<- & <- & Hw1). eexists. split; [reflexivity|].
        split; [|discriminate]. repeat split; try reflexivity; apply Hw1.
      * eexists. split; [reflexivity|].
        split; [|discriminate]. repeat split; try reflexivity; apply Hw.
    + intros H. injection H as <- <-. eexists. split; [reflexivity|].
      split; [|discriminate]. repeat split; try reflexivity; apply Hw.
Qed.

Lemma cstep_unshifted (c c' c1' : Config A) (t : tid) (e : Event) :
  shifted c c' -> cstep t c' = Some (e, c1') ->
  exists c1, cstep (shift t) c = Some (e, c1) /\ shifted c1 c1'.
Proof.
  destruct c as [w p bs cr], c' as [w' p' bs' cr'].
  intros (Hp & Hb & Hc & Hw). cbn in Hp, Hb, Hc, Hw. subst p' bs cr'.
  unfold cstep. cbn. destruct cr; [discriminate|].
  destruct t as [|i]; cbn.
  - destruct p as [a| |X a k|body k]; cbn; try discriminate.
    + intros H. injection H as <- <-. eexists. split; [reflexivity|].
      repeat split; try reflexivity; apply Hw.
    + pose proof (exec_shift 0 0 a Hw) as Hs.
      destruct (exec 0 a w) as [e1 w1 x1| |], (exec 0 a w') as [e2 w2 x2| |];
        cbn in Hs; try contradiction; intros H; try discriminate;
        injection H as <- <-.
      * destruct Hs as (<- & <- & Hw1). eexists. split; [reflexivity|].
        repeat split; try reflexivity; apply Hw1.
      * eexists. split; [reflexivity|].
        repeat split; try reflexivity; apply Hw.
    + intros H. injection H as <- <-. eexists. split; [reflexivity|].
      repeat split; try reflexivity; apply Hw.
  - destruct (nth_error bs' i) as [q|]; [|discriminate].
    destruct q as [a| |X a k|body k]; cbn; try discriminate.
    + intros H. injection H as <- <-. eexists. split; [reflexivity|].
      repeat split; try reflexivity; apply Hw.
    + pose proof (exec_shift (S (S i)) (S i) a Hw) as Hs.
      destruct (exec (S (S i)) a w) as [e1 w1 x1| |],
               (exec (S i) a w') as [e2 w2 x2| |];
        cbn in Hs; try contradiction; intros H; try discriminate;
        injection H as <- <-.
      * destruct Hs as (<- & <- & Hw1). eexists. split; [reflexivity|].
        repeat split; try reflexivity; apply Hw1.
      * eexists. split; [reflexivity|].
        repeat split; try reflexivity; apply Hw.
    + intros H. injection H as <- <-. eexists. split; [reflexivity|].
      repeat split; try reflexivity; apply Hw.
Qed.

Lemma steps_shifted (c c1 : Config A) (tr : list (tid * Event)) :
  steps c tr c1 -> forall c', shifted c c' ->
  exists tr' c1', steps c' tr' c1' /\ shifted c1 c1'.
Proof.
  induction 1 as [c|c c1 c2 t e tr Hstep _ IH]; intros c' Hsh.
  - exists [], c'. split; [constructor | exact Hsh].
  - destruct (@cstep_shifted _ _ _ _ _ Hsh Hstep) as (c1' & Hs' & Hsh1 & _).
    destruct (IH c1' Hsh1) as (tr' & c2' & Hs2 & Hsh2).
    exists ((pred t, e) :: tr'), c2'. split; [|exact Hsh2].
    econstructor; eassumption.
Qed.

Lemma steps_unshifted (c' c1' : Config A) (tr : list (tid * Event)) :
  steps c' tr c1' -> forall c, shifted c c' ->
  exists tr' c1, steps c tr' c1 /\ shifted c1 c1'.
Proof.
  induction 1 as [c'|c' c1' c2' t e tr Hstep _ IH]; intros c Hsh.
  - exists [], c. split; [constructor | exact Hsh].
  - destruct (@cstep_unshifted _ _ _ _ _ Hsh Hstep) as (c1 & Hs & Hsh1).
    destruct (IH c1 Hsh1) as (tr' & c2 & Hs2 & Hsh2).
    exists ((shift t, e) :: tr'), c2. split; [|exact Hsh2].
    econstructor; eassumption.
Qed.

End Shift.

Section NextRun.
Context {E : Externals}.

Variables A B : Type.
Variables (w0 : World) (f : FinalizeBlockFunc).
Variables (req req2 : ProcessProposalRequest).
Variable p : Prog A.
Variable rest2 : A -> Prog B.
Hypothesis Hidle : idle w0 f.
Variable Q : FinalizeOut -> bool -> bool -> A -> Prop.

Hypothesis Hp : forall obs,
  fg_ok f (snapshot req) (List.length (ctxs w0)) (List.length (chans w0))
    (logger (oe w0)) (abortRate (oe w0)) Q
    (f obs (Some (snapshot req))) true false false (act Unlock ;; p).
Hypothesis Hwaits : forall out kc cn v, Q out kc cn v -> kc = true.
Hypothesis Hrel : releases false p.

(** The world in which the next run starts, [w] being the world in which
    the goroutine of this one has closed the stop channel. *)
Definition handed_over (w : World) : World := with_oe (set_mtx None (oe w)) w.

Lemma run_over_idle (obs cn : bool) (a : A) (w : World) :
  run_over w0 f req Q obs cn a w -> idle (handed_over w) f.
Proof.
  intros (_ & _ & _ & j & _ & Hri). split; [reflexivity | exact (ri_fn Hri)].
Qed.

(** The caller has [p] followed by a second [Execute].  In every state the
    system can get into, either the second [Execute] has not started,
    nothing has panicked and the second run can still be started, or the
    system is, but for the finished goroutine of the first run, in a state
    of the second run started on its own. *)
Lemma next_run (tr : list (tid * Event)) (c1 : Config B) :
  steps (started w0 req (a <- p ;; Execute ref_oe (Some req2) ;; rest2 a))
    tr c1 ->
  (crashed c1 = false /\ (forall v, fg c1 <> Ret v) /\
   exists a obs cn w tr1 c2,
     run_over w0 f req Q obs cn a w /\ steps c1 tr1 c2 /\
     shifted c2 (started (handed_over w) req2 (rest2 a))) \/
  (exists a obs cn w tr' c1',
      run_over w0 f req Q obs cn a w /\
      steps (started (handed_over w) req2 (rest2 a)) tr' c1' /\
      shifted c1 c1').
Proof.
  intros Hsteps.
  pose (K := fun a : A => Execute ref_oe (Some req2) ;; rest2 a).
  change (started w0 req (a <- p ;; Execute ref_oe (Some req2) ;; rest2 a))
    with (followed K (started w0 req p)) in Hsteps.
  assert (Hlock : forall a, exists k, K a = Do Lock k).
  { intros a. eexists. reflexivity. }
  assert (Hsh : forall w a,
             shifted (Build_Config (handed_over w) (K a) [Ret tt] false)
                     (started (handed_over w) req2 (rest2 a))).
  { intros w a. repeat split; auto. }
  destruct (steps_bind Hsteps)
    as [(cm & Hs & ->)|(tr1 & tr2 & cm & a & -> & Hs & Hret & Hs2)].
  - left. split; [exact (started_safe Hidle Hp Hs) | split].
    + intros v. destruct cm as [w q bs cr]. cbn.
      destruct q as [a| | |]; discriminate.
    + destruct (started_live Hidle Hp Hs) as (tr' & c2 & a & Hs' & Hret).
      destruct (returned_run_over Hidle Hp Hwaits Hrel (steps_trans Hs Hs') Hret)
        as (obs & cn & w & j & Hov & Hj & Hri & Heq).
      destruct (handover_reach Hj Hri (Hlock a)) as [tr0 Htr0].
      exists a, obs, cn, w, (tr' ++ tr0),
        (Build_Config (handed_over w) (K a) [Ret tt] false).
      split; [exact Hov | split; [|apply Hsh]].
      eapply steps_trans; [apply steps_followed; exact Hs'|].
      rewrite Heq. exact Htr0.
  - destruct (returned_run_over Hidle Hp Hwaits Hrel Hs Hret)
      as (obs & cn & w & j & Hov & Hj & Hri & Heq).
    subst cm. unfold followed in Hs2. cbn [world fg bgs crashed bind] in Hs2.
    destruct (handover Hj Hri (Hlock a) Hs2) as [(Hcr & Hfg & Hu)|[tr' Htr']].
    + left. split; [exact Hcr | split].
      * intros v. rewrite Hfg. discriminate.
      * exists a, obs, cn, w, [(1, EvUnlock)],
          (Build_Config (handed_over w) (K a) [Ret tt] false).
        split; [exact Hov | split; [exact Hu | apply Hsh]].
    + right.
      destruct (steps_shifted Htr' (Hsh w a)) as (tr'' & c1' & Hs'' & Hsh').
      exists a, obs, cn, w, tr'', c1'.
      split; [exact Hov | split; assumption].
Qed.

End NextRun.

Section SecondRun.
Context {E : Externals}.

Variables (f : FinalizeBlockFunc) (req2 : ProcessProposalRequest).

(** A system that is, but for a finished goroutine, in a state of a run
    started on its own and observed by [WaitResult]. *)
Lemma shifted_run (w : World) (tr : list (tid * Event))
    (c c' : Config Result) :
  idle w f ->
  steps (started w req2 (WaitResult ref_oe)) tr c' ->
  shifted c c' ->
  crashed c = false /\
  (forall r, fg c = Ret r -> r = result_of (f false (Some (snapshot req2)))) /\
  (exists tr' c2,
      steps c tr' c2 /\
      fg c2 = Ret (result_of (f false (Some (snapshot req2))))).
Proof.
  intros Hid Hs' Hsh.
  pose proof Hsh as (Hfg & _ & Hcr & _).
  split; [|split].
  - rewrite Hcr. exact (started_safe Hid (wait_quiet_ok w f req2) Hs').
  - intros r Hr. rewrite Hfg in Hr.
    exact (proj1 (undisturbed_result Hid Hs' Hr)).
  - destruct (started_live Hid (wait_quiet_ok w f req2) Hs')
      as (tr2 & c2' & r & Hs2 & Hr).
    destruct (steps_unshifted Hs2 Hsh) as (tr3 & c2 & Hs3 & Hsh2).
    exists tr3, c2. split; [exact Hs3|].
    destruct Hsh2 as (Hfg2 & _). rewrite Hfg2, Hr. f_equal.
    exact (proj1 (undisturbed_result Hid (steps_trans Hs' Hs2) Hr)).
Qed.

Variables (w0 : World) (req1 : ProcessProposalRequest).
Hypothesis Hidle : idle w0 f.

(** X14. A run started after [Abort] is a run of its own: under every
    schedule of [Execute], [Abort], a second [Execute] and [WaitResult],
    nothing panics, what [WaitResult] returns is the response and error
    the finalize function computes for the snapshot of the second proposal
    on a context that is not cancelled, and from every state the system can
    get into [WaitResult] can still be brought to return just that. *)
Theorem run_after_Abort (tr : list (tid * Event)) (c1 : Config Result) :
  steps (started w0 req1
           (Abort ref_oe ;; Execute ref_oe (Some req2) ;; WaitResult ref_oe))
    tr c1 ->
  crashed c1 = false /\
  (forall r, fg c1 = Ret r -> r = result_of (f false (Some (snapshot req2)))) /\
  (exists tr' c2,
      steps c1 tr' c2 /\
      fg c2 = Ret (result_of (f false (Some (snapshot req2))))).
Proof.
  intros Hsteps.
  destruct (next_run req2 (fun _ => WaitResult ref_oe) Hidle (abort_ok w0 f req1)
              (fun out kc cn v H => proj1 H) Abort_releases Hsteps)
    as [(Hcr & Hnot & a & obs & cn & w & tr1 & c2 & Hov & Hs1 & Hsh)
       |(a & obs & cn & w & tr' & c1' & Hov & Hs' & Hsh)].
  - split; [exact Hcr | split].
    + intros r Hr. destruct (Hnot r Hr).
    + destruct (shifted_run (run_over_idle Hov) (steps_refl _) Hsh)
        as (_ & _ & tr2 & c3 & Hs3 & Hr).
      exists (tr1 ++ tr2), c3. split; [|exact Hr].
      eapply steps_trans; eassumption.
  - exact (shifted_run (run_over_idle Hov) Hs' Hsh).
Qed.

(** X15. A run started after a whole cycle is a run of its own: under
    every schedule of [Execute], [AbortIfNeeded], [WaitResult] and [Reset]
    followed by a second [Execute] and [WaitResult], nothing panics, what
    the second [WaitResult] returns is the response and error the finalize
    function computes for the snapshot of the second proposal on a context
    that is not cancelled, whether or not the first run was aborted, and
    from every state the system can get into it can still be brought to
    return just that. *)
Theorem run_after_cycle (h : slice byte) (tr : list (tid * Event))
    (c1 : Config Result) :
  steps (started w0 req1
           ((x <- abort_if_needed_then_wait h ;; then_Reset x) ;;
            Execute ref_oe (Some req2) ;; WaitResult ref_oe))
    tr c1 ->
  crashed c1 = false /\
  (forall r, fg c1 = Ret r -> r = result_of (f false (Some (snapshot req2)))) /\
  (exists tr' c2,
      steps c1 tr' c2 /\
      fg c2 = Ret (result_of (f false (Some (snapshot req2))))).
Proof.
  intros Hsteps.
  pose (K := fun _ : bool * Result =>
               Execute ref_oe (Some req2) ;; WaitResult ref_oe).
  change (started w0 req1
            ((x <- abort_if_needed_then_wait h ;; then_Reset x) ;;
             Execute ref_oe (Some req2) ;; WaitResult ref_oe))
    with (followed K (started w0 req1
                        (x <- abort_if_needed_then_wait h ;; then_Reset x)))
    in Hsteps.
  pose proof (fun tr0 c0 =>
                @cycle E _ w0 f req1 (abort_if_needed_then_wait h) Hidle _
                  (abort_if_needed_then_wait_ok w0 f req1 h)
                  (fun out kc cn v H => proj1 H)
                  (abort_if_needed_then_wait_releases h) tr0 c0) as Hcycle.
  assert (Hend : forall Q obs cn w (v : bool * Result),
             run_over w0 f req1 Q obs cn v w ->
             idle (world (cycle_end w v)) f /\
             shifted (followed K (cycle_end w v))
                     (started (world (cycle_end w v)) req2 (WaitResult ref_oe))).
  { intros Q obs cn w v Hov.
    destruct (cycle_end_state Hov) as (_ & _ & _ & _ & Hid & _).
    split; [exact Hid|]. repeat split; auto. }
  destruct (steps_bind Hsteps)
    as [(cm & Hs & ->)|(tr1 & tr2 & cm & a & -> & Hs & Hret & Hs2)].
  - destruct (Hcycle _ _ Hs) as (Hcr & _ & tr' & c2 & v & Hs' & Hv).
    split; [exact Hcr | split].
    + intros r. destruct cm as [w q bs cr]. cbn.
      destruct q as [a| | |]; discriminate.
    + destruct (Hcycle _ _ (steps_trans Hs Hs')) as (_ & Hfin & _).
      destruct (Hfin v Hv) as (obs & cn & w & Hov & ->).
      destruct (Hend _ _ _ _ _ Hov) as [Hid Hsh].
      destruct (shifted_run Hid (steps_refl _) Hsh)
        as (_ & _ & tr2 & c3 & Hs3 & Hr).
      exists (tr' ++ tr2), c3. split; [|exact Hr].
      eapply steps_trans; [apply steps_followed; exact Hs' | exact Hs3].
  - destruct (Hcycle _ _ Hs) as (_ & Hfin & _).
    destruct (Hfin a Hret) as (obs & cn & w & Hov & ->).
    destruct (Hend _ _ _ _ _ Hov) as [Hid Hsh].
    destruct (steps_shifted Hs2 Hsh) as (tr'' & c1' & Hs'' & Hsh').
    exact (shifted_run Hid Hs'' Hsh').
Qed.

End SecondRun.

(** ** The order of [Abort]: cancel first, then wait *)

Section AbortOrder.
Context {E : Externals}.

(** The caller's program after [i] steps of an [Abort] called during the
    run with context [c] and stop channel [ch]; step 0 is the [Unlock]
    that ends [Execute]. *)
Definition abort_at (c : ctx) (ch : chan) (i : nat) : Prog unit :=
  match i with
  | 0 => act Unlock ;; Abort ref_oe
  | 1 => Abort ref_oe
  | 2 => call_cancelFunc false ;; ch' <- act (Load f_stopCh) ;; act (Recv ch')
  | 3 => act (Cancel c) ;; ch' <- act (Load f_stopCh) ;; act (Recv ch')
  | 4 => ch' <- act (Load f_stopCh) ;; act (Recv ch')
  | 5 => act (Recv (Some ch))
  | _ => Ret tt
  end.

(** [Abort] run on its own with a cancel function installed: it cancels
    and only then receives. *)
Lemma Abort_solo_order (t : tid) (w : World) (c : ctx) (ch : chan) :
  cancelFunc (oe w) = Some c ->
  stopCh (oe w) = Some ch ->
  let w' := with_ctxs (set_nth c true (ctxs w)) w in
  run t (Abort ref_oe) w
  = if closed w ch
    then ([(EvLoad n_cancelFunc, holds t w); (EvLoad n_cancelFunc, holds t w);
           (EvCancel c, holds t w); (EvLoad n_stopCh, holds t w);
           (EvRecv ch, holds t w)],
          Returns tt w' [])
    else ([(EvLoad n_cancelFunc, holds t w); (EvLoad n_cancelFunc, holds t w);
           (EvCancel c, holds t w); (EvLoad n_stopCh, holds t w)],
          Waits w' (act (Recv (Some ch))) []).
Proof.
  intros Hc Hs. destruct w as [o cs xs rg].
  destruct o as [fn0 lg0 mx0 sc0 rq0 rs0 er0 cf0 in0 ar0].
  cbn in Hc, Hs. subst. cbn. unfold closed. cbn.
  destruct (flag cs ch); reflexivity.
Qed.

(** A call of the caller that ends up waiting when run on its own. *)
Lemma caller_waits (A : Type) (p : Prog A) :
  forall (w w' : World) (p' : Prog A) (sp bs : list (Prog unit)),
    snd (run 0 p w) = Waits w' p' sp ->
    exists tr,
      steps (Build_Config w p bs false) tr
            (Build_Config w' p' (bs ++ sp) false).
Proof.
  induction p as [A a0| A | A X a k IH | A body _ k IH];
    intros w w' p' sp bs Hrun; simpl in Hrun.
  - discriminate.
  - discriminate.
  - destruct (exec 0 a w) as [e w1 x| |] eqn:Hex; simpl in Hrun;
      try discriminate.
    + destruct (run 0 (k x) w1) as [tr1 r1] eqn:Hr. simpl in Hrun. subst r1.
      destruct (IH x w1 w' p' sp bs) as [tr Htr].
      { rewrite Hr. reflexivity. }
      exists ((0, e) :: tr). econstructor; [|exact Htr].
      unfold cstep. simpl. rewrite Hex. rewrite app_nil_r. reflexivity.
    + injection Hrun as <- <- <-. exists []. rewrite app_nil_r. constructor.
  - destruct (run 0 k w) as [tr1 r1] eqn:Hr. simpl in Hrun.
    destruct r1 as [|w1 p1 sp1|]; try discriminate.
    injection Hrun as <- <- <-.
    destruct (IH w w1 p1 sp1 (bs ++ [body])) as [tr Htr].
    { rewrite Hr. reflexivity. }
    exists ((0, EvGo) :: tr). econstructor.
    + unfold cstep. simpl. reflexivity.
    + rewrite <- app_assoc in Htr. exact Htr.
Qed.

Variables (w0 : World) (f : FinalizeBlockFunc) (req : ProcessProposalRequest).
Hypothesis Hidle : idle w0 f.

(** While it is in [Execute] the caller can always take its next step. *)
Lemma pre_can_step (A : Type) (rest : Prog A) (m : nat) :
  m < 10 -> cstep 0 (pre w0 req rest m) <> None.
Proof.
  intros Hm. destruct Hidle as [Hmx Hf]. unfold pre, started.
  destruct w0 as [o cs xs rg].
  destruct o as [fn0 lg0 mx0 sc0 rq0 rs0 er0 cf0 in0 ar0].
  cbn in Hmx, Hf. subst. split_nat m; cbn; discriminate.
Qed.

(** The invariant of the run, with where the caller is in [Abort]: from
    its fourth step on, which follows the call of the cancel function, the
    context of the run is cancelled. *)
Definition abort_order (c1 : Config unit) : Prop :=
  inv f (snapshot req) (List.length (ctxs w0)) (List.length (chans w0))
    (logger (oe w0)) (abortRate (oe w0))
    (fun _ kc cn _ => kc = true /\ cn = true) c1 /\
  exists i,
    fg c1 = abort_at (List.length (ctxs w0)) (List.length (chans w0)) i /\
    (4 <= i ->
     nth_error (ctxs (world c1)) (List.length (ctxs w0)) = Some true).

Lemma abort_order_start : abort_order (pre w0 req (Abort ref_oe) 10).
Proof.
  split; [exact (pre_inv Hidle (abort_ok w0 f req))|].
  exists 0. split; [|intros H; lia].
  destruct Hidle as [Hmx Hf]. unfold pre, started.
  destruct w0 as [o cs xs rg].
  destruct o as [fn0 lg0 mx0 sc0 rq0 rs0 er0 cf0 in0 ar0].
  cbn in Hmx, Hf. subst. reflexivity.
Qed.

Lemma abort_order_step (c0 c1 : Config unit) (t : tid) (e : Event) :
  abort_order c0 -> cstep t c0 = Some (e, c1) -> abort_order c1.
Proof.
  intros [Hinv (i & Hfg & Hx)] Hstep.
  split; [eapply inv_step; eassumption|].
  destruct Hinv as (j & obs & held & kc & cn & Hat).
  destruct c0 as [w p bs cr]. cbn [fg world] in Hfg, Hx. subst p.
  assert (cr = false) as -> by (destruct Hat as [H _]; exact H).
  destruct t as [|k].
  - destruct Hat as (_ & _ & _ & Hri & _). cbn [world] in Hri.
    pose proof (ri_cancelFunc Hri) as Hcf.
    pose proof (ri_stopCh Hri) as Hsc.
    pose proof (ri_ctx Hri) as Hctx.
    unfold cstep in Hstep. cbn [crashed world fg bgs] in Hstep.
    destruct i as [|[|[|[|[|[|i]]]]]]; cbn in Hstep.
    + destruct (mtx (oe w)); injection Hstep as <- <-;
        [exists 1 | exists 0]; (split; [reflexivity | intros H; lia]).
    + rewrite Hcf in Hstep. cbn in Hstep. injection Hstep as <- <-.
      exists 2. split; [reflexivity | intros H; lia].
    + rewrite Hcf in Hstep. cbn in Hstep. injection Hstep as <- <-.
      exists 3. split; [reflexivity | intros H; lia].
    + injection Hstep as <- <-.
      exists 4. split; [reflexivity | intros _]. cbn.
      destruct (nth_error (ctxs w) (List.length (ctxs w0))) as [b|] eqn:Hb;
        [|destruct (Hctx eq_refl)].
      eapply nth_error_set_nth_same; eassumption.
    + rewrite Hsc in Hstep. cbn in Hstep. injection Hstep as <- <-.
      exists 5. split; [reflexivity | intros _]. cbn. apply Hx. lia.
    + destruct (closed w (List.length (chans w0))); [|discriminate].
      injection Hstep as <- <-.
      exists 6. split; [reflexivity | intros _]. cbn. apply Hx. lia.
    + discriminate.
  - destruct (goroutine_step_at _ Hat Hstep) as (obs1 & _ & Hp).
    destruct (goroutine_step_ctx _ Hat Hstep) as (obs2 & _ & Hc & _).
    exists i. split; [exact Hp|]. rewrite Hc. exact Hx.
Qed.

Lemma abort_order_steps (c0 c1 : Config unit) (tr : list (tid * Event)) :
  steps c0 tr c1 -> abort_order c0 -> abort_order c1.
Proof.
  induction 1 as [|c0 c1 c2 t e tr Hstep _ IH]; intros H0; [assumption|].
  apply IH. eapply abort_order_step; eassumption.
Qed.

Lemma abort_order_reach (tr : list (tid * Event)) (c1 : Config unit) :
  steps (started w0 req (Abort ref_oe)) tr c1 ->
  (exists m, m < 10 /\ c1 = pre w0 req (Abort ref_oe) m) \/ abort_order c1.
Proof.
  intros Hsteps.
  destruct (@pre_reach E unit w0 f req (Abort ref_oe) Hidle 10 0 tr c1
              eq_refl Hsteps) as [Hpre|[tr' Htr']].
  - left. assumption.
  - right. eapply abort_order_steps; [eassumption | apply abort_order_start].
Qed.

(** C2. [Abort] calls the cancel function and then waits on the stop
    channel, in that order: run on its own it loads and calls the cancel
    function before it receives, and with the channel open it is left
    waiting with the context already cancelled.  During a run started by
    [Execute], under every schedule: whenever the caller cannot move, be it
    that it waits at the receive or that it has returned, the context of
    the run has been cancelled; there is a schedule in which it waits at
    the receive with the stop channel open; as long as the stop channel is
    open [Abort] has not returned; when it has returned the stop channel is
    closed and the goroutine has already stored its response and error,
    all it may still have to do being to release the mutex.  From every
    state the system can get into [Abort] can still be brought to
    return. *)
Theorem Abort_waits_for_completion :
  (forall tr c1,
      steps (started w0 req (Abort ref_oe)) tr c1 ->
      fg c1 = Ret tt ->
      cancelled (world c1) (List.length (ctxs w0)) = true /\
      closed (world c1) (List.length (chans w0)) = true /\
      (bgs c1 = [act Unlock] \/ bgs c1 = [Ret tt]) /\
      exists obs,
        response (oe (world c1)) = Some (response_of (f obs (Some (snapshot req)))) /\
        err (oe (world c1)) = out_err (f obs (Some (snapshot req)))) /\
  (forall tr c1,
      steps (started w0 req (Abort ref_oe)) tr c1 ->
      closed (world c1) (List.length (chans w0)) = false ->
      fg c1 <> Ret tt) /\
  (forall tr c1,
      steps (started w0 req (Abort ref_oe)) tr c1 ->
      exists tr' c2, steps c1 tr' c2 /\ fg c2 = Ret tt) /\
  (forall t w c ch,
      cancelFunc (oe w) = Some c ->
      stopCh (oe w) = Some ch ->
      let w' := with_ctxs (set_nth c true (ctxs w)) w in
      run t (Abort ref_oe) w
      = if closed w ch
        then ([(EvLoad n_cancelFunc, holds t w); (EvLoad n_cancelFunc, holds t w);
               (EvCancel c, holds t w); (EvLoad n_stopCh, holds t w);
               (EvRecv ch, holds t w)],
              Returns tt w' [])
        else ([(EvLoad n_cancelFunc, holds t w); (EvLoad n_cancelFunc, holds t w);
               (EvCancel c, holds t w); (EvLoad n_stopCh, holds t w)],
              Waits w' (act (Recv (Some ch))) [])) /\
  (forall tr c1,
      steps (started w0 req (Abort ref_oe)) tr c1 ->
      cstep 0 c1 = None ->
      cancelled (world c1) (List.length (ctxs w0)) = true) /\
  (exists tr c1,
      steps (started w0 req (Abort ref_oe)) tr c1 /\
      fg c1 = act (Recv (Some (List.length (chans w0)))) /\
      cstep 0 c1 = None /\
      closed (world c1) (List.length (chans w0)) = false /\
      cancelled (world c1) (List.length (ctxs w0)) = true).
Proof.
  assert (Hsafe : forall tr c1,
      steps (started w0 req (Abort ref_oe)) tr c1 ->
      fg c1 = Ret tt ->
      cancelled (world c1) (List.length (ctxs w0)) = true /\
      closed (world c1) (List.length (chans w0)) = true /\
      (bgs c1 = [act Unlock] \/ bgs c1 = [Ret tt]) /\
      exists obs,
        response (oe (world c1)) = Some (response_of (f obs (Some (snapshot req)))) /\
        err (oe (world c1)) = out_err (f obs (Some (snapshot req)))).
  { intros tr c1 Hsteps Hret.
    destruct (started_inv Hidle (abort_ok w0 f req) Hsteps) as [(m & Hm & ->)|Hinv].
    - exfalso. exact (pre_running req (Abort ref_oe) Hidle Hm Hret).
    - destruct (inv_returned Hinv Hret)
        as (j & obs & held & kc & cn & [-> ->] & Hj & Hkc & Hcn & Hbg & Hri & _).
      specialize (Hkc eq_refl). specialize (Hcn eq_refl).
      split; [|split; [|split]].
      + unfold cancelled, flag. now rewrite Hcn.
      + unfold closed, flag. rewrite (ri_chan Hri). apply Nat.leb_le. exact Hkc.
      + rewrite Hbg. clear Hri.
        assert (j = 12 \/ j = 13) as [-> | ->] by lia; [left | right]; reflexivity.
      + exists obs. split; [apply (ri_response Hri) | apply (ri_err Hri)]; lia. }
  split; [exact Hsafe | split; [|split; [|split; [|split]]]].
  - intros tr c1 Hsteps Hopen Hret.
    destruct (Hsafe tr c1 Hsteps Hret) as (_ & Hcl & _). congruence.
  - intros tr c1 Hsteps.
    destruct (started_live Hidle (abort_ok w0 f req) Hsteps)
      as (tr' & c2 & [] & Hs & Hr).
    eauto.
  - intros t w c ch. apply Abort_solo_order.
  - intros tr c1 Hsteps Hblocked.
    destruct (abort_order_reach Hsteps) as [(m & Hm & ->)|[Hinv (i & Hfg & Hx)]].
    + destruct (pre_can_step (Abort ref_oe) Hm Hblocked).
    + destruct c1 as [w p bs cr]. cbn [fg world] in Hfg, Hx |- *. subst p.
      assert (cr = false) as ->
        by (destruct Hinv as (j & obs & held & kc & cn & H & _); exact H).
      assert (H4 : 4 <= i).
      { unfold cstep in Hblocked. cbn [crashed world fg bgs] in Hblocked.
        destruct i as [|[|[|[|i]]]]; cbn in Hblocked; try lia;
          try discriminate.
        destruct (mtx (oe w)); discriminate. }
      unfold cancelled, flag. rewrite (Hx H4). reflexivity.
  - destruct Hidle as [Hm Hf].
    destruct (@caller_runs E unit unit (Execute ref_oe (Some req)) w0 _ tt _ []
                (fun _ => Abort ref_oe) (Execute_solo w0 req Hm)) as [tr1 H1].
    pose (w1 := with_ctxs (set_nth (List.length (ctxs w0)) true
                             (ctxs (after_Execute w0 req)))
                  (after_Execute w0 req)).
    assert (Hopen : closed (after_Execute w0 req) (List.length (chans w0)) = false).
    { unfold closed. cbn. apply flag_snoc. }
    destruct (@caller_waits unit (Abort ref_oe) (after_Execute w0 req) w1
                (act (Recv (Some (List.length (chans w0))))) []
                ([] ++ [goroutine (List.length (ctxs w0))])) as [tr2 H2].
    { rewrite (@Abort_solo_order 0 (after_Execute w0 req)
                 (List.length (ctxs w0)) (List.length (chans w0))
                 eq_refl eq_refl).
      rewrite Hopen. reflexivity. }
    eexists (tr1 ++ tr2), _. split; [eapply steps_trans; [exact H1 | exact H2]|].
    cbn [fg world]. split; [reflexivity | split; [|split]].
    + unfold cstep. cbn. unfold closed. cbn. rewrite flag_snoc. reflexivity.
    + exact Hopen.
    + unfold cancelled, flag, w1. cbn.
      rewrite (nth_error_set_nth_same _ _ true (nth_error_snoc (ctxs w0) false)).
      reflexivity.
Qed.

End AbortOrder.

(** ** The further properties on the concrete instance *)

Lemma Abort_waits_for_completion_witness :
  idle Sample.fresh Sample.finalize /\
  (exists tr c1,
      steps (started Sample.fresh Sample.proposal (Abort ref_oe)) tr c1 /\
      fg c1 = Ret tt) /\
  (exists tr c1,
      steps (started Sample.fresh Sample.proposal (Abort ref_oe)) tr c1 /\
      fg c1 = act (Recv (Some 0)) /\
      cstep 0 c1 = None /\
      closed (world c1) 0 = false /\
      cancelled (world c1) 0 = true) /\
  run 0 (Abort ref_oe) Sample.running
  = ([(EvLoad n_cancelFunc, false); (EvLoad n_cancelFunc, false);
      (EvCancel 0, false); (EvLoad n_stopCh, false)],
     Waits (with_ctxs [true] Sample.running) (act (Recv (Some 0))) []).
Proof.
  split; [split; reflexivity|].
  destruct (@Abort_waits_for_completion Sample.externals
              Sample.fresh Sample.finalize Sample.proposal
              (conj eq_refl eq_refl))
    as (_ & _ & Hlive & Hsolo & _ & Hblock).
  split; [exact (Hlive [] _ (steps_refl _)) | split; [exact Hblock|]].
  exact (Hsolo 0 Sample.running 0 0 eq_refl eq_refl).
Defined.


Lemma Execute_nil_request_witness :
  mtx (oe Sample.running) = None /\
  snd (run 0 (Execute ref_oe None) Sample.running)
  = Panics (after_Execute_nil Sample.running) /\
  closed (after_Execute_nil Sample.running) 1 = false.
Proof.
  split; [reflexivity|].
  destruct (@Execute_nil_request Sample.externals Sample.running eq_refl)
    as (Hrun & Hopen & _).
  split; [rewrite Hrun; reflexivity | exact Hopen].
Defined.

Lemma AbortIfNeeded_without_request_witness :
  (mtx (oe Sample.fresh) = None /\ request (oe Sample.fresh) = None) /\
  snd (run 0 (AbortIfNeeded ref_oe None) Sample.fresh) = Panics Sample.fresh /\
  snd (run 0 (Reset ref_oe ;; AbortIfNeeded ref_oe None) Sample.running)
  = Panics (after_Reset Sample.running).
Proof.
  split; [split; reflexivity|].
  split.
  - destruct (@AbortIfNeeded_without_request Sample.externals Sample.fresh None
                eq_refl) as (H & _).
    rewrite (H eq_refl). reflexivity.
  - exact (proj2 (@AbortIfNeeded_without_request Sample.externals
                    Sample.running None eq_refl)).
Defined.

Lemma WaitResult_after_Reset_witness :
  (mtx (oe Sample.finished) = None /\
   stopCh (oe Sample.finished) = Some 0 /\
   closed Sample.finished 0 = true) /\
  snd (run 0 (Reset ref_oe ;; WaitResult ref_oe) Sample.finished)
  = Returns (None, None) (after_Reset Sample.finished) [].
Proof.
  split; [repeat split; reflexivity|].
  exact (@WaitResult_after_Reset Sample.externals Sample.finished 0
           eq_refl eq_refl eq_refl).
Defined.

Lemma AbortIfNeeded_random_draw_witness :
  (mtx (oe Sample.running) = None /\
   request (oe Sample.running) = Some (snapshot Sample.proposal) /\
   cancelFunc (oe Sample.running) = Some 0) /\
  exists tr w',
    run 0 (AbortIfNeeded ref_oe (Some [x0a%byte; x0b%byte])) Sample.running
    = (tr, Returns false w' []) /\
    rng w' = rng Sample.running.
Proof.
  split; [repeat split; reflexivity|].
  exact (proj1 (@AbortIfNeeded_random_draw Sample.externals Sample.running
                  (snapshot Sample.proposal) 0 (Some [x0a%byte; x0b%byte])
                  eq_refl eq_refl eq_refl)).
Defined.

Lemma WaitResult_before_Execute_witness :
  stopCh (oe Sample.fresh) = None /\
  crashed (Build_Config Sample.fresh (WaitResult ref_oe) [] false) = false.
Proof.
  split; [reflexivity|].
  exact (proj1 (proj2 (@WaitResult_before_Execute Sample.externals Sample.fresh
                         [] _ eq_refl (steps_refl _)))).
Defined.

Lemma Initialized_during_run_witness :
  idle Sample.fresh Sample.finalize /\
  exists tr c1,
    steps (started Sample.fresh Sample.proposal (Initialized ref_oe)) tr c1 /\
    fg c1 = Ret true.
Proof.
  split; [split; reflexivity|].
  exact (proj2 (proj2 (@Initialized_during_run Sample.externals
                         Sample.fresh Sample.finalize Sample.proposal
                         (conj eq_refl eq_refl))) [] _ (steps_refl _)).
Defined.

Lemma WaitResult_without_abort_witness :
  idle Sample.fresh Sample.finalize /\
  exists tr c1,
    steps (started Sample.fresh Sample.proposal (WaitResult ref_oe)) tr c1 /\
    fg c1 = Ret Sample.result /\
    cancelled (world c1) 0 = false.
Proof.
  split; [split; reflexivity|].
  exact (proj2 (proj2 (@WaitResult_without_abort Sample.externals
                         Sample.fresh Sample.finalize Sample.proposal
                         (conj eq_refl eq_refl))) [] _ (steps_refl _)).
Defined.

Lemma AbortIfNeeded_then_WaitResult_witness :
  idle Sample.fresh Sample.finalize /\
  exists tr c1 v,
    steps (started Sample.fresh Sample.proposal
             (abort_if_needed_then_wait (Some [x00%byte]))) tr c1 /\
    fg c1 = Ret v.
Proof.
  split; [split; reflexivity|].
  exact (proj2 (proj2 (@AbortIfNeeded_then_WaitResult Sample.externals
                         Sample.fresh Sample.finalize Sample.proposal
                         (conj eq_refl eq_refl) (Some [x00%byte])))
           [] _ (steps_refl _)).
Defined.

Lemma Reset_after_WaitResult_witness :
  idle Sample.fresh Sample.finalize /\
  exists tr c1 x,
    steps (started Sample.fresh Sample.proposal
             (x <- abort_if_needed_then_wait (Some [x00%byte]) ;; then_Reset x))
      tr c1 /\
    fg c1 = Ret x.
Proof.
  split; [split; reflexivity|].
  exact (proj1 (proj2 (@Reset_after_WaitResult Sample.externals
                         Sample.fresh Sample.finalize Sample.proposal
                         (conj eq_refl eq_refl) (Some [x00%byte])
                         [] _ (steps_refl _)))).
Defined.

Lemma Reset_after_Abort_witness :
  idle Sample.fresh Sample.finalize /\
  exists tr c1,
    steps (started Sample.fresh Sample.proposal
             (x <- Abort ref_oe ;; then_Reset x)) tr c1 /\
    fg c1 = Ret tt.
Proof.
  split; [split; reflexivity|].
  exact (proj1 (proj2 (@Reset_after_Abort Sample.externals
                         Sample.fresh Sample.finalize Sample.proposal
                         (conj eq_refl eq_refl) [] _ (steps_refl _)))).
Defined.

Lemma Reset_during_run_can_panic_witness :
  idle Sample.fresh Sample.finalize /\
  exists tr c1,
    steps (started Sample.fresh Sample.proposal (Reset ref_oe)) tr c1 /\
    crashed c1 = true.
Proof.
  split; [split; reflexivity|].
  destruct (@Reset_during_run_can_panic Sample.externals
              Sample.fresh Sample.finalize (conj eq_refl eq_refl)
              Sample.proposal) as (tr & c1 & Hs & Hcr & _).
  exists tr, c1. split; [exact Hs | exact Hcr].
Defined.

Lemma Execute_twice_can_panic_witness :
  idle Sample.fresh Sample.finalize /\
  exists tr c1,
    steps (started Sample.fresh Sample.proposal
             (Execute ref_oe (Some Sample.proposal))) tr c1 /\
    crashed c1 = true.
Proof.
  split; [split; reflexivity|].
  destruct (@Execute_twice_can_panic Sample.externals
              Sample.fresh Sample.finalize (conj eq_refl eq_refl)
              Sample.proposal Sample.proposal) as (tr & c1 & Hs & Hcr & _).
  exists tr, c1. split; [exact Hs | exact Hcr].
Defined.

Lemma run_after_Abort_witness :
  idle Sample.fresh Sample.finalize /\
  exists tr c1,
    steps (started Sample.fresh Sample.proposal
             (Abort ref_oe ;; Execute ref_oe (Some Sample.proposal) ;;
              WaitResult ref_oe)) tr c1 /\
    fg c1 = Ret Sample.result.
Proof.
  split; [split; reflexivity|].
  exact (proj2 (proj2 (@run_after_Abort Sample.externals
                         Sample.finalize Sample.proposal
                         Sample.fresh Sample.proposal
                         (conj eq_refl eq_refl) [] _ (steps_refl _)))).
Defined.

Lemma run_after_cycle_witness :
  idle Sample.fresh Sample.finalize /\
  exists tr c1,
    steps (started Sample.fresh Sample.proposal
             ((x <- abort_if_needed_then_wait (Some [x00%byte]) ;; then_Reset x) ;;
              Execute ref_oe (Some Sample.proposal) ;; WaitResult ref_oe))
      tr c1 /\
    fg c1 = Ret Sample.result.
Proof.
  split; [split; reflexivity|].
  exact (proj2 (proj2 (@run_after_cycle Sample.externals
                         Sample.finalize Sample.proposal
                         Sample.fresh Sample.proposal
                         (conj eq_refl eq_refl) (Some [x00%byte])
                         [] _ (steps_refl _)))).
Defined.
